(** * go-thrift connector: a shallow embedding of [connector/service.go] and
    [connector/client.go], and the properties of the dynamic marshaling engine.

    The development follows the Go sources:
    - package [thrift] (the Apache Thrift Go library the connector calls into)
      is represented by its constants, by the [TProtocol] interface as a record
      of fallible state transformers, and by one implementation, the binary
      protocol over an in-memory buffer;
    - package [parser] contributes the schema records;
    - package [connector] is embedded function by function: [NewService],
      [LookupType], [Call], [send], [recv], [ReadResponse], [ReadValue],
      [ReadStruct], [ReadMap], [ReadList], [WriteRequest], [WriteStruct],
      [WriteMap], [WriteList], [WriteField], [WriteValue], [Int16], [Int32],
      [Int64], [Float64].

    Go integers are [Z] with the wrap-around written out, Go maps that are only
    looked up are [gmap]s, Go maps that are iterated with [range] are
    association lists whose order stands for the (unspecified) iteration order,
    a nil pointer is [None], a run-time panic is an outcome of its own. *)

From Stdlib Require Import ZArith String List Lia Ascii Bool.
From Stdlib Require Import Strings.Byte.
From stdpp Require Import gmap strings list.

Local Open Scope Z_scope.

#[local] Set Warnings "-register-all".

(** ** Fixed-width integers *)

(** [wrap w z]: the value of the two's complement [w]-bit signed integer with
    the same low [w] bits as [z] (Go's conversion [intw(z)]). *)
Definition wrap (w : Z) (z : Z) : Z :=
  (z + 2 ^ (w - 1)) mod 2 ^ w - 2 ^ (w - 1).

Definition in_int (w : Z) (z : Z) : Prop := - 2 ^ (w - 1) <= z < 2 ^ (w - 1).

Definition in_intb (w : Z) (z : Z) : bool :=
  (- 2 ^ (w - 1) <=? z) && (z <? 2 ^ (w - 1)).

(** ** Package thrift: constants *)

Module thrift.

(** [type TType byte] *)
Definition TType := Z.
Definition STOP : TType := 0.
Definition VOID : TType := 1.
Definition BOOL : TType := 2.
Definition BYTE : TType := 3.
Definition DOUBLE : TType := 4.
Definition I16 : TType := 6.
Definition I32 : TType := 8.
Definition I64 : TType := 10.
Definition STRING : TType := 11.
Definition STRUCT : TType := 12.
Definition MAP : TType := 13.
Definition SET : TType := 14.
Definition LIST : TType := 15.
Definition UTF8 : TType := 16.
Definition UTF16 : TType := 17.

(** [type TMessageType int32] *)
Definition TMessageType := Z.
Definition CALL : TMessageType := 1.
Definition REPLY : TMessageType := 2.
Definition EXCEPTION : TMessageType := 3.
Definition ONEWAY : TMessageType := 4.

(** Application exception types. *)
Definition UNKNOWN_APPLICATION_EXCEPTION : Z := 0.
Definition BAD_SEQUENCE_ID : Z := 4.

(** Protocol exception types. *)
Definition INVALID_DATA : Z := 1.
Definition NEGATIVE_SIZE : Z := 2.
Definition BAD_VERSION : Z := 4.
Definition DEPTH_LIMIT : Z := 6.

Definition DEFAULT_RECURSION_DEPTH : nat := 64.

End thrift.
Import thrift.

(** ** Package parser: the schema document *)

Module parser.

(** [type Type struct { Name string; KeyType, ValueType *Type }] *)
Inductive Type_ : Type :=
  mkType (Name : string) (KeyType ValueType : option Type_).

Definition Type_Name (t : Type_) : string := let 'mkType n _ _ := t in n.
Definition Type_KeyType (t : Type_) : option Type_ := let 'mkType _ k _ := t in k.
Definition Type_ValueType (t : Type_) : option Type_ := let 'mkType _ _ v := t in v.

(** [type Field struct { ID int; Name string; Optional bool; Type *Type }] *)
Record Field : Type := mkField {
  Field_ID : Z;
  Field_Name : string;
  Field_Optional : bool;
  Field_Type : option Type_
}.

(** [type Struct struct { Name string; Fields []*Field }] *)
Record Struct : Type := mkStruct {
  Struct_Name : string;
  Struct_Fields : list Field
}.

(** [type Method struct { Name string; ReturnType *Type; Arguments []*Field;
    Exceptions []*Field }] *)
Record Method : Type := mkMethod {
  Method_Name : string;
  Method_ReturnType : option Type_;
  Method_Arguments : list Field;
  Method_Exceptions : list Field
}.

(** [type Service struct { Name string; Methods map[string]*Method }] *)
Record Service : Type := mkService {
  Service_Name : string;
  Service_Methods : gmap string Method
}.

(** The connector only ranges over the enum names. *)
Record Enum : Type := mkEnum { Enum_Name : string }.

(** [type Thrift struct { Typedefs; Enums; Structs; Exceptions; Services }].
    Each field is a Go map; the connector ranges over them, so each is an
    association list with pairwise distinct keys whose order is the order in
    which [range] happens to visit the map. *)
Record Thrift : Type := mkThrift {
  Thrift_Typedefs : list (string * Type_);
  Thrift_Enums : list (string * Enum);
  Thrift_Structs : list (string * Struct);
  Thrift_Exceptions : list (string * Struct);
  Thrift_Services : list (string * Service)
}.

End parser.
Import parser.

(** Lookup in a Go map given as an association list (first binding). *)
Fixpoint assoc {A : Type} (k : string) (m : list (string * A)) : option A :=
  match m with
  | [] => None
  | (k', x) :: m' => if String.eqb k' k then Some x else assoc k m'
  end.

(** ** Generic values: what an [interface{}] of the connector can hold *)

(** IEEE-754 images: a [float64] is its eight bytes (most significant first),
    a [float32] its four. *)
Inductive float64 : Type :=
  Float64frombytes (b7 b6 b5 b4 b3 b2 b1 b0 : byte).
Inductive float32 : Type :=
  Float32frombytes (b3 b2 b1 b0 : byte).

(** The integer kinds that [value.(type)] tells apart. *)
Inductive int_kind : Type :=
| Kint | Kint8 | Kint16 | Kint32 | Kint64
| Kuint | Kuint8 | Kuint16 | Kuint32 | Kuint64.

Definition is_signed (k : int_kind) : bool :=
  match k with
  | Kint | Kint8 | Kint16 | Kint32 | Kint64 => true
  | _ => false
  end.

Definition kind_bits (k : int_kind) : Z :=
  match k with
  | Kint8 | Kuint8 => 8
  | Kint16 | Kuint16 => 16
  | Kint32 | Kuint32 => 32
  | Kint | Kint64 | Kuint | Kuint64 => 64
  end.

(** [VMap] is a [map[string]interface{}]: an association list with distinct
    keys, listed in the order in which [range] visits them.  [VList] is a
    [[]interface{}]. [VNil] is the nil interface. *)
Inductive iface : Type :=
| VNil
| VBool (b : bool)
| VInt (k : int_kind) (n : Z)
| VFloat32 (f : float32)
| VFloat64 (f : float64)
| VString (s : string)
| VList (l : list iface)
| VMap (m : list (string * iface)).

(** [byte] is [uint8]. *)
Definition VByte (n : Z) : iface := VInt Kuint8 n.

(** [m[k]] with the comma-ok form. *)
Definition map_get (k : string) (m : list (string * iface)) : option iface :=
  assoc k m.

(** [m[k] = v]: replace the binding of [k], or add one. *)
Fixpoint map_set (k : string) (v : iface) (m : list (string * iface))
  : list (string * iface) :=
  match m with
  | [] => [(k, v)]
  | (k', x) :: m' =>
      if String.eqb k' k then (k', v) :: m' else (k', x) :: map_set k v m'
  end.

(** ** Errors, panics and outcomes *)

(** The errors the connector builds with [fmt.Errorf], one constructor per
    format string, and the errors of the thrift library. *)
Inductive error : Type :=
| ErrServiceNotExists (service : string)      (* "service %s not exits." *)
| ErrTypeNotFound (name : string)             (* "type %s not found" *)
| ErrMethodNotExists (service method : string)(* "method %s.%s not exits." *)
| ErrIndexNotExists (method : string) (index : Z)
                                              (* "method %s index %s not exits." *)
| ErrUnsupportedType (t : Type_)              (* "unsupported type %s" *)
| ErrStructNotFound (name : string)           (* "struct %s not found." *)
| ErrArgNotExists (id : Z) (name : string)    (* "No.%d arg %s not exits." *)
| ErrAssertMap (v : iface)    (* "%v type assertion to map[string]interface{} failed." *)
| ErrAssertList (v : iface)   (* "%v type assertion to []interface{} failed." *)
| ErrFieldRequired (name : string)            (* "field %s required." *)
| ErrCannotConvert (v : iface) (name : string)(* "cannot convert %v to type %s." *)
| TApplicationException (type_ : Z) (message : string)
| TProtocolException (type_ : Z)
| TTransportException (message : string).

Inductive panic : Type :=
| NilDereference
| IndexOutOfRange (index : Z) (len : Z).

(** What a call can come to: a result, a returned error, a run-time panic, or
    the model's recursion budget being exhausted. *)
Inductive outcome (A : Type) : Type :=
| Ok (a : A)
| Err (e : error)
| Panic (p : panic)
| OutOfFuel.
Arguments Ok {A} a.
Arguments Err {A} e.
Arguments Panic {A} p.
Arguments OutOfFuel {A}.

(** A computation over a protocol object of state [P]. The state is returned
    in every case: a failed read may have consumed input. *)
Definition M (P A : Type) : Type := P -> outcome A * P.

Definition ret {P A} (a : A) : M P A := fun p => (Ok a, p).
Definition fail {P A} (e : error) : M P A := fun p => (Err e, p).
Definition throw {P A} (x : panic) : M P A := fun p => (Panic x, p).
Definition out_of_fuel {P A} : M P A := fun p => (OutOfFuel, p).

(** [x, err := m; if err != nil { return err }; k x] *)
Definition bind {P A B} (m : M P A) (k : A -> M P B) : M P B :=
  fun p =>
    match m p with
    | (Ok a, p') => k a p'
    | (Err e, p') => (Err e, p')
    | (Panic x, p') => (Panic x, p')
    | (OutOfFuel, p') => (OutOfFuel, p')
    end.

(** A call whose returned error is dropped: execution goes on after an [Err]. *)
Definition ignore_err {P A} (m : M P A) : M P unit :=
  fun p =>
    match m p with
    | (Ok _, p') => (Ok tt, p')
    | (Err _, p') => (Ok tt, p')
    | (Panic x, p') => (Panic x, p')
    | (OutOfFuel, p') => (OutOfFuel, p')
    end.

Declare Scope go_scope.
Delimit Scope go_scope with go.
Notation "'let*' x := m 'in' k" := (bind m (fun x => k))
  (at level 10, x name, m at level 100, k at level 200) : go_scope.
Local Open Scope go_scope.

(** ** The interface [thrift.TProtocol] *)

Record TProtocol (P : Type) : Type := mkProtocol {
  WriteMessageBegin : string -> TMessageType -> Z -> M P unit;
  WriteMessageEnd : M P unit;
  WriteStructBegin : string -> M P unit;
  WriteStructEnd : M P unit;
  WriteFieldBegin : string -> TType -> Z -> M P unit;
  WriteFieldEnd : M P unit;
  WriteFieldStop : M P unit;
  WriteMapBegin : TType -> TType -> Z -> M P unit;
  WriteMapEnd : M P unit;
  WriteListBegin : TType -> Z -> M P unit;
  WriteListEnd : M P unit;
  WriteBool : bool -> M P unit;
  WriteByte : Z -> M P unit;
  WriteI16 : Z -> M P unit;
  WriteI32 : Z -> M P unit;
  WriteI64 : Z -> M P unit;
  WriteDouble : float64 -> M P unit;
  WriteString : string -> M P unit;
  ReadMessageBegin : M P (string * TMessageType * Z);
  ReadMessageEnd : M P unit;
  ReadStructBegin : M P string;
  ReadStructEnd : M P unit;
  ReadFieldBegin : M P (string * TType * Z);
  ReadFieldEnd : M P unit;
  ReadMapBegin : M P (TType * TType * Z);
  ReadMapEnd : M P unit;
  ReadListBegin : M P (TType * Z);
  ReadListEnd : M P unit;
  ReadBool : M P bool;
  ReadByte : M P Z;
  ReadI16 : M P Z;
  ReadI32 : M P Z;
  ReadI64 : M P Z;
  ReadDouble : M P float64;
  ReadString : M P string;
  Skip : TType -> M P unit;
  Flush : M P unit;
  (* Transport().IsOpen(), Transport().Open() *)
  IsOpen : P -> bool;
  Open : M P unit
}.
Arguments WriteMessageBegin {P} _. Arguments WriteMessageEnd {P} _.
Arguments WriteStructBegin {P} _. Arguments WriteStructEnd {P} _.
Arguments WriteFieldBegin {P} _. Arguments WriteFieldEnd {P} _.
Arguments WriteFieldStop {P} _. Arguments WriteMapBegin {P} _.
Arguments WriteMapEnd {P} _. Arguments WriteListBegin {P} _.
Arguments WriteListEnd {P} _. Arguments WriteBool {P} _.
Arguments WriteByte {P} _. Arguments WriteI16 {P} _.
Arguments WriteI32 {P} _. Arguments WriteI64 {P} _.
Arguments WriteDouble {P} _. Arguments WriteString {P} _.
Arguments ReadMessageBegin {P} _. Arguments ReadMessageEnd {P} _.
Arguments ReadStructBegin {P} _. Arguments ReadStructEnd {P} _.
Arguments ReadFieldBegin {P} _. Arguments ReadFieldEnd {P} _.
Arguments ReadMapBegin {P} _. Arguments ReadMapEnd {P} _.
Arguments ReadListBegin {P} _. Arguments ReadListEnd {P} _.
Arguments ReadBool {P} _. Arguments ReadByte {P} _.
Arguments ReadI16 {P} _. Arguments ReadI32 {P} _. Arguments ReadI64 {P} _.
Arguments ReadDouble {P} _. Arguments ReadString {P} _.
Arguments Skip {P} _. Arguments Flush {P} _.
Arguments IsOpen {P} _. Arguments Open {P} _.

(** ** connector/service.go: the type registry *)

(** The package-level variable [defultTypeNameMap] as the program starts. *)
Definition defultTypeNameMap_initial : gmap string TType :=
  list_to_map
    [ ("stop", STOP); ("void", VOID); ("bool", BOOL); ("byte", BYTE);
      ("double", DOUBLE); ("i16", I16); ("i32", I32); ("i64", I64);
      ("string", STRING); ("struct", STRUCT); ("map", MAP); ("set", SET);
      ("list", LIST); ("utf8", UTF8); ("utf16", UTF16) ].

(** A Go map variable holds a reference. The only map object that a
    [Service.Types] field is ever bound to is the one [defultTypeNameMap]
    names ([types = defultTypeNameMap] copies the reference), so the package
    state is the content of that object and [Types] is a reference to it. *)
Record Globals : Type := mkGlobals {
  defultTypeNameMap : gmap string TType
}.

Definition Globals_initial : Globals :=
  {| defultTypeNameMap := defultTypeNameMap_initial |}.

Inductive types_ref : Type := ref_defultTypeNameMap.

Definition deref (g : Globals) (r : types_ref) : gmap string TType :=
  match r with ref_defultTypeNameMap => defultTypeNameMap g end.

(** [type Service struct { *parser.Service; Structs map[string]*parser.Struct;
    Types map[string]thrift.TType }] *)
Record Service : Type := mkService {
  Service_parser : parser.Service;
  Service_Structs : gmap string Struct;
  Service_Types : types_ref
}.

(** [for name, x := range m { dst[name] = f x }] *)
Definition range_insert {A B : Type} (f : A -> B) (m : list (string * A))
  (dst : gmap string B) : gmap string B :=
  fold_left (fun acc kv => <[fst kv := f (snd kv)]> acc) m dst.

(** The typedef loop of [NewService]. The tuple assignment
    [types[name], ok = types[thriftType.Name]] stores the looked-up tag, or
    the zero tag when the lookup fails, before [ok] is tested. *)
Fixpoint typedefs_loop (typedefs : list (string * Type_))
  (types : gmap string TType) : gmap string TType * option error :=
  match typedefs with
  | [] => (types, None)
  | (name, thriftType) :: rest =>
      match types !! Type_Name thriftType with
      | Some t => typedefs_loop rest (<[name := t]> types)
      | None =>
          (<[name := STOP]> types,
           Some (ErrTypeNotFound (Type_Name thriftType)))
      end
  end.

Definition NewService (parsedThrift : Thrift) (name : string)
  : M Globals Service :=
  fun g =>
    match assoc name (Thrift_Services parsedThrift) with
    | None => (Err (ErrServiceNotExists name), g)
    | Some service =>
        let structs := range_insert id (Thrift_Exceptions parsedThrift) ∅ in
        let structs := range_insert id (Thrift_Structs parsedThrift) structs in
        (* types = defultTypeNameMap *)
        let types := defultTypeNameMap g in
        let types := range_insert (fun _ => I32) (Thrift_Enums parsedThrift) types in
        let types := range_insert (fun _ => STRUCT) (Thrift_Structs parsedThrift) types in
        let types := range_insert (fun _ => STRUCT) (Thrift_Exceptions parsedThrift) types in
        match typedefs_loop (Thrift_Typedefs parsedThrift) types with
        | (types, Some e) => (Err e, {| defultTypeNameMap := types |})
        | (types, None) =>
            (Ok {| Service_parser := service;
                   Service_Structs := structs;
                   Service_Types := ref_defultTypeNameMap |},
             {| defultTypeNameMap := types |})
        end
    end.

Definition LookupType (g : Globals) (service : Service) (name : string) : TType :=
  match deref g (Service_Types service) !! name with
  | Some ttype => ttype
  | None => STOP
  end.

(** ** Numeric coercions of connector/client.go *)

(** What the connector takes from Go's floating point: the conversions between
    floats and integers and [strconv.ParseFloat]. They are parameters of the
    model. [int_of_float64 w f] is the conversion [intw(f)]. *)
Record FloatModel : Type := mkFloatModel {
  float64_of_float32 : float32 -> float64;
  int_of_float64 : Z -> float64 -> Z;
  float64_of_int : Z -> float64;
  ParseFloat : string -> option float64
}.

(** [strconv.ParseInt(s, 10, 0)] on a 64-bit platform: an optional sign, then
    one or more decimal digits, the value within the range of [int64]. *)
Definition digit_of (c : ascii) : option Z :=
  let n := Z.of_N (N_of_ascii c) in
  if (48 <=? n) && (n <=? 57) then Some (n - 48) else None.

Fixpoint parse_digits (s : string) (acc : Z) : option Z :=
  match s with
  | EmptyString => Some acc
  | String c s' =>
      match digit_of c with
      | Some d => parse_digits s' (acc * 10 + d)
      | None => None
      end
  end.

Definition ParseUint (s : string) : option Z :=
  match s with
  | EmptyString => None
  | _ => parse_digits s 0
  end.

Definition ParseInt (s : string) : option Z :=
  match s with
  | EmptyString => None
  | String c s' =>
      let neg := Ascii.eqb c "-"%char in
      let s0 := if Ascii.eqb c "+"%char || neg then s' else s in
      match ParseUint s0 with
      | None => None
      | Some un =>
          if neg then (if un <=? 2 ^ 63 then Some (- un) else None)
          else (if un <? 2 ^ 63 then Some un else None)
      end
  end.

Section Coercions.

Variable fm : FloatModel.

(** [reflect.ValueOf(value).Float()] *)
Definition reflect_Float (value : iface) : option float64 :=
  match value with
  | VFloat32 f => Some (float64_of_float32 fm f)
  | VFloat64 f => Some f
  | _ => None
  end.

(** [intw(x)] of the [switch value.(type)] of [Int16], [Int32], [Int64]. *)
Definition IntW (w : Z) (value : iface) : Z * bool :=
  match value with
  | VFloat32 _ | VFloat64 _ =>
      match reflect_Float value with
      | Some f => (wrap w (int_of_float64 fm w f), true)
      | None => (0, false)
      end
  | VInt _ n => (wrap w n, true)
  | VString s =>
      match ParseInt s with
      | Some int64Value => (wrap w int64Value, true)
      | None => (0, false)
      end
  | _ => (0, false)
  end.

Definition Int16 (value : iface) : Z * bool := IntW 16 value.
Definition Int32 (value : iface) : Z * bool := IntW 32 value.
Definition Int64 (value : iface) : Z * bool := IntW 64 value.

Definition zero_float64 : float64 :=
  Float64frombytes x00 x00 x00 x00 x00 x00 x00 x00.

Definition Float64 (value : iface) : float64 * bool :=
  match value with
  | VFloat32 _ | VFloat64 _ =>
      match reflect_Float value with
      | Some f => (f, true)
      | None => (zero_float64, false)
      end
  | VInt _ n => (float64_of_int fm n, true)
  | VString s =>
      match ParseFloat fm s with
      | Some float64Value => (float64Value, true)
      | None => (zero_float64, false)
      end
  | _ => (zero_float64, false)
  end.

End Coercions.

(** ** connector/client.go: the codec core *)

(** [l[i]] on a Go slice: a run-time panic outside [0, len(l)). *)
Definition index_slice {P A : Type} (l : list A) (i : Z) : M P A :=
  if (0 <=? i) && (i <? Z.of_nat (length l)) then
    match nth_error l (Z.to_nat i) with
    | Some x => ret x
    | None => throw (IndexOutOfRange i (Z.of_nat (length l)))
    end
  else throw (IndexOutOfRange i (Z.of_nat (length l))).

(** [x, ok := m[k]; if ok { present x } else { absent }], written as a
    traversal of the map so that [present] is applied to a component of it. *)
Definition with_map_get {B : Type} (m : list (string * iface)) (k : string)
  (present : iface -> B) (absent : B) : B :=
  (fix go (m : list (string * iface)) : B :=
     match m with
     | [] => absent
     | (k', x) :: m' => if String.eqb k' k then present x else go m'
     end) m.

(** The loop [for _, structField := range thriftStruct.Fields] of
    [ReadStruct]: the first declared field whose ID is the index read. *)
Definition find_field (index : Z) (fields : list Field) : option Field :=
  find (fun structField => Field_ID structField =? index) fields.

Section Codec.

Context {P : Type}.
Variable proto : TProtocol P.
Variable fm : FloatModel.
Variable g : Globals.
Variable service : Service.

(** *** The read path *)

Section ReadWith.

(** [client.ReadValue], as the functions below call it. *)
Variable ReadValue_rec : option Type_ -> M P iface.

Fixpoint ReadStruct_loop (fields : list Field) (fuel : nat)
  (result : list (string * iface)) : M P (list (string * iface)) :=
  match fuel with
  | O => out_of_fuel
  | S fuel' =>
      let* header := ReadFieldBegin proto in
      let '(_, thriftType, index) := header in
      if thriftType =? STOP then ret result
      else
        match find_field index fields with
        | None =>
            let* _ := ignore_err (Skip proto thriftType) in
            let* _ := ReadFieldEnd proto in
            ReadStruct_loop fields fuel' result
        | Some field =>
            let* value := ReadValue_rec (Field_Type field) in
            let* _ := ReadFieldEnd proto in
            ReadStruct_loop fields fuel'
              (map_set (Field_Name field) value result)
        end
  end.

Definition ReadStruct_with (fuel : nat) (parserType : Type_) : M P iface :=
  match Service_Structs service !! Type_Name parserType with
  | None => fail (ErrStructNotFound (Type_Name parserType))
  | Some thriftStruct =>
      (* if _, err = ReadStructBegin(); err != nil { } *)
      let* _ := ignore_err (ReadStructBegin proto) in
      let* result := ReadStruct_loop (Struct_Fields thriftStruct) fuel [] in
      let* _ := ReadStructEnd proto in
      ret (VMap result)
  end.

(** [for i := 0; i < size; i++] *)
Fixpoint ReadMap_loop (valueType : option Type_) (count : nat)
  (result : list (string * iface)) : M P (list (string * iface)) :=
  match count with
  | O => ret result
  | S count' =>
      let* key := ReadString proto in
      let* value := ReadValue_rec valueType in
      ReadMap_loop valueType count' (map_set key value result)
  end.

Definition ReadMap_with (parserType : Type_) : M P iface :=
  let* header := ReadMapBegin proto in
  let '(_, _, size) := header in
  let* result := ReadMap_loop (Type_ValueType parserType) (Z.to_nat size) [] in
  let* _ := ReadMapEnd proto in
  ret (VMap result).

Fixpoint ReadList_loop (valueType : option Type_) (count : nat)
  (result : list iface) : M P (list iface) :=
  match count with
  | O => ret result
  | S count' =>
      let* value := ReadValue_rec valueType in
      ReadList_loop valueType count' (result ++ [value])
  end.

Definition ReadList_with (parserType : Type_) : M P iface :=
  let* header := ReadListBegin proto in
  let '(_, size) := header in
  let* result := ReadList_loop (Type_ValueType parserType) (Z.to_nat size) [] in
  let* _ := ReadListEnd proto in
  ret (VList result).

End ReadWith.

(** [fuel] bounds the nesting of the value read and, in [ReadStruct], the
    number of field headers read. *)
Fixpoint ReadValue (fuel : nat) (parserType : option Type_) : M P iface :=
  match fuel with
  | O => out_of_fuel
  | S fuel' =>
      match parserType with
      | None => throw NilDereference
      | Some ty =>
          let t := LookupType g service (Type_Name ty) in
          if t =? BOOL then let* b := ReadBool proto in ret (VBool b)
          else if t =? BYTE then let* b := ReadByte proto in ret (VByte b)
          else if t =? DOUBLE then let* d := ReadDouble proto in ret (VFloat64 d)
          else if t =? I16 then let* n := ReadI16 proto in ret (VInt Kint16 n)
          else if t =? I32 then let* n := ReadI32 proto in ret (VInt Kint32 n)
          else if t =? I64 then let* n := ReadI64 proto in ret (VInt Kint64 n)
          else if t =? STRING then let* s := ReadString proto in ret (VString s)
          else if t =? STRUCT then ReadStruct_with (ReadValue fuel') fuel' ty
          else if t =? MAP then ReadMap_with (ReadValue fuel') ty
          else if t =? LIST then ReadList_with (ReadValue fuel') ty
          else if t =? STOP then ret VNil
          else fail (ErrUnsupportedType ty)
      end
  end.

Definition ReadStruct (fuel : nat) (parserType : Type_) : M P iface :=
  ReadStruct_with (ReadValue fuel) fuel parserType.
Definition ReadMap (fuel : nat) (parserType : Type_) : M P iface :=
  ReadMap_with (ReadValue fuel) parserType.
Definition ReadList (fuel : nat) (parserType : Type_) : M P iface :=
  ReadList_with (ReadValue fuel) parserType.

(** The type the first field of a response is decoded with.
    [method.Exceptions[index-1]] subtracts in [int16]. *)
Definition response_fieldType (methodName : string) (method : Method)
  (index : Z) : M P (option Type_) :=
  if index =? 0 then ret (Method_ReturnType method)
  else if index <=? Z.of_nat (length (Method_Exceptions method)) then
    let* exception := index_slice (Method_Exceptions method) (wrap 16 (index - 1)) in
    ret (Field_Type exception)
  else fail (ErrIndexNotExists methodName index).

Definition ReadResponse (fuel : nat) (methodName : string) : M P iface :=
  match Service_Methods (Service_parser service) !! methodName with
  | None =>
      fail (ErrMethodNotExists (Service_Name (Service_parser service)) methodName)
  | Some method =>
      let* _ := ReadStructBegin proto in
      let* header := ReadFieldBegin proto in
      let '(_, _, index) := header in
      let* fieldType := response_fieldType methodName method index in
      let* response := ReadValue fuel fieldType in
      let* _ := ReadFieldEnd proto in
      let* _ := ReadFieldBegin proto in
      let* _ := ReadStructEnd proto in
      ret response
  end.

(** *** The write path *)

Section WriteWith.

(** [client.WriteValue], as the functions below call it. *)
Variable WriteValue_rec : option Type_ -> iface -> M P unit.

(** [argument.Type.Name] dereferences the field's type. *)
Definition WriteField_with (argument : Field) (arg : iface) : M P unit :=
  match Field_Type argument with
  | None => throw NilDereference
  | Some argType =>
      let* _ := WriteFieldBegin proto (Field_Name argument)
                  (LookupType g service (Type_Name argType))
                  (wrap 16 (Field_ID argument)) in
      let* _ := WriteValue_rec (Field_Type argument) arg in
      WriteFieldEnd proto
  end.

Definition WriteStruct_with (parserType : Type_) (value : iface) : M P unit :=
  match Service_Structs service !! Type_Name parserType with
  | None => fail (ErrStructNotFound (Type_Name parserType))
  | Some thriftStruct =>
      match value with
      | VMap mapValue =>
          let* _ := WriteStructBegin proto (Struct_Name thriftStruct) in
          let* _ :=
            (fix fields_loop (fields : list Field) : M P unit :=
               match fields with
               | [] => ret tt
               | field :: rest =>
                   let* _ :=
                     with_map_get mapValue (Field_Name field)
                       (fun fieldValue => WriteField_with field fieldValue)
                       (if Field_Optional field then ret tt
                        else fail (ErrFieldRequired (Field_Name field))) in
                   fields_loop rest
               end) (Struct_Fields thriftStruct) in
          let* _ := WriteFieldStop proto in
          WriteStructEnd proto
      | _ => fail (ErrAssertMap value)
      end
  end.

Definition WriteMap_with (parserType : Type_) (value : iface) : M P unit :=
  match value with
  | VMap mapValue =>
      match Type_ValueType parserType with
      | None => throw NilDereference
      | Some valueType =>
          let* _ := WriteMapBegin proto STRING
                      (LookupType g service (Type_Name valueType))
                      (Z.of_nat (length mapValue)) in
          let* _ :=
            (fix entries_loop (m : list (string * iface)) : M P unit :=
               match m with
               | [] => ret tt
               | (k, v) :: rest =>
                   let* _ := WriteString proto k in
                   let* _ := WriteValue_rec (Some valueType) v in
                   entries_loop rest
               end) mapValue in
          WriteMapEnd proto
      end
  | _ => fail (ErrAssertMap value)
  end.

Definition WriteList_with (parserType : Type_) (value : iface) : M P unit :=
  match value with
  | VList listValue =>
      match Type_ValueType parserType with
      | None => throw NilDereference
      | Some valueType =>
          let* _ := WriteListBegin proto
                      (LookupType g service (Type_Name valueType))
                      (Z.of_nat (length listValue)) in
          let* _ :=
            (fix elements_loop (l : list iface) : M P unit :=
               match l with
               | [] => ret tt
               | v :: rest =>
                   let* _ := WriteValue_rec (Some valueType) v in
                   elements_loop rest
               end) listValue in
          WriteListEnd proto
      end
  | _ => fail (ErrAssertList value)
  end.

End WriteWith.

Fixpoint WriteValue (parserType : option Type_) (value : iface) {struct value}
  : M P unit :=
  match parserType with
  | None => throw NilDereference
  | Some ty =>
      let cannot_convert := fail (ErrCannotConvert value (Type_Name ty)) in
      let t := LookupType g service (Type_Name ty) in
      if t =? BOOL then
        match value with
        | VBool boolValue => WriteBool proto boolValue
        | _ => cannot_convert
        end
      else if t =? BYTE then
        match value with
        | VInt Kuint8 byteValue => WriteByte proto byteValue
        | _ => cannot_convert
        end
      else if t =? DOUBLE then
        match Float64 fm value with
        | (doubleValue, true) => WriteDouble proto doubleValue
        | _ => cannot_convert
        end
      else if t =? I16 then
        match Int16 fm value with
        | (i16Value, true) => WriteI16 proto i16Value
        | _ => cannot_convert
        end
      else if t =? I32 then
        match Int32 fm value with
        | (i32Value, true) => WriteI32 proto i32Value
        | _ => cannot_convert
        end
      else if t =? I64 then
        match Int64 fm value with
        | (i64Value, true) => WriteI64 proto i64Value
        | _ => cannot_convert
        end
      else if t =? STRING then
        match value with
        | VString stringValue => WriteString proto stringValue
        | _ => cannot_convert
        end
      else if t =? STRUCT then WriteStruct_with WriteValue ty value
      else if t =? MAP then WriteMap_with WriteValue ty value
      else if t =? LIST then WriteList_with WriteValue ty value
      else fail (ErrUnsupportedType ty)
  end.

Definition WriteField : Field -> iface -> M P unit := WriteField_with WriteValue.
Definition WriteStruct : Type_ -> iface -> M P unit := WriteStruct_with WriteValue.
Definition WriteMap : Type_ -> iface -> M P unit := WriteMap_with WriteValue.
Definition WriteList : Type_ -> iface -> M P unit := WriteList_with WriteValue.

Fixpoint WriteRequest_loop (arguments : list Field) (args : list iface)
  : M P unit :=
  match arguments with
  | [] => ret tt
  | argument :: rest =>
      if Field_ID argument >? Z.of_nat (length args) then
        fail (ErrArgNotExists (Field_ID argument) (Field_Name argument))
      else
        let* arg := index_slice args (Field_ID argument - 1) in
        let* _ := WriteField argument arg in
        WriteRequest_loop rest args
  end.

Definition WriteRequest (methodName : string) (args : list iface) : M P unit :=
  match Service_Methods (Service_parser service) !! methodName with
  | None =>
      fail (ErrMethodNotExists (Service_Name (Service_parser service)) methodName)
  | Some method =>
      let* _ := WriteStructBegin proto
                  (Service_Name (Service_parser service)
                     ++ Method_Name method ++ "Args")%string in
      let* _ := WriteRequest_loop (Method_Arguments method) args in
      let* _ := WriteFieldStop proto in
      WriteStructEnd proto
  end.

End Codec.

(** ** connector/client.go: call framing *)

(** [type Client struct { Transport; InputProtocol; OutputProtocol;
    SeqId int32; Service *Service }]. The two protocol fields are interface
    values: every copy of a [Client] refers to the same two protocol objects,
    whose states make up the [World]. *)
Record Client : Type := mkClient {
  Client_SeqId : Z;
  Client_Service : Service
}.

Record World (P : Type) : Type := mkWorld {
  InputProtocol : P;
  OutputProtocol : P
}.
Arguments mkWorld {P} _ _.
Arguments InputProtocol {P} _.
Arguments OutputProtocol {P} _.

(** The thrift library's [tApplicationException.Read]: a struct with the
    message in field 1 and the exception type in field 2. *)
Section ApplicationException.

Context {P : Type}.
Variable proto : TProtocol P.

Fixpoint TApplicationException_Read_loop (fuel : nat) (message : string)
  (type_ : Z) : M P (string * Z) :=
  match fuel with
  | O => out_of_fuel
  | S fuel' =>
      let* header := ReadFieldBegin proto in
      let '(_, ttype, id) := header in
      if ttype =? STOP then ret (message, type_)
      else
        let* fields :=
          (if (id =? 1) && (ttype =? STRING) then
             let* s := ReadString proto in ret (s, type_)
           else if (id =? 2) && (ttype =? I32) then
             let* n := ReadI32 proto in ret (message, n)
           else
             let* _ := Skip proto ttype in ret (message, type_)) in
        let* _ := ReadFieldEnd proto in
        TApplicationException_Read_loop fuel' (fst fields) (snd fields)
  end.

Definition TApplicationException_Read (fuel : nat) : M P error :=
  let* _ := ReadStructBegin proto in
  let* fields :=
    TApplicationException_Read_loop fuel "" UNKNOWN_APPLICATION_EXCEPTION in
  let* _ := ReadStructEnd proto in
  ret (TApplicationException (snd fields) (fst fields)).

End ApplicationException.

Section Framing.

Context {P : Type}.
Variable proto : TProtocol P.
Variable fm : FloatModel.
Variable g : Globals.

(** [send] and [recv] have pointer receivers: they run on a [Client] struct
    and on the protocol objects it refers to. *)
Definition on_input {A} (m : M P A) : M (Client * World P) A :=
  fun '(client, w) =>
    let '(r, p) := m (InputProtocol w) in
    (r, (client, mkWorld p (OutputProtocol w))).

Definition on_output {A} (m : M P A) : M (Client * World P) A :=
  fun '(client, w) =>
    let '(r, p) := m (OutputProtocol w) in
    (r, (client, mkWorld (InputProtocol w) p)).

Definition get_client : M (Client * World P) Client :=
  fun s => (Ok (fst s), s).

(** [client.SeqId++] on an [int32]. *)
Definition incr_SeqId : M (Client * World P) unit :=
  fun '(client, w) =>
    (Ok tt,
     ({| Client_SeqId := wrap 32 (Client_SeqId client + 1);
         Client_Service := Client_Service client |}, w)).

Definition send (method : string) (args : list iface)
  : M (Client * World P) unit :=
  let* _ := on_output (fun p =>
              if IsOpen proto p then (Ok tt, p) else Open proto p) in
  let* _ := incr_SeqId in
  let* client := get_client in
  let* _ := on_output
              (WriteMessageBegin proto method CALL (Client_SeqId client)) in
  let* _ := on_output
              (WriteRequest proto fm g (Client_Service client) method args) in
  let* _ := on_output (WriteMessageEnd proto) in
  on_output (Flush proto).

Definition recv (fuel : nat) : M (Client * World P) iface :=
  let* _ := on_input (fun p =>
              if IsOpen proto p then (Ok tt, p) else Open proto p) in
  let* header := on_input (ReadMessageBegin proto) in
  let '(methodName, messageTypeId, seqId) := header in
  if messageTypeId =? EXCEPTION then
    let* exception := on_input (TApplicationException_Read proto fuel) in
    let* _ := on_input (ReadMessageEnd proto) in
    fail exception
  else
    let* client := get_client in
    if negb (Client_SeqId client =? seqId) then
      fail (TApplicationException BAD_SEQUENCE_ID "Response out of sequence")
    else
      let* response :=
        on_input (ReadResponse proto g (Client_Service client) fuel methodName) in
      let* _ := on_input (ReadMessageEnd proto) in
      ret response.

(** [func (client Client) Call]: the receiver is a value, so [send] and
    [recv] run on the copy of the struct made for this call; the copy is
    dropped when the call returns. *)
Definition Call (client : Client) (fuel : nat) (method : string)
  (args : list iface) : M (World P) iface :=
  fun w =>
    let '(r, (_, w')) :=
      (let* _ := send method args in recv fuel) (client, w) in
    (r, w').


End Framing.

(** [NewClient]: the session starts with [SeqId: 0]. *)
Definition NewClient (service : Service) : Client :=
  {| Client_SeqId := 0; Client_Service := service |}.

(** ** Package thrift: the binary protocol over an in-memory buffer

    [TBinaryProtocol] as [NewTBinaryProtocolFactoryDefault] builds it (lenient
    read, strict write) on a [TMemoryBuffer]: writes append to the buffer,
    reads consume it from the front. *)

Module binary.

Definition Buffer : Type := list byte.

Definition byte_of_Z (z : Z) : byte :=
  match Byte.of_N (Z.to_N (z mod 256)) with
  | Some b => b
  | None => x00
  end.

Definition Z_of_byte (b : byte) : Z := Z.of_N (Byte.to_N b).

(** Big-endian image of the low [8 * n] bits of [z]. *)
Fixpoint be_encode (n : nat) (z : Z) : list byte :=
  match n with
  | O => []
  | S n' => be_encode n' (z / 256) ++ [byte_of_Z z]
  end.

Definition be_decode (bs : list byte) : Z :=
  fold_left (fun acc b => acc * 256 + Z_of_byte b) bs 0.

Definition EOF : error := TTransportException "EOF".
Definition invalidDataLength : error := TProtocolException INVALID_DATA.

Definition write (bs : list byte) : M Buffer unit :=
  fun buf => (Ok tt, buf ++ bs).

(** [io.ReadFull]: a short buffer is drained and the read fails. *)
Definition read (n : nat) : M Buffer (list byte) :=
  fun buf =>
    if (length buf <? n)%nat then (Err EOF, [])
    else (Ok (firstn n buf), skipn n buf).

Definition nop : M Buffer unit := ret tt.

Definition WriteByte (value : Z) : M Buffer unit := write [byte_of_Z value].
Definition WriteBool (value : bool) : M Buffer unit :=
  WriteByte (if value then 1 else 0).
Definition WriteI16 (value : Z) : M Buffer unit := write (be_encode 2 value).
Definition WriteI32 (value : Z) : M Buffer unit := write (be_encode 4 value).
Definition WriteI64 (value : Z) : M Buffer unit := write (be_encode 8 value).
Definition WriteDouble (value : float64) : M Buffer unit :=
  let 'Float64frombytes b7 b6 b5 b4 b3 b2 b1 b0 := value in
  write [b7; b6; b5; b4; b3; b2; b1; b0].
Definition WriteString (value : string) : M Buffer unit :=
  let* _ := WriteI32 (wrap 32 (Z.of_nat (String.length value))) in
  write (list_byte_of_string value).

Definition ReadByte : M Buffer Z :=
  let* bs := read 1 in ret (be_decode bs).
Definition ReadBool : M Buffer bool :=
  let* b := ReadByte in ret (b =? 1).
Definition ReadI16 : M Buffer Z :=
  let* bs := read 2 in ret (wrap 16 (be_decode bs)).
Definition ReadI32 : M Buffer Z :=
  let* bs := read 4 in ret (wrap 32 (be_decode bs)).
Definition ReadI64 : M Buffer Z :=
  let* bs := read 8 in ret (wrap 64 (be_decode bs)).
Definition ReadDouble : M Buffer float64 :=
  let* bs := read 8 in
  match bs with
  | [b7; b6; b5; b4; b3; b2; b1; b0] =>
      ret (Float64frombytes b7 b6 b5 b4 b3 b2 b1 b0)
  | _ => fail EOF
  end.
Definition ReadString : M Buffer string :=
  let* size := ReadI32 in
  if size <? 0 then fail invalidDataLength
  else let* bs := read (Z.to_nat size) in ret (string_of_list_byte bs).

Definition VERSION_MASK : Z := 0xffff0000.
Definition VERSION_1 : Z := 0x80010000.

Definition WriteMessageBegin (name : string) (typeId : TMessageType)
  (seqId : Z) : M Buffer unit :=
  let* _ := WriteI32 (wrap 32 (Z.lor VERSION_1 typeId)) in
  let* _ := WriteString name in
  WriteI32 seqId.

Definition ReadMessageBegin : M Buffer (string * TMessageType * Z) :=
  let* size := ReadI32 in
  if size <? 0 then
    let typeId := Z.land size 0xff in
    if negb (Z.land size VERSION_MASK =? VERSION_1) then
      fail (TProtocolException BAD_VERSION)
    else
      let* name := ReadString in
      let* seqId := ReadI32 in
      ret (name, typeId, seqId)
  else
    let* bs := read (Z.to_nat size) in
    let* typeId := ReadByte in
    let* seqId := ReadI32 in
    ret (string_of_list_byte bs, typeId, seqId).

Definition WriteFieldBegin (name : string) (typeId : TType) (id : Z)
  : M Buffer unit :=
  let* _ := WriteByte typeId in WriteI16 id.

Definition WriteFieldStop : M Buffer unit := WriteByte STOP.

Definition ReadFieldBegin : M Buffer (string * TType * Z) :=
  let* t := ReadByte in
  if t =? STOP then ret ("", t, 0)
  else let* id := ReadI16 in ret ("", t, id).

Definition WriteMapBegin (keyType valueType : TType) (size : Z)
  : M Buffer unit :=
  let* _ := WriteByte keyType in
  let* _ := WriteByte valueType in
  WriteI32 (wrap 32 size).

Definition ReadMapBegin : M Buffer (TType * TType * Z) :=
  let* k := ReadByte in
  let* v := ReadByte in
  let* size32 := ReadI32 in
  if size32 <? 0 then fail invalidDataLength
  else ret (k, v, size32).

Definition WriteListBegin (elemType : TType) (size : Z) : M Buffer unit :=
  let* _ := WriteByte elemType in
  WriteI32 (wrap 32 size).

Definition ReadListBegin : M Buffer (TType * Z) :=
  let* t := ReadByte in
  let* size32 := ReadI32 in
  if size32 <? 0 then fail invalidDataLength
  else ret (t, size32).

(** [thrift.Skip(self, fieldType, maxDepth)]. *)
Section SkipWith.

Variable Skip_rec : TType -> M Buffer unit.

Fixpoint Skip_struct_loop (fuel : nat) : M Buffer unit :=
  match fuel with
  | O => out_of_fuel
  | S fuel' =>
      let* header := ReadFieldBegin in
      let '(_, typeId, _) := header in
      if typeId =? STOP then ret tt
      else
        let* _ := Skip_rec typeId in
        Skip_struct_loop fuel'
  end.

Fixpoint Skip_map_loop (keyType valueType : TType) (count : nat)
  : M Buffer unit :=
  match count with
  | O => ret tt
  | S count' =>
      let* _ := Skip_rec keyType in
      let* _ := Skip_rec valueType in
      Skip_map_loop keyType valueType count'
  end.

Fixpoint Skip_list_loop (elemType : TType) (count : nat) : M Buffer unit :=
  match count with
  | O => ret tt
  | S count' =>
      let* _ := Skip_rec elemType in
      Skip_list_loop elemType count'
  end.

End SkipWith.

Fixpoint Skip_depth (maxDepth : nat) (fieldType : TType) : M Buffer unit :=
  match maxDepth with
  | O => fail (TProtocolException DEPTH_LIMIT)
  | S depth =>
      if fieldType =? STOP then ret tt
      else if fieldType =? BOOL then let* _ := ReadBool in ret tt
      else if fieldType =? BYTE then let* _ := ReadByte in ret tt
      else if fieldType =? I16 then let* _ := ReadI16 in ret tt
      else if fieldType =? I32 then let* _ := ReadI32 in ret tt
      else if fieldType =? I64 then let* _ := ReadI64 in ret tt
      else if fieldType =? DOUBLE then let* _ := ReadDouble in ret tt
      else if fieldType =? STRING then let* _ := ReadString in ret tt
      else if fieldType =? STRUCT then
        (* every field header read takes at least one byte *)
        fun buf => Skip_struct_loop (Skip_depth depth) (S (length buf)) buf
      else if fieldType =? MAP then
        let* header := ReadMapBegin in
        let '(keyType, valueType, size) := header in
        Skip_map_loop (Skip_depth depth) keyType valueType (Z.to_nat size)
      else if (fieldType =? SET) || (fieldType =? LIST) then
        let* header := ReadListBegin in
        let '(elemType, size) := header in
        Skip_list_loop (Skip_depth depth) elemType (Z.to_nat size)
      else ret tt
  end.

Definition Skip (fieldType : TType) : M Buffer unit :=
  Skip_depth DEFAULT_RECURSION_DEPTH fieldType.

Definition protocol : TProtocol Buffer :=
  mkProtocol Buffer
    WriteMessageBegin
    nop                       (* WriteMessageEnd *)
    (fun _ => nop)            (* WriteStructBegin *)
    nop                       (* WriteStructEnd *)
    WriteFieldBegin
    nop                       (* WriteFieldEnd *)
    WriteFieldStop
    WriteMapBegin
    nop                       (* WriteMapEnd *)
    WriteListBegin
    nop                       (* WriteListEnd *)
    WriteBool WriteByte WriteI16 WriteI32 WriteI64 WriteDouble WriteString
    ReadMessageBegin
    nop                       (* ReadMessageEnd *)
    (ret ""%string)           (* ReadStructBegin *)
    nop                       (* ReadStructEnd *)
    ReadFieldBegin
    nop                       (* ReadFieldEnd *)
    ReadMapBegin
    nop                       (* ReadMapEnd *)
    ReadListBegin
    nop                       (* ReadListEnd *)
    ReadBool ReadByte ReadI16 ReadI32 ReadI64 ReadDouble ReadString
    Skip
    nop                       (* Flush *)
    (fun _ => true)           (* Transport().IsOpen() *)
    nop.                      (* Transport().Open() *)

End binary.

(** * Vocabulary of the properties and sample data *)

(** The table that the typedef loop of [NewService] starts from. *)
Definition types_before_typedefs (parsedThrift : Thrift) (g : Globals)
  : gmap string TType :=
  range_insert (fun _ => STRUCT) (Thrift_Exceptions parsedThrift)
    (range_insert (fun _ => STRUCT) (Thrift_Structs parsedThrift)
       (range_insert (fun _ => I32) (Thrift_Enums parsedThrift)
          (defultTypeNameMap g))).


(** ** A sample schema

<<
    typedef i64 MyId
    enum Color { ... }
    struct Person { 1: string name, 2: optional i32 age }
    exception NotFound { 1: string why }
    service People {
      Person getPerson(1: MyId id) throws (1: NotFound nf)
      i32 count()
    }
>> *)

Module Sample.

Definition ty (n : string) : option Type_ := Some (mkType n None None).

Definition Person : Struct :=
  {| Struct_Name := "Person";
     Struct_Fields := [ mkField 1 "name" false (ty "string");
                        mkField 2 "age" true (ty "i32") ] |}.

Definition NotFound : Struct :=
  {| Struct_Name := "NotFound";
     Struct_Fields := [ mkField 1 "why" false (ty "string") ] |}.

Definition getPerson : Method :=
  {| Method_Name := "getPerson";
     Method_ReturnType := ty "Person";
     Method_Arguments := [ mkField 1 "id" false (ty "MyId") ];
     Method_Exceptions := [ mkField 1 "nf" false (ty "NotFound") ] |}.

Definition count : Method :=
  {| Method_Name := "count";
     Method_ReturnType := ty "i32";
     Method_Arguments := [];
     Method_Exceptions := [] |}.

Definition People : parser.Service :=
  {| Service_Name := "People";
     Service_Methods := {[ "getPerson"%string := getPerson;
                           "count"%string := count ]} |}.

Definition schema : Thrift :=
  {| Thrift_Typedefs := [("MyId"%string, mkType "i64" None None)];
     Thrift_Enums := [("Color"%string, mkEnum "Color")];
     Thrift_Structs := [("Person"%string, Person)];
     Thrift_Exceptions := [("NotFound"%string, NotFound)];
     Thrift_Services := [("People"%string, People)] |}.

(** The same schema with a typedef of a name that nothing defines. *)
Definition broken_schema : Thrift :=
  {| Thrift_Typedefs := [("MyId"%string, mkType "i64" None None);
                         ("Handle"%string, mkType "Missing" None None)];
     Thrift_Enums := Thrift_Enums schema;
     Thrift_Structs := Thrift_Structs schema;
     Thrift_Exceptions := Thrift_Exceptions schema;
     Thrift_Services := Thrift_Services schema |}.

(** A schema without any type of its own. *)
Definition Ping : parser.Service :=
  {| Service_Name := "Ping"; Service_Methods := ∅ |}.

Definition bare_schema : Thrift :=
  {| Thrift_Typedefs := []; Thrift_Enums := []; Thrift_Structs := [];
     Thrift_Exceptions := []; Thrift_Services := [("Ping"%string, Ping)] |}.

Definition service : Service :=
  {| Service_parser := People;
     Service_Structs := {[ "NotFound"%string := NotFound;
                           "Person"%string := Person ]};
     Service_Types := ref_defultTypeNameMap |}.

(** The package state once [NewService schema "People"] has run. *)
Definition globals : Globals :=
  snd (NewService schema "People" Globals_initial).

(** A float model for evaluating the examples; none of them converts a
    float. *)
Definition floats : FloatModel :=
  {| float64_of_float32 := fun _ => zero_float64;
     int_of_float64 := fun _ _ => 0;
     float64_of_int := fun _ => zero_float64;
     ParseFloat := fun _ => None |}.

End Sample.

(** The dynamic types that [Int16], [Int32] and [Int64] convert: every integer
    kind, the two float kinds, and a string that [strconv.ParseInt] accepts. *)
Definition int_coercible (value : iface) : Prop :=
  match value with
  | VInt _ _ | VFloat32 _ | VFloat64 _ => True
  | VString s => ParseInt s <> None
  | _ => False
  end.

(** The same for [Float64], with [strconv.ParseFloat] for strings. *)
Definition float_coercible (fm : FloatModel) (value : iface) : Prop :=
  match value with
  | VInt _ _ | VFloat32 _ | VFloat64 _ => True
  | VString s => ParseFloat fm s <> None
  | _ => False
  end.

(** Replies of a server of the sample schema, as the bytes the binary protocol
    puts on the wire. *)
Module Reply.

(** A reply to [getPerson] whose response struct carries the declared
    exception [NotFound] in field 1. *)
Definition declared_exception : binary.Buffer :=
  snd ((let* _ := binary.WriteMessageBegin "getPerson" REPLY 1 in
        let* _ := binary.WriteFieldBegin "nf" STRUCT 1 in
        let* _ := binary.WriteFieldBegin "why" STRING 1 in
        let* _ := binary.WriteString "no such person" in
        let* _ := binary.WriteFieldStop in
        binary.WriteFieldStop) []).

(** A response struct for [count] with a second field after the result. *)
Definition two_fields : binary.Buffer :=
  snd ((let* _ := binary.WriteFieldBegin "success" I32 0 in
        let* _ := binary.WriteI32 7 in
        let* _ := binary.WriteFieldBegin "more" I32 5 in
        let* _ := binary.WriteI32 9 in
        binary.WriteFieldStop) []).

(** A response struct whose first field header carries the index -32768. *)
Definition index_min_int16 : binary.Buffer :=
  snd (binary.WriteFieldBegin "" I32 (-32768) []).

(** A [Person] with an undeclared field 9, a string whose length prefix is
    negative, followed by the stop marker. *)
Definition bad_unknown_field : binary.Buffer :=
  snd ((let* _ := binary.WriteFieldBegin "" STRING 9 in
        let* _ := binary.WriteI32 (-1) in
        binary.WriteFieldStop) []).

(** An EXCEPTION message with sequence id 99. *)
Definition application_exception : binary.Buffer :=
  snd ((let* _ := binary.WriteMessageBegin "getPerson" EXCEPTION 99 in
        let* _ := binary.WriteFieldBegin "message" STRING 1 in
        let* _ := binary.WriteString "boom" in
        let* _ := binary.WriteFieldBegin "type" I32 2 in
        let* _ := binary.WriteI32 6 in
        binary.WriteFieldStop) []).

(** A well-formed reply to [count]. *)
Definition count_reply (seqId result : Z) : binary.Buffer :=
  snd ((let* _ := binary.WriteMessageBegin "count" REPLY seqId in
        let* _ := binary.WriteFieldBegin "success" I32 0 in
        let* _ := binary.WriteI32 result in
        binary.WriteFieldStop) []).

End Reply.

Module Request.

(** The request that [Call] writes for [count] under sequence id [seqId]. *)
Definition count (seqId : Z) : binary.Buffer :=
  snd ((let* _ := binary.WriteMessageBegin "count" CALL seqId in
        binary.WriteFieldStop) []).

End Request.

(** The client struct after [client.SeqId++]. *)
Definition bump (client : Client) : Client :=
  {| Client_SeqId := wrap 32 (Client_SeqId client + 1);
     Client_Service := Client_Service client |}.

(** Induction on generic values, with the hypothesis for every component of a
    list and of a mapping. *)
Fixpoint iface_ind' (Q : iface -> Prop)
  (HNil : Q VNil) (HBool : forall b, Q (VBool b))
  (HInt : forall k n, Q (VInt k n))
  (HFloat32 : forall f, Q (VFloat32 f)) (HFloat64 : forall f, Q (VFloat64 f))
  (HString : forall s, Q (VString s))
  (HList : forall l, Forall Q l -> Q (VList l))
  (HMap : forall m, Forall (fun kv => Q (snd kv)) m -> Q (VMap m))
  (v : iface) {struct v} : Q v :=
  let rec := iface_ind' Q HNil HBool HInt HFloat32 HFloat64 HString HList HMap in
  match v with
  | VNil => HNil
  | VBool b => HBool b
  | VInt k n => HInt k n
  | VFloat32 f => HFloat32 f
  | VFloat64 f => HFloat64 f
  | VString s => HString s
  | VList l =>
      HList l
        ((fix all (l : list iface) : Forall Q l :=
            match l return Forall Q l with
            | [] => @List.Forall_nil _ Q
            | x :: l' => @List.Forall_cons _ Q x l' (rec x) (all l')
            end) l)
  | VMap m =>
      HMap m
        ((fix all (m : list (string * iface)) : Forall (fun kv => Q (snd kv)) m :=
            match m return Forall (fun kv => Q (snd kv)) m with
            | [] => @List.Forall_nil _ _
            | kv :: m' => @List.Forall_cons _ _ kv m' (rec (snd kv)) (all m')
            end) m)
  end.

(** A struct descriptor that the wire format can carry: field IDs are
    [int16]s, and no two fields share an ID or a name. *)
Definition struct_ok (thriftStruct : Struct) : Prop :=
  Forall (fun field => in_int 16 (Field_ID field)) (Struct_Fields thriftStruct)
  /\ NoDup (map Field_ID (Struct_Fields thriftStruct))
  /\ NoDup (map Field_Name (Struct_Fields thriftStruct)).

(** A length that the wire format can carry in its [int32] prefix. *)
Definition wire_length (n : nat) : Prop := Z.of_nat n < 2 ^ 31.

Section RoundTrip.

Variable fm : FloatModel.
Variable g : Globals.
Variable service : Service.

(** [has_type T v]: the value [v] is schema-valid for the type reference [T].
    - BOOL, BYTE, STRING: a value of that dynamic type;
    - I16, I32, I64, DOUBLE: a value that the coercion accepts;
    - STRUCT: the name is a registered struct, the descriptor is [struct_ok],
      the value is a mapping, and every declared field is present with a
      schema-valid value, or absent and optional;
    - MAP, LIST: the value type is given, the value is a mapping (with distinct
      keys) or a sequence, and every component is schema-valid.
    Lengths fit the wire format. *)
Fixpoint has_type (parserType : option Type_) (v : iface) {struct v} : Prop :=
  match parserType with
  | None => False
  | Some ty =>
      let t := LookupType g service (Type_Name ty) in
      if t =? BOOL then
        match v with VBool _ => True | _ => False end
      else if t =? BYTE then
        match v with VInt Kuint8 n => 0 <= n < 256 | _ => False end
      else if t =? DOUBLE then snd (Float64 fm v) = true
      else if t =? I16 then snd (Int16 fm v) = true
      else if t =? I32 then snd (Int32 fm v) = true
      else if t =? I64 then snd (Int64 fm v) = true
      else if t =? STRING then
        match v with VString s => wire_length (String.length s) | _ => False end
      else if t =? STRUCT then
        match Service_Structs service !! Type_Name ty, v with
        | Some thriftStruct, VMap m =>
            struct_ok thriftStruct
            /\ (fix fields_ok (fields : list Field) : Prop :=
                  match fields with
                  | [] => True
                  | field :: rest =>
                      with_map_get m (Field_Name field)
                        (fun fieldValue => has_type (Field_Type field) fieldValue)
                        (Field_Optional field = true)
                      /\ fields_ok rest
                  end) (Struct_Fields thriftStruct)
        | _, _ => False
        end
      else if t =? MAP then
        match Type_ValueType ty, v with
        | Some valueType, VMap m =>
            NoDup (map fst m) /\ wire_length (length m)
            /\ (fix entries_ok (m : list (string * iface)) : Prop :=
                  match m with
                  | [] => True
                  | (k, x) :: rest =>
                      wire_length (String.length k)
                      /\ has_type (Some valueType) x /\ entries_ok rest
                  end) m
        | _, _ => False
        end
      else if t =? LIST then
        match Type_ValueType ty, v with
        | Some valueType, VList l =>
            wire_length (length l)
            /\ (fix elements_ok (l : list iface) : Prop :=
                  match l with
                  | [] => True
                  | x :: rest => has_type (Some valueType) x /\ elements_ok rest
                  end) l
        | _, _ => False
        end
      else False
  end.

(** [normalize T v]: the value [v] as the wire format of [T] keeps it.
    Numbers take the wire width of [T]; of a struct value only the declared
    fields are kept, in declaration order; the components of mappings and
    sequences are normalized. *)
Fixpoint normalize (parserType : option Type_) (v : iface) {struct v} : iface :=
  match parserType with
  | None => VNil
  | Some ty =>
      let t := LookupType g service (Type_Name ty) in
      if t =? BOOL then v
      else if t =? BYTE then v
      else if t =? DOUBLE then VFloat64 (fst (Float64 fm v))
      else if t =? I16 then VInt Kint16 (fst (Int16 fm v))
      else if t =? I32 then VInt Kint32 (fst (Int32 fm v))
      else if t =? I64 then VInt Kint64 (fst (Int64 fm v))
      else if t =? STRING then v
      else if t =? STRUCT then
        match Service_Structs service !! Type_Name ty, v with
        | Some thriftStruct, VMap m =>
            VMap
              ((fix fields_norm (fields : list Field) : list (string * iface) :=
                  match fields with
                  | [] => []
                  | field :: rest =>
                      with_map_get m (Field_Name field)
                        (fun fieldValue =>
                           [(Field_Name field,
                             normalize (Field_Type field) fieldValue)])
                        []
                      ++ fields_norm rest
                  end) (Struct_Fields thriftStruct))
        | _, _ => VNil
        end
      else if t =? MAP then
        match Type_ValueType ty, v with
        | Some valueType, VMap m =>
            VMap
              ((fix entries_norm (m : list (string * iface)) : list (string * iface) :=
                  match m with
                  | [] => []
                  | (k, x) :: rest =>
                      (k, normalize (Some valueType) x) :: entries_norm rest
                  end) m)
        | _, _ => VNil
        end
      else if t =? LIST then
        match Type_ValueType ty, v with
        | Some valueType, VList l =>
            VList
              ((fix elements_norm (l : list iface) : list iface :=
                  match l with
                  | [] => []
                  | x :: rest => normalize (Some valueType) x :: elements_norm rest
                  end) l)
        | _, _ => VNil
        end
      else VNil
  end.

End RoundTrip.

(** [writes m bytes]: [m] succeeds and appends [bytes]. *)
Definition writes (m : M binary.Buffer unit) (bytes : list byte) : Prop :=
  forall out, m out = (Ok tt, out ++ bytes).

(** [reads m bytes a]: [m] consumes [bytes] from the front and returns [a]. *)
Definition reads {A : Type} (m : M binary.Buffer A) (bytes : list byte) (a : A)
  : Prop :=
  forall rest, m (bytes ++ rest) = (Ok a, rest).

Definition string_bytes (s : string) : list byte :=
  binary.be_encode 4 (Z.of_nat (String.length s)) ++ list_byte_of_string s.

(** The tags a value can be written under, and the range of [TType]. *)
Definition wire_tag (t : TType) : Prop := 0 < t < 256.
Definition byte_tag (t : TType) : Prop := 0 <= t < 256.

Definition field_header (t : TType) (id : Z) : list byte :=
  [binary.byte_of_Z t] ++ binary.be_encode 2 id.

Definition list_header (t : TType) (n : nat) : list byte :=
  [binary.byte_of_Z t] ++ binary.be_encode 4 (Z.of_nat n).

Definition map_header (k v : TType) (n : nat) : list byte :=
  [binary.byte_of_Z k] ++ [binary.byte_of_Z v] ++ binary.be_encode 4 (Z.of_nat n).

Section Loops.

Variable fm : FloatModel.
Variable g : Globals.
Variable service : Service.

Definition fields_ok (m : list (string * iface)) : list Field -> Prop :=
  fix fields_ok (fields : list Field) : Prop :=
    match fields with
    | [] => True
    | field :: rest =>
        with_map_get m (Field_Name field)
          (fun fieldValue => has_type fm g service (Field_Type field) fieldValue)
          (Field_Optional field = true)
        /\ fields_ok rest
    end.

Definition fields_norm (m : list (string * iface))
  : list Field -> list (string * iface) :=
  fix fields_norm (fields : list Field) : list (string * iface) :=
    match fields with
    | [] => []
    | field :: rest =>
        with_map_get m (Field_Name field)
          (fun fieldValue =>
             [(Field_Name field, normalize fm g service (Field_Type field) fieldValue)])
          []
        ++ fields_norm rest
    end.

Definition write_fields (m : list (string * iface))
  : list Field -> M binary.Buffer unit :=
  fix fields_loop (fields : list Field) : M binary.Buffer unit :=
    match fields with
    | [] => ret tt
    | field :: rest =>
        let* _ :=
          with_map_get m (Field_Name field)
            (fun fieldValue =>
               WriteField binary.protocol fm g service field fieldValue)
            (if Field_Optional field then ret tt
             else fail (ErrFieldRequired (Field_Name field))) in
        fields_loop rest
    end.

Definition entries_ok (valueType : Type_) : list (string * iface) -> Prop :=
  fix entries_ok (m : list (string * iface)) : Prop :=
    match m with
    | [] => True
    | (k, x) :: rest =>
        wire_length (String.length k)
        /\ has_type fm g service (Some valueType) x /\ entries_ok rest
    end.

Definition entries_norm (valueType : Type_)
  : list (string * iface) -> list (string * iface) :=
  fix entries_norm (m : list (string * iface)) : list (string * iface) :=
    match m with
    | [] => []
    | (k, x) :: rest =>
        (k, normalize fm g service (Some valueType) x) :: entries_norm rest
    end.

Definition write_entries (valueType : Type_)
  : list (string * iface) -> M binary.Buffer unit :=
  fix entries_loop (m : list (string * iface)) : M binary.Buffer unit :=
    match m with
    | [] => ret tt
    | (k, v) :: rest =>
        let* _ := binary.WriteString k in
        let* _ := WriteValue binary.protocol fm g service (Some valueType) v in
        entries_loop rest
    end.

Definition elements_ok (valueType : Type_) : list iface -> Prop :=
  fix elements_ok (l : list iface) : Prop :=
    match l with
    | [] => True
    | x :: rest => has_type fm g service (Some valueType) x /\ elements_ok rest
    end.

Definition elements_norm (valueType : Type_) : list iface -> list iface :=
  fix elements_norm (l : list iface) : list iface :=
    match l with
    | [] => []
    | x :: rest => normalize fm g service (Some valueType) x :: elements_norm rest
    end.

Definition write_elements (valueType : Type_) : list iface -> M binary.Buffer unit :=
  fix elements_loop (l : list iface) : M binary.Buffer unit :=
    match l with
    | [] => ret tt
    | v :: rest =>
        let* _ := WriteValue binary.protocol fm g service (Some valueType) v in
        elements_loop rest
    end.

(** [round_trips T v]: writing [v] under [T] succeeds and appends some bytes,
    and with enough fuel reading under [T] consumes exactly those bytes and
    returns the normalized value. *)
Definition round_trips (parserType : option Type_) (v : iface) : Prop :=
  exists (bytes : list byte) (fuel0 : nat),
    writes (WriteValue binary.protocol fm g service parserType v) bytes
    /\ forall fuel : nat,
         (fuel0 <= fuel)%nat ->
         reads (ReadValue binary.protocol g service fuel parserType) bytes
           (normalize fm g service parserType v).

(** The induction hypothesis on a component of a sequence or a mapping. *)
Definition component_round_trips (x : iface) : Prop :=
  forall parserType : option Type_,
    has_type fm g service parserType x -> round_trips parserType x.

End Loops.

(** [TType] is a byte: every tag in the registry is one. *)
Definition registry_ok (g : Globals) : Prop :=
  forall (n : string) (t : TType), defultTypeNameMap g !! n = Some t -> byte_tag t.

(** A value for [Person] of the sample schema: the age is given as a string,
    and there is a key that [Person] does not declare. *)
Definition sample_person : iface :=
  VMap [("age"%string, VString "42"); ("name"%string, VString "bob");
        ("extra"%string, VBool true)].

(** ** Further sample data *)

Module Chain.

(** [typedef i64 A; typedef A B], with [range] visiting [A] first, and the same
    with [B] first. *)
Definition a_first : Thrift :=
  {| Thrift_Typedefs := [("A"%string, mkType "i64" None None);
                         ("B"%string, mkType "A" None None)];
     Thrift_Enums := []; Thrift_Structs := []; Thrift_Exceptions := [];
     Thrift_Services := [("Ping"%string, Sample.Ping)] |}.

Definition b_first : Thrift :=
  {| Thrift_Typedefs := [("B"%string, mkType "A" None None);
                         ("A"%string, mkType "i64" None None)];
     Thrift_Enums := []; Thrift_Structs := []; Thrift_Exceptions := [];
     Thrift_Services := [("Ping"%string, Sample.Ping)] |}.

End Chain.

(** The loop [for _, field := range thriftStruct.Fields] of [WriteStruct],
    over any protocol. *)
Definition WriteStruct_fields {P : Type} (proto : TProtocol P) (fm : FloatModel)
  (g : Globals) (service : Service) (mapValue : list (string * iface))
  : list Field -> M P unit :=
  fix fields_loop (fields : list Field) : M P unit :=
    match fields with
    | [] => ret tt
    | field :: rest =>
        let* _ :=
          with_map_get mapValue (Field_Name field)
            (fun fieldValue => WriteField proto fm g service field fieldValue)
            (if Field_Optional field then ret tt
             else fail (ErrFieldRequired (Field_Name field))) in
        fields_loop rest
    end.

(** The positional arguments of a call as the mapping from argument names that
    a struct value for the request would be: [args[argument.ID-1]] under
    [argument.Name]. *)
Fixpoint request_mapping (arguments : list Field) (args : list iface)
  : list (string * iface) :=
  match arguments with
  | [] => []
  | argument :: rest =>
      match nth_error args (Z.to_nat (Field_ID argument - 1)) with
      | Some arg => (Field_Name argument, arg) :: request_mapping rest args
      | None => request_mapping rest args
      end
  end.

Module Sample2.

(** The sample service with the request struct of [getPerson] registered as a
    struct of its own. *)
Definition getPersonArgs : Struct :=
  {| Struct_Name := "PeoplegetPersonArgs";
     Struct_Fields := Method_Arguments Sample.getPerson |}.

Definition service : Service :=
  {| Service_parser := Sample.People;
     Service_Structs := <["getPersonArgs"%string := getPersonArgs]>
                          (Service_Structs Sample.service);
     Service_Types := ref_defultTypeNameMap |}.

End Sample2.

Module Void.

(** A service with a method that returns nothing: [void notify()]; the
    method's [ReturnType] is a nil pointer. *)
Definition notify : Method :=
  {| Method_Name := "notify";
     Method_ReturnType := None;
     Method_Arguments := [];
     Method_Exceptions := [] |}.

Definition Notifier : parser.Service :=
  {| Service_Name := "Notifier";
     Service_Methods := {[ "notify"%string := notify ]} |}.

Definition service : Service :=
  {| Service_parser := Notifier;
     Service_Structs := ∅;
     Service_Types := ref_defultTypeNameMap |}.

End Void.

(** ** What a server puts on the wire *)

(** The header of a message in the strict binary encoding. *)
Definition message_header (name : string) (typeId : TMessageType) (seqId : Z)
  : list byte :=
  binary.be_encode 4 (wrap 32 (Z.lor binary.VERSION_1 typeId))
  ++ string_bytes name ++ binary.be_encode 4 seqId.

(** A REPLY whose response struct carries the result [v] of type [ty] in field
    0, the result being written as the connector writes a value of that type. *)
Definition success_reply (fm : FloatModel) (g : Globals) (service : Service)
  (name : string) (seqId : Z) (ty : Type_) (v : iface) : M binary.Buffer unit :=
  let* _ := binary.WriteMessageBegin name REPLY seqId in
  let* _ := binary.WriteFieldBegin "success"
              (LookupType g service (Type_Name ty)) 0 in
  let* _ := WriteValue binary.protocol fm g service (Some ty) v in
  binary.WriteFieldStop.

(** An EXCEPTION message, as the thrift library writes an application
    exception: the message in field 1, the type in field 2. *)
Definition exception_reply (name : string) (seqId : Z) (message : string)
  (type_ : Z) : M binary.Buffer unit :=
  let* _ := binary.WriteMessageBegin name EXCEPTION seqId in
  let* _ := binary.WriteFieldBegin "message" STRING 1 in
  let* _ := binary.WriteString message in
  let* _ := binary.WriteFieldBegin "type" I32 2 in
  let* _ := binary.WriteI32 type_ in
  binary.WriteFieldStop.

(** ** Integer coercions *)

(** The integer that a value denotes for [Int16], [Int32] and [Int64]: an
    integer of any kind, or a string that [strconv.ParseInt] accepts. *)
Definition integer_of (value : iface) : option Z :=
  match value with
  | VInt _ n => Some n
  | VString s => ParseInt s
  | _ => None
  end.

(** [wraps_to w z r]: the conversion result [r] reports success and holds [z]
    reduced to [w] bits: in range, congruent to [z] modulo [2 ^ w], and equal
    to [z] exactly when [z] fits. *)
Definition wraps_to (w z : Z) (r : Z * bool) : Prop :=
  snd r = true
  /\ in_int w (fst r)
  /\ (fst r - z) mod 2 ^ w = 0
  /\ (fst r = z <-> in_int w z).

(** ** Depth of nesting *)

(** How deep the components of a value nest, a scalar counting for one: the
    recursion depth that [thrift.Skip] needs to pass over the value. *)
Fixpoint nesting (v : iface) : nat :=
  match v with
  | VList l =>
      S ((fix elements_nesting (l : list iface) : nat :=
            match l with
            | [] => 0%nat
            | x :: rest => Nat.max (nesting x) (elements_nesting rest)
            end) l)
  | VMap m =>
      S ((fix entries_nesting (m : list (string * iface)) : nat :=
            match m with
            | [] => 0%nat
            | (_, x) :: rest => Nat.max (nesting x) (entries_nesting rest)
            end) m)
  | _ => 1%nat
  end.

Definition elements_nesting : list iface -> nat :=
  fix elements_nesting (l : list iface) : nat :=
    match l with
    | [] => 0%nat
    | x :: rest => Nat.max (nesting x) (elements_nesting rest)
    end.

Definition entries_nesting : list (string * iface) -> nat :=
  fix entries_nesting (m : list (string * iface)) : nat :=
    match m with
    | [] => 0%nat
    | (_, x) :: rest => Nat.max (nesting x) (entries_nesting rest)
    end.

(** [skipped_as_written g service T v]: the bytes that [WriteValue T v]
    appends are passed over by [thrift.Skip] under the tag of [T], at any
    recursion depth from the nesting of [v] on. *)
Definition skipped_as_written (fm : FloatModel) (g : Globals) (service : Service)
  (ty : Type_) (v : iface) : Prop :=
  exists bytes : list byte,
    writes (WriteValue binary.protocol fm g service (Some ty) v) bytes
    /\ forall d : nat,
         (nesting v <= d)%nat ->
         reads (binary.Skip_depth d (LookupType g service (Type_Name ty)))
           bytes tt.

Module Evolution.

(** The sample schema with a second struct, [Contact], that declares the first
    field of [Person] only: what a reader built before [age] was added
    knows. *)
Definition Contact : Struct :=
  {| Struct_Name := "Contact";
     Struct_Fields := [ mkField 1 "name" false (Sample.ty "string") ] |}.

(** And a third, [Account], that declares a required field more than
    [Person]: what a reader built after [email] was added knows. *)
Definition Account : Struct :=
  {| Struct_Name := "Account";
     Struct_Fields := [ mkField 1 "name" false (Sample.ty "string");
                        mkField 2 "age" true (Sample.ty "i32");
                        mkField 3 "email" false (Sample.ty "string") ] |}.

Definition schema : Thrift :=
  {| Thrift_Typedefs := Thrift_Typedefs Sample.schema;
     Thrift_Enums := Thrift_Enums Sample.schema;
     Thrift_Structs := [("Person"%string, Sample.Person);
                        ("Contact"%string, Contact);
                        ("Account"%string, Account)];
     Thrift_Exceptions := Thrift_Exceptions Sample.schema;
     Thrift_Services := Thrift_Services Sample.schema |}.

Definition service : Service :=
  {| Service_parser := Sample.People;
     Service_Structs := {[ "NotFound"%string := Sample.NotFound;
                           "Person"%string := Sample.Person;
                           "Contact"%string := Contact;
                           "Account"%string := Account ]};
     Service_Types := ref_defultTypeNameMap |}.

Definition globals : Globals :=
  snd (NewService schema "People" Globals_initial).

End Evolution.

(** ** The wire image of a value *)

Section WireImage.

Variable fm : FloatModel.
Variable g : Globals.
Variable service : Service.

(** [encode T v]: the bytes of [v] under the type reference [T] in the Thrift
    binary encoding, as the protocol's specification lays them out. Integers
    are big-endian, a string is its length in four bytes and its bytes, a
    struct is its fields in declaration order, each with a header of tag and
    ID, and a stop byte, a map or list is a header of tags and size and the
    entries; a map key is a string. Numbers are coerced as [WriteValue]
    coerces them. *)
Fixpoint encode (parserType : option Type_) (v : iface) {struct v} : list byte :=
  match parserType with
  | None => []
  | Some ty =>
      let t := LookupType g service (Type_Name ty) in
      if t =? BOOL then
        match v with
        | VBool b => [binary.byte_of_Z (if b then 1 else 0)]
        | _ => []
        end
      else if t =? BYTE then
        match v with VInt _ n => [binary.byte_of_Z n] | _ => [] end
      else if t =? DOUBLE then
        let 'Float64frombytes b7 b6 b5 b4 b3 b2 b1 b0 := fst (Float64 fm v) in
        [b7; b6; b5; b4; b3; b2; b1; b0]
      else if t =? I16 then binary.be_encode 2 (fst (Int16 fm v))
      else if t =? I32 then binary.be_encode 4 (fst (Int32 fm v))
      else if t =? I64 then binary.be_encode 8 (fst (Int64 fm v))
      else if t =? STRING then
        match v with VString s => string_bytes s | _ => [] end
      else if t =? STRUCT then
        match Service_Structs service !! Type_Name ty, v with
        | Some thriftStruct, VMap m =>
            (fix fields_encode (fields : list Field) : list byte :=
               match fields with
               | [] => []
               | field :: rest =>
                   with_map_get m (Field_Name field)
                     (fun fieldValue =>
                        match Field_Type field with
                        | Some fieldType =>
                            field_header
                              (LookupType g service (Type_Name fieldType))
                              (Field_ID field)
                        | None => []
                        end ++ encode (Field_Type field) fieldValue)
                     []
                   ++ fields_encode rest
               end) (Struct_Fields thriftStruct)
            ++ [x00]
        | _, _ => []
        end
      else if t =? MAP then
        match Type_ValueType ty, v with
        | Some valueType, VMap m =>
            map_header STRING (LookupType g service (Type_Name valueType))
              (length m)
            ++ (fix entries_encode (m : list (string * iface)) : list byte :=
                  match m with
                  | [] => []
                  | (k, x) :: rest =>
                      string_bytes k ++ encode (Some valueType) x
                      ++ entries_encode rest
                  end) m
        | _, _ => []
        end
      else if t =? LIST then
        match Type_ValueType ty, v with
        | Some valueType, VList l =>
            list_header (LookupType g service (Type_Name valueType)) (length l)
            ++ (fix elements_encode (l : list iface) : list byte :=
                  match l with
                  | [] => []
                  | x :: rest => encode (Some valueType) x ++ elements_encode rest
                  end) l
        | _, _ => []
        end
      else []
  end.

Definition fields_encode (m : list (string * iface)) : list Field -> list byte :=
  fix fields_encode (fields : list Field) : list byte :=
    match fields with
    | [] => []
    | field :: rest =>
        with_map_get m (Field_Name field)
          (fun fieldValue =>
             match Field_Type field with
             | Some fieldType =>
                 field_header (LookupType g service (Type_Name fieldType))
                   (Field_ID field)
             | None => []
             end ++ encode (Field_Type field) fieldValue)
          []
        ++ fields_encode rest
    end.

Definition entries_encode (valueType : Type_)
  : list (string * iface) -> list byte :=
  fix entries_encode (m : list (string * iface)) : list byte :=
    match m with
    | [] => []
    | (k, x) :: rest =>
        string_bytes k ++ encode (Some valueType) x ++ entries_encode rest
    end.

Definition elements_encode (valueType : Type_) : list iface -> list byte :=
  fix elements_encode (l : list iface) : list byte :=
    match l with
    | [] => []
    | x :: rest => encode (Some valueType) x ++ elements_encode rest
    end.

End WireImage.

(** ** The wire image of a request *)

Section RequestImage.

Variable fm : FloatModel.
Variable g : Globals.
Variable service : Service.

(** [arguments_ok arguments args]: every declared argument has an ID that
    fits the wire and points into [args], at a value that is schema-valid for
    the argument's type. *)
Definition arguments_ok (arguments : list Field) (args : list iface) : Prop :=
  Forall (fun argument =>
            1 <= Field_ID argument /\ in_int 16 (Field_ID argument)
            /\ exists arg : iface,
                 nth_error args (Z.to_nat (Field_ID argument - 1)) = Some arg
                 /\ has_type fm g service (Field_Type argument) arg)
    arguments.

(** The fields of the request struct: for each declared argument, in
    declaration order, the header with its tag and ID and the encoding of
    [args[ID-1]]. *)
Fixpoint arguments_encode (arguments : list Field) (args : list iface)
  : list byte :=
  match arguments with
  | [] => []
  | argument :: rest =>
      match Field_Type argument,
            nth_error args (Z.to_nat (Field_ID argument - 1)) with
      | Some argType, Some arg =>
          field_header (LookupType g service (Type_Name argType))
            (Field_ID argument)
          ++ encode fm g service (Some argType) arg
      | _, _ => []
      end ++ arguments_encode rest args
  end.

(** A CALL message: the strict header, the arguments, the stop byte. *)
Definition request_encode (method : string) (seqId : Z)
  (arguments : list Field) (args : list iface) : list byte :=
  message_header method CALL seqId ++ arguments_encode arguments args ++ [x00].

End RequestImage.

(** ** Struct payloads on the wire *)

(** A field of a struct payload as the reader meets it: the wire type tag and
    the index of its header, with either a value for the field that the
    descriptor declares under that index, or the bytes of the payload of a
    field that the descriptor does not declare. *)
Inductive wire_field : Type :=
| Declared (tag : TType) (field : Field) (value : iface)
| Undeclared (tag : TType) (index : Z) (payload : list byte).

Definition is_declared (wf : wire_field) : bool :=
  match wf with
  | Declared _ _ _ => true
  | Undeclared _ _ _ => false
  end.

Section StructPayload.

Variable fm : FloatModel.
Variable g : Globals.
Variable service : Service.

Definition wire_field_bytes (wf : wire_field) : list byte :=
  match wf with
  | Declared tag field value =>
      field_header tag (Field_ID field)
      ++ encode fm g service (Field_Type field) value
  | Undeclared tag index payload => field_header tag index ++ payload
  end.

(** The bytes of a struct payload: its fields, then the stop byte. *)
Fixpoint struct_payload (wfs : list wire_field) : list byte :=
  match wfs with
  | [] => [x00]
  | wf :: rest => wire_field_bytes wf ++ struct_payload rest
  end.

(** A field of a well-formed payload for the declared [fields]. Its header
    carries a tag other than STOP and an [int16] index. When the index is a
    declared ID, [field] is the field that the reader's search finds for it,
    and the value is schema-valid for the field's type. When no declared ID is
    the index, the payload is one value of the wire type of the header: what
    [thrift.Skip] passes over under that tag. *)
Definition wire_field_ok (fields : list Field) (wf : wire_field) : Prop :=
  match wf with
  | Declared tag field value =>
      wire_tag tag
      /\ in_int 16 (Field_ID field)
      /\ find_field (Field_ID field) fields = Some field
      /\ has_type fm g service (Field_Type field) value
  | Undeclared tag index payload =>
      wire_tag tag
      /\ in_int 16 index
      /\ find_field index fields = None
      /\ reads (binary.Skip tag) payload tt
  end.

(** The mapping that the fields of a payload decode to, in wire order:
    [result[field.Name] = value] for a declared field, nothing for any
    other. *)
Fixpoint decoded_fields (wfs : list wire_field)
  (result : list (string * iface)) : list (string * iface) :=
  match wfs with
  | [] => result
  | Declared _ field value :: rest =>
      decoded_fields rest
        (map_set (Field_Name field)
           (normalize fm g service (Field_Type field) value) result)
  | Undeclared _ _ _ :: rest => decoded_fields rest result
  end.

End StructPayload.

(** * Properties *)

(** ** The type registry *)

Lemma range_insert_lookup_notin {A B : Type} (f : A -> B)
  (m : list (string * A)) (dst : gmap string B) (k : string) :
  ~ In k (map fst m) -> range_insert f m dst !! k = dst !! k.
Proof.
  unfold range_insert. revert dst.
  induction m as [|[k' x] m IH]; intros dst Hk; simpl in *; [reflexivity|].
  rewrite IH by tauto.
  apply lookup_insert_ne. intros ->. tauto.
Qed.

Lemma typedefs_loop_lookup_notin (typedefs : list (string * Type_)) :
  forall (types types' : gmap string TType) (k : string),
    typedefs_loop typedefs types = (types', None) ->
    ~ In k (map fst typedefs) ->
    types' !! k = types !! k.
Proof.
  induction typedefs as [|[name thriftType] rest IH]; intros types types' k H Hk;
    simpl in *.
  - congruence.
  - destruct (types !! Type_Name thriftType) as [t|] eqn:Ht; [|congruence].
    rewrite (IH _ _ _ H) by tauto.
    apply lookup_insert_ne. intros ->. tauto.
Qed.



Lemma NewService_typedefs (parsedThrift : Thrift) (name : string)
  (g g' : Globals) (service : Service) :
  NewService parsedThrift name g = (Ok service, g') ->
  typedefs_loop (Thrift_Typedefs parsedThrift)
    (types_before_typedefs parsedThrift g) = (defultTypeNameMap g', None)
  /\ Service_Types service = ref_defultTypeNameMap.
Proof.
  unfold NewService, types_before_typedefs.
  destruct (assoc name (Thrift_Services parsedThrift)); [|discriminate].
  destruct (typedefs_loop _ _) as [types [e|]]; [discriminate|].
  intros H. inversion H; subst. simpl. auto.
Qed.


Lemma NewService_Sample_schema :
  NewService Sample.schema "People" Globals_initial
  = (Ok Sample.service, Sample.globals).
Proof. vm_compute. reflexivity. Qed.


(** C9. The registry of a constructed [Service] is the package-level map
    itself: constructing a second [Service] from a schema that declares the
    enum [Color] changes what the first one answers for ["Color"]. *)
Theorem NewService_mutates_earlier_registry :
  exists (first second : Service) (g1 g2 : Globals),
    NewService Sample.bare_schema "Ping" Globals_initial = (Ok first, g1)
    /\ LookupType g1 first "Color" = STOP
    /\ NewService Sample.schema "People" g1 = (Ok second, g2)
    /\ LookupType g2 first "Color" = I32.
Proof.
  eexists _, _, _, _.
  split; [vm_compute; reflexivity|].
  split; [vm_compute; reflexivity|].
  split; vm_compute; reflexivity.
Qed.

(** ** Numeric coercion on the write path *)

Section WriteValueCases.

Context {P : Type}.
Variable proto : TProtocol P.
Variable fm : FloatModel.
Variable g : Globals.
Variable service : Service.

Lemma WriteValue_BYTE (ty : Type_) (value : iface) :
  LookupType g service (Type_Name ty) = BYTE ->
  WriteValue proto fm g service (Some ty) value
  = match value with
    | VInt Kuint8 byteValue => WriteByte proto byteValue
    | _ => fail (ErrCannotConvert value (Type_Name ty))
    end.
Proof. intros H. destruct value; simpl; rewrite H; reflexivity. Qed.

Lemma WriteValue_BOOL (ty : Type_) (value : iface) :
  LookupType g service (Type_Name ty) = BOOL ->
  WriteValue proto fm g service (Some ty) value
  = match value with
    | VBool boolValue => WriteBool proto boolValue
    | _ => fail (ErrCannotConvert value (Type_Name ty))
    end.
Proof. intros H. destruct value; simpl; rewrite H; reflexivity. Qed.

Lemma WriteValue_STRING (ty : Type_) (value : iface) :
  LookupType g service (Type_Name ty) = STRING ->
  WriteValue proto fm g service (Some ty) value
  = match value with
    | VString stringValue => WriteString proto stringValue
    | _ => fail (ErrCannotConvert value (Type_Name ty))
    end.
Proof. intros H. destruct value; simpl; rewrite H; reflexivity. Qed.

Lemma WriteValue_I16 (ty : Type_) (value : iface) :
  LookupType g service (Type_Name ty) = I16 ->
  WriteValue proto fm g service (Some ty) value
  = match Int16 fm value with
    | (i16Value, true) => WriteI16 proto i16Value
    | _ => fail (ErrCannotConvert value (Type_Name ty))
    end.
Proof. intros H. destruct value; simpl; rewrite H; reflexivity. Qed.

Lemma WriteValue_I32 (ty : Type_) (value : iface) :
  LookupType g service (Type_Name ty) = I32 ->
  WriteValue proto fm g service (Some ty) value
  = match Int32 fm value with
    | (i32Value, true) => WriteI32 proto i32Value
    | _ => fail (ErrCannotConvert value (Type_Name ty))
    end.
Proof. intros H. destruct value; simpl; rewrite H; reflexivity. Qed.

Lemma WriteValue_I64 (ty : Type_) (value : iface) :
  LookupType g service (Type_Name ty) = I64 ->
  WriteValue proto fm g service (Some ty) value
  = match Int64 fm value with
    | (i64Value, true) => WriteI64 proto i64Value
    | _ => fail (ErrCannotConvert value (Type_Name ty))
    end.
Proof. intros H. destruct value; simpl; rewrite H; reflexivity. Qed.

Lemma WriteValue_DOUBLE (ty : Type_) (value : iface) :
  LookupType g service (Type_Name ty) = DOUBLE ->
  WriteValue proto fm g service (Some ty) value
  = match Float64 fm value with
    | (doubleValue, true) => WriteDouble proto doubleValue
    | _ => fail (ErrCannotConvert value (Type_Name ty))
    end.
Proof. intros H. destruct value; simpl; rewrite H; reflexivity. Qed.

Lemma WriteValue_STRUCT (ty : Type_) (value : iface) :
  LookupType g service (Type_Name ty) = STRUCT ->
  WriteValue proto fm g service (Some ty) value
  = WriteStruct proto fm g service ty value.
Proof. intros H. destruct value; simpl; rewrite H; reflexivity. Qed.

Lemma WriteValue_MAP (ty : Type_) (value : iface) :
  LookupType g service (Type_Name ty) = MAP ->
  WriteValue proto fm g service (Some ty) value
  = WriteMap proto fm g service ty value.
Proof. intros H. destruct value; simpl; rewrite H; reflexivity. Qed.

Lemma WriteValue_LIST (ty : Type_) (value : iface) :
  LookupType g service (Type_Name ty) = LIST ->
  WriteValue proto fm g service (Some ty) value
  = WriteList proto fm g service ty value.
Proof. intros H. destruct value; simpl; rewrite H; reflexivity. Qed.

End WriteValueCases.

Lemma IntW_coercible (fm : FloatModel) (w : Z) (value : iface) :
  int_coercible value -> snd (IntW fm w value) = true.
Proof.
  destruct value; simpl; try tauto.
  destruct (ParseInt s); [reflexivity|congruence].
Qed.

Lemma Float64_coercible (fm : FloatModel) (value : iface) :
  float_coercible fm value -> snd (Float64 fm value) = true.
Proof.
  destruct value; simpl; try tauto.
  destruct (ParseFloat fm s); [reflexivity|congruence].
Qed.

(** C8, the claim as stated fails: an [int32], a string holding a base-10
    number and a [float64] written into a byte-typed position are all refused
    with the cannot-convert error, and nothing is written. *)
Lemma WriteValue_BYTE_refuses_coercion :
  let write := WriteValue binary.protocol Sample.floats Sample.globals
                 Sample.service (Sample.ty "byte") in
  write (VInt Kint32 42) [] = (Err (ErrCannotConvert (VInt Kint32 42) "byte"), [])
  /\ write (VString "42") [] = (Err (ErrCannotConvert (VString "42") "byte"), [])
  /\ write (VFloat64 zero_float64) []
     = (Err (ErrCannotConvert (VFloat64 zero_float64) "byte"), []).
Proof. repeat split; vm_compute; reflexivity. Qed.

(** C8, amended. A byte-typed position takes a value of dynamic type [byte]
    and nothing else: no coercion is applied. For the tags I16, I32, I64 any
    integer, any float and any string that parses as a base-10 integer is
    converted with [Int16], [Int32], [Int64] and handed to the protocol; a
    string that does not parse is refused. For DOUBLE the conversion is
    [Float64]. *)
Theorem WriteValue_numeric_coercion {P : Type} (proto : TProtocol P)
  (fm : FloatModel) (g : Globals) (service : Service) (ty : Type_)
  (value : iface) :
  (LookupType g service (Type_Name ty) = BYTE ->
     WriteValue proto fm g service (Some ty) value
     = match value with
       | VInt Kuint8 byteValue => WriteByte proto byteValue
       | _ => fail (ErrCannotConvert value (Type_Name ty))
       end)
  /\ (int_coercible value ->
        (LookupType g service (Type_Name ty) = I16 ->
           WriteValue proto fm g service (Some ty) value
           = WriteI16 proto (fst (Int16 fm value)))
        /\ (LookupType g service (Type_Name ty) = I32 ->
              WriteValue proto fm g service (Some ty) value
              = WriteI32 proto (fst (Int32 fm value)))
        /\ (LookupType g service (Type_Name ty) = I64 ->
              WriteValue proto fm g service (Some ty) value
              = WriteI64 proto (fst (Int64 fm value))))
  /\ (float_coercible fm value ->
        LookupType g service (Type_Name ty) = DOUBLE ->
        WriteValue proto fm g service (Some ty) value
        = WriteDouble proto (fst (Float64 fm value)))
  /\ (forall s : string,
        value = VString s -> ParseInt s = None ->
        In (LookupType g service (Type_Name ty)) [I16; I32; I64] ->
        WriteValue proto fm g service (Some ty) value
        = fail (ErrCannotConvert value (Type_Name ty))).
Proof.
  split; [apply WriteValue_BYTE|].
  split; [|split].
  - intros Hc. repeat split; intros Ht.
    + rewrite (WriteValue_I16 _ _ _ _ _ _ Ht). unfold Int16.
      pose proof (IntW_coercible fm 16 value Hc) as Hok.
      destruct (IntW fm 16 value) as [x ok]; simpl in *; subst ok; reflexivity.
    + rewrite (WriteValue_I32 _ _ _ _ _ _ Ht). unfold Int32.
      pose proof (IntW_coercible fm 32 value Hc) as Hok.
      destruct (IntW fm 32 value) as [x ok]; simpl in *; subst ok; reflexivity.
    + rewrite (WriteValue_I64 _ _ _ _ _ _ Ht). unfold Int64.
      pose proof (IntW_coercible fm 64 value Hc) as Hok.
      destruct (IntW fm 64 value) as [x ok]; simpl in *; subst ok; reflexivity.
  - intros Hc Ht. rewrite (WriteValue_DOUBLE _ _ _ _ _ _ Ht).
    pose proof (Float64_coercible fm value Hc) as Hok.
    destruct (Float64 fm value) as [x ok]; simpl in *; subst ok; reflexivity.
  - intros s -> Hparse Hin. simpl in Hin.
    destruct Hin as [Ht|[Ht|[Ht|[]]]]; symmetry in Ht.
    + rewrite (WriteValue_I16 _ _ _ _ _ _ Ht). simpl. rewrite Hparse. reflexivity.
    + rewrite (WriteValue_I32 _ _ _ _ _ _ Ht). simpl. rewrite Hparse. reflexivity.
    + rewrite (WriteValue_I64 _ _ _ _ _ _ Ht). simpl. rewrite Hparse. reflexivity.
Qed.

(** Witness of [WriteValue_numeric_coercion]: the string ["42"] written into
    an i32-typed position of the sample schema. *)
Lemma WriteValue_numeric_coercion_witness :
  WriteValue binary.protocol Sample.floats Sample.globals Sample.service
    (Sample.ty "i32") (VString "42")
  = binary.WriteI32 42.
Proof.
  destruct (WriteValue_numeric_coercion binary.protocol Sample.floats
              Sample.globals Sample.service (mkType "i32" None None)
              (VString "42")) as (_ & Hint & _).
  destruct Hint as (_ & H32 & _).
  - simpl. vm_compute. discriminate.
  - apply H32. vm_compute. reflexivity.
Defined.

(** ** Fixed-width arithmetic *)

Lemma wrap_small (w z : Z) : 0 < w -> in_int w z -> wrap w z = z.
Proof.
  intros Hw [Hlo Hhi]. unfold wrap.
  assert (Hpow : 2 ^ w = 2 * 2 ^ (w - 1)).
  { replace w with (Z.succ (w - 1)) at 1 by lia. apply Z.pow_succ_r. lia. }
  rewrite Z.mod_small; lia.
Qed.

Lemma wrap_in_int (w z : Z) : 0 < w -> in_int w (wrap w z).
Proof.
  intros Hw. unfold wrap, in_int.
  assert (Hpow : 2 ^ w = 2 * 2 ^ (w - 1)).
  { replace w with (Z.succ (w - 1)) at 1 by lia. apply Z.pow_succ_r. lia. }
  assert (0 < 2 ^ (w - 1)) by (apply Z.pow_pos_nonneg; lia).
  pose proof (Z.mod_pos_bound (z + 2 ^ (w - 1)) (2 ^ w)). lia.
Qed.

(** ** The response struct *)

Section ResponseFacts.

Context {P : Type}.
Variable proto : TProtocol P.
Variable g : Globals.
Variable service : Service.

Lemma index_slice_in_range {A : Type} (l : list A) (i : Z) (x : A) (p : P) :
  0 <= i -> nth_error l (Z.to_nat i) = Some x -> index_slice l i p = (Ok x, p).
Proof.
  intros Hi Hnth. unfold index_slice.
  assert (Hlt : (Z.to_nat i < length l)%nat)
    by (apply nth_error_Some; congruence).
  replace ((0 <=? i) && (i <? Z.of_nat (length l))) with true
    by (symmetry; apply andb_true_intro; split; [apply Z.leb_le|apply Z.ltb_lt]; lia).
  rewrite Hnth. reflexivity.
Qed.

Lemma index_slice_negative {A : Type} (l : list A) (i : Z) (p : P) :
  i < 0 -> index_slice l i p = (Panic (IndexOutOfRange i (Z.of_nat (length l))), p).
Proof.
  intros Hi. unfold index_slice.
  replace (0 <=? i) with false by (symmetry; apply Z.leb_gt; lia).
  reflexivity.
Qed.

Lemma index_slice_beyond {A : Type} (l : list A) (i : Z) (p : P) :
  Z.of_nat (length l) <= i ->
  index_slice l i p = (Panic (IndexOutOfRange i (Z.of_nat (length l))), p).
Proof.
  intros Hi. unfold index_slice.
  replace (i <? Z.of_nat (length l)) with false by (symmetry; apply Z.ltb_ge; lia).
  rewrite andb_false_r. reflexivity.
Qed.

(** [ReadResponse] up to the choice of the field type. *)
Lemma ReadResponse_header (fuel : nat) (methodName : string) (method : Method)
  (p p1 p2 : P) (structName name : string) (ttype : TType) (index : Z) :
  Service_Methods (Service_parser service) !! methodName = Some method ->
  ReadStructBegin proto p = (Ok structName, p1) ->
  ReadFieldBegin proto p1 = (Ok (name, ttype, index), p2) ->
  ReadResponse proto g service fuel methodName p
  = (let* fieldType := response_fieldType methodName method index in
     let* response := ReadValue proto g service fuel fieldType in
     let* _ := ReadFieldEnd proto in
     let* _ := ReadFieldBegin proto in
     let* _ := ReadStructEnd proto in
     ret response) p2.
Proof.
  intros Hm Hsb Hfb. unfold ReadResponse. rewrite Hm.
  unfold bind at 1. rewrite Hsb. unfold bind at 1. rewrite Hfb. reflexivity.
Qed.

(** [ReadResponse] after the first field has been decoded. *)
Lemma ReadResponse_decoded (fuel : nat) (methodName : string) (method : Method)
  (p p1 p2 p3 p4 p5 p6 : P) (structName name : string) (ttype : TType)
  (index : Z) (fieldType : option Type_) (response : iface)
  (next : string * TType * Z) :
  Service_Methods (Service_parser service) !! methodName = Some method ->
  ReadStructBegin proto p = (Ok structName, p1) ->
  ReadFieldBegin proto p1 = (Ok (name, ttype, index), p2) ->
  response_fieldType methodName method index p2 = (Ok fieldType, p2) ->
  ReadValue proto g service fuel fieldType p2 = (Ok response, p3) ->
  ReadFieldEnd proto p3 = (Ok tt, p4) ->
  ReadFieldBegin proto p4 = (Ok next, p5) ->
  ReadStructEnd proto p5 = (Ok tt, p6) ->
  ReadResponse proto g service fuel methodName p = (Ok response, p6).
Proof.
  intros Hm Hsb Hfb Hft Hrv Hfe Hfb2 Hse.
  rewrite (ReadResponse_header fuel _ _ _ _ _ _ _ _ _ Hm Hsb Hfb).
  unfold bind. rewrite Hft, Hrv, Hfe, Hfb2, Hse. reflexivity.
Qed.

Lemma response_fieldType_return (methodName : string) (method : Method) (p : P) :
  response_fieldType methodName method 0 p = (Ok (Method_ReturnType method), p).
Proof. reflexivity. Qed.

Lemma response_fieldType_exception (methodName : string) (method : Method)
  (index : Z) (exception : Field) (p : P) :
  1 <= index <= 32767 ->
  nth_error (Method_Exceptions method) (Z.to_nat (index - 1)) = Some exception ->
  response_fieldType methodName method index p = (Ok (Field_Type exception), p).
Proof.
  intros Hi Hnth. unfold response_fieldType.
  replace (index =? 0) with false by (symmetry; apply Z.eqb_neq; lia).
  assert (Hlt : (Z.to_nat (index - 1) < length (Method_Exceptions method))%nat)
    by (apply nth_error_Some; congruence).
  replace (index <=? Z.of_nat (length (Method_Exceptions method))) with true
    by (symmetry; apply Z.leb_le; lia).
  rewrite wrap_small by (unfold in_int; simpl; lia).
  unfold bind. rewrite (index_slice_in_range _ _ exception) by (assumption || lia).
  reflexivity.
Qed.

End ResponseFacts.

(** C3, the claim as stated fails: the reply carries the declared exception
    [NotFound] in field 1 of the response struct, and [Call] returns the decoded
    mapping as its value, with no error. *)
Lemma Call_returns_declared_exception_as_value :
  fst (Call binary.protocol Sample.floats Sample.globals
         (NewClient Sample.service) 8 "getPerson" [VInt Kint64 7]
         (mkWorld Reply.declared_exception []))
  = Ok (VMap [("why"%string, VString "no such person")]).
Proof. vm_compute. reflexivity. Qed.

(** C3, amended. When the first field index of the response struct lies in
    [1..N], the payload is decoded with the type of the exception at position
    [index - 1] of the method's exception list, and [ReadResponse] returns the
    decoded value as its value, without an error; index 0 is decoded with the
    method's return type and returned the same way. *)
Theorem ReadResponse_declared_exception_is_value {P : Type}
  (proto : TProtocol P) (g : Globals) (service : Service) (fuel : nat)
  (methodName : string) (method : Method) (p p1 p2 p3 p4 p5 p6 : P)
  (structName name : string) (ttype : TType) (index : Z)
  (response : iface) (next : string * TType * Z) :
  Service_Methods (Service_parser service) !! methodName = Some method ->
  ReadStructBegin proto p = (Ok structName, p1) ->
  ReadFieldBegin proto p1 = (Ok (name, ttype, index), p2) ->
  ReadFieldEnd proto p3 = (Ok tt, p4) ->
  ReadFieldBegin proto p4 = (Ok next, p5) ->
  ReadStructEnd proto p5 = (Ok tt, p6) ->
  (forall exception : Field,
      1 <= index <= Z.of_nat (length (Method_Exceptions method)) ->
      index <= 32767 ->
      nth_error (Method_Exceptions method) (Z.to_nat (index - 1)) = Some exception ->
      ReadValue proto g service fuel (Field_Type exception) p2 = (Ok response, p3) ->
      ReadResponse proto g service fuel methodName p = (Ok response, p6))
  /\ (index = 0 ->
      ReadValue proto g service fuel (Method_ReturnType method) p2 = (Ok response, p3) ->
      ReadResponse proto g service fuel methodName p = (Ok response, p6)).
Proof.
  intros Hm Hsb Hfb Hfe Hfb2 Hse. split.
  - intros exception Hrange Hmax Hnth Hrv.
    apply (ReadResponse_decoded proto g service fuel methodName method
             p p1 p2 p3 p4 p5 p6 structName name ttype index
             (Field_Type exception) response next); try assumption.
    apply response_fieldType_exception; [lia|assumption].
  - intros -> Hrv.
    apply (ReadResponse_decoded proto g service fuel methodName method
             p p1 p2 p3 p4 p5 p6 structName name ttype 0
             (Method_ReturnType method) response next); try assumption.
    reflexivity.
Qed.

(** Witness of [ReadResponse_declared_exception_is_value]: the response struct
    of the reply above. *)
Lemma ReadResponse_declared_exception_is_value_witness :
  ReadResponse binary.protocol Sample.globals Sample.service 8 "getPerson"
    (skipn 21 Reply.declared_exception)
  = (Ok (VMap [("why"%string, VString "no such person")]), []).
Proof.
  refine (proj1 (ReadResponse_declared_exception_is_value binary.protocol
              Sample.globals Sample.service 8 "getPerson" Sample.getPerson
              (skipn 21 Reply.declared_exception)
              (skipn 21 Reply.declared_exception)
              (skipn 24 Reply.declared_exception)
              [x00] [x00] [] [] ""%string ""%string STRUCT 1
              (VMap [("why"%string, VString "no such person")])
              (""%string, STOP, 0) _ _ _ _ _ _)
            (mkField 1 "nf" false (Sample.ty "NotFound")) _ _ _ _);
    first [ vm_compute; reflexivity | simpl; lia ].
Defined.

(** C10, the claim as stated fails at the index -32768: [index-1] is computed
    in [int16] and wraps to 32767, so the position at which
    [method.Exceptions] is accessed is not negative. (The access is still out
    of bounds here, [getPerson] declaring one exception.) *)
Lemma ReadResponse_index_min_int16 :
  binary.ReadFieldBegin Reply.index_min_int16 = (Ok (""%string, I32, -32768), [])
  /\ ReadResponse binary.protocol Sample.globals Sample.service 8 "getPerson"
       Reply.index_min_int16
     = (Panic (IndexOutOfRange 32767 1), [])
  /\ ~ 32767 < 0.
Proof. split; [|split]; [vm_compute; reflexivity ..|lia]. Qed.

(** C10, amended. For a first field header with a negative index other than
    -32768, [ReadResponse] accesses [method.Exceptions] at the negative
    position [index - 1] and panics instead of returning an error. For the
    index -32768 the subtraction wraps and the position is 32767: a panic
    unless the method declares more than 32767 exceptions. The
    index-not-exists error is produced exactly when the index is greater than
    the number of declared exceptions. *)
Theorem ReadResponse_negative_index {P : Type}
  (proto : TProtocol P) (g : Globals) (service : Service) (fuel : nat)
  (methodName : string) (method : Method) (p p1 p2 : P)
  (structName name : string) (ttype : TType) (index : Z) :
  Service_Methods (Service_parser service) !! methodName = Some method ->
  ReadStructBegin proto p = (Ok structName, p1) ->
  ReadFieldBegin proto p1 = (Ok (name, ttype, index), p2) ->
  in_int 16 index ->
  let N := Z.of_nat (length (Method_Exceptions method)) in
  (-32768 < index < 0 ->
     ReadResponse proto g service fuel methodName p
     = (Panic (IndexOutOfRange (index - 1) N), p2))
  /\ (index = -32768 -> N <= 32767 ->
      ReadResponse proto g service fuel methodName p
      = (Panic (IndexOutOfRange 32767 N), p2))
  /\ (response_fieldType methodName method index p2
      = (Err (ErrIndexNotExists methodName index), p2)
      <-> N < index).
Proof.
  intros Hm Hsb Hfb Hrange N.
  pose proof (ReadResponse_header proto g service fuel methodName method
                p p1 p2 structName name ttype index Hm Hsb Hfb) as Hhead.
  split; [|split].
  - intros Hneg. rewrite Hhead. unfold bind at 1. unfold response_fieldType.
    replace (index =? 0) with false by (symmetry; apply Z.eqb_neq; lia).
    replace (index <=? Z.of_nat (length (Method_Exceptions method))) with true
      by (symmetry; apply Z.leb_le; lia).
    rewrite wrap_small by (unfold in_int; simpl; lia).
    unfold bind. rewrite index_slice_negative by lia. reflexivity.
  - intros -> HN. rewrite Hhead. unfold bind at 1. unfold response_fieldType.
    replace (-32768 <=? Z.of_nat (length (Method_Exceptions method))) with true
      by (symmetry; apply Z.leb_le; lia).
    change (wrap 16 (-32768 - 1)) with 32767.
    unfold bind. change (-32768 =? 0) with false. cbv beta iota.
    rewrite index_slice_beyond by (fold N; lia). reflexivity.
  - unfold response_fieldType.
    destruct (index =? 0) eqn:H0.
    + apply Z.eqb_eq in H0. split; [discriminate|]. unfold N. lia.
    + destruct (index <=? Z.of_nat (length (Method_Exceptions method))) eqn:Hle.
      * apply Z.leb_le in Hle. split; [|fold N in Hle; lia].
        unfold bind, index_slice.
        destruct ((0 <=? wrap 16 (index - 1))
                  && (wrap 16 (index - 1) <? Z.of_nat (length (Method_Exceptions method))));
          [destruct (nth_error _ _)|]; discriminate.
      * apply Z.leb_gt in Hle. split; [intros _; exact Hle|reflexivity].
Qed.

(** Witness of [ReadResponse_negative_index]: a first field header with the
    index -1 in a reply to [getPerson]. *)
Lemma ReadResponse_negative_index_witness :
  ReadResponse binary.protocol Sample.globals Sample.service 8 "getPerson"
    [x08; xff; xff]
  = (Panic (IndexOutOfRange (-2) 1), []).
Proof.
  refine (proj1 (ReadResponse_negative_index binary.protocol Sample.globals
                   Sample.service 8 "getPerson" Sample.getPerson
                   [x08; xff; xff] [x08; xff; xff] [] ""%string ""%string
                   I32 (-1) _ _ _ _) _);
    first [ vm_compute; reflexivity | unfold in_int; simpl; lia | lia ].
Defined.

(** ** The binary protocol: what is written is what is read *)

Section BinaryFacts.

Import binary.

Lemma Z_of_byte_range (b : byte) : 0 <= Z_of_byte b < 256.
Proof.
  unfold Z_of_byte. pose proof (Byte.to_N_bounded b). lia.
Qed.

Lemma Z_of_byte_of_Z (z : Z) : Z_of_byte (byte_of_Z z) = z mod 256.
Proof.
  unfold Z_of_byte, byte_of_Z.
  pose proof (Z.mod_pos_bound z 256 ltac:(lia)) as Hb.
  destruct (Byte.of_N (Z.to_N (z mod 256))) as [b|] eqn:Hof.
  - apply Byte.to_of_N in Hof. rewrite Hof. lia.
  - apply Byte.of_N_None_iff in Hof. lia.
Qed.

Lemma byte_of_Z_of_byte (b : byte) : byte_of_Z (Z_of_byte b) = b.
Proof.
  unfold byte_of_Z. rewrite Z.mod_small by apply Z_of_byte_range.
  unfold Z_of_byte. rewrite N2Z.id, Byte.of_to_N. reflexivity.
Qed.

Lemma be_decode_snoc (bs : list byte) (b : byte) :
  be_decode (bs ++ [b]) = be_decode bs * 256 + Z_of_byte b.
Proof. unfold be_decode. rewrite fold_left_app. reflexivity. Qed.

Lemma length_be_encode (n : nat) (z : Z) : length (be_encode n z) = n.
Proof.
  revert z. induction n as [|n IH]; intros z; simpl; [reflexivity|].
  rewrite length_app, IH. simpl. lia.
Qed.

Lemma be_decode_encode (n : nat) (z : Z) :
  be_decode (be_encode n z) = z mod 256 ^ Z.of_nat n.
Proof.
  revert z. induction n as [|n IH]; intros z.
  - simpl. rewrite Z.mod_1_r. reflexivity.
  - cbn [be_encode]. rewrite be_decode_snoc, IH, Z_of_byte_of_Z.
    rewrite Nat2Z.inj_succ, Z.pow_succ_r by lia.
    rewrite Z.rem_mul_r by (try apply Z.pow_pos_nonneg; lia). lia.
Qed.

(** Reading back a fixed-width integer. *)
Lemma wrap_be_decode_encode (n : nat) (z : Z) :
  (0 < n)%nat -> in_int (8 * Z.of_nat n) z ->
  wrap (8 * Z.of_nat n) (be_decode (be_encode n z)) = z.
Proof.
  intros Hn Hz. rewrite be_decode_encode.
  replace (256 ^ Z.of_nat n) with (2 ^ (8 * Z.of_nat n))
    by (rewrite Z.pow_mul_r by lia; reflexivity).
  unfold wrap. rewrite Zplus_mod_idemp_l.
  fold (wrap (8 * Z.of_nat n) z). apply wrap_small; [lia|assumption].
Qed.

Lemma read_app (bs rest : Buffer) :
  read (length bs) (bs ++ rest) = (Ok bs, rest).
Proof.
  unfold read. rewrite length_app.
  replace (length bs + length rest <? length bs)%nat with false
    by (symmetry; apply Nat.ltb_ge; lia).
  rewrite take_app_length, drop_app_length. reflexivity.
Qed.

Lemma read_be_encode (n : nat) (z : Z) (rest : Buffer) :
  read n (be_encode n z ++ rest) = (Ok (be_encode n z), rest).
Proof.
  rewrite <- (length_be_encode n z) at 1. apply read_app.
Qed.

Lemma ReadByte_written (z : Z) (rest : Buffer) :
  0 <= z < 256 -> ReadByte (byte_of_Z z :: rest) = (Ok z, rest).
Proof.
  intros Hz. unfold ReadByte, bind.
  change (byte_of_Z z :: rest) with ([byte_of_Z z] ++ rest).
  rewrite (read_app [byte_of_Z z]). unfold ret, be_decode. simpl.
  rewrite Z_of_byte_of_Z, Z.mod_small by lia. reflexivity.
Qed.

Lemma ReadByte_cons (b : byte) (rest : Buffer) :
  ReadByte (b :: rest) = (Ok (Z_of_byte b), rest).
Proof.
  rewrite <- (byte_of_Z_of_byte b) at 1.
  apply ReadByte_written, Z_of_byte_range.
Qed.

Lemma ReadI16_written (z : Z) (rest : Buffer) :
  in_int 16 z -> ReadI16 (be_encode 2 z ++ rest) = (Ok z, rest).
Proof.
  intros Hz. unfold ReadI16, bind. rewrite read_be_encode. unfold ret.
  rewrite (wrap_be_decode_encode 2) by (assumption || lia). reflexivity.
Qed.

Lemma ReadI32_written (z : Z) (rest : Buffer) :
  in_int 32 z -> ReadI32 (be_encode 4 z ++ rest) = (Ok z, rest).
Proof.
  intros Hz. unfold ReadI32, bind. rewrite read_be_encode. unfold ret.
  rewrite (wrap_be_decode_encode 4) by (assumption || lia). reflexivity.
Qed.

Lemma ReadI64_written (z : Z) (rest : Buffer) :
  in_int 64 z -> ReadI64 (be_encode 8 z ++ rest) = (Ok z, rest).
Proof.
  intros Hz. unfold ReadI64, bind. rewrite read_be_encode. unfold ret.
  rewrite (wrap_be_decode_encode 8) by (assumption || lia). reflexivity.
Qed.

Lemma ReadI16_three (i1 i2 : byte) (rest : Buffer) :
  ReadI16 (i1 :: i2 :: rest) = (Ok (wrap 16 (be_decode [i1; i2])), rest).
Proof. reflexivity. Qed.

Lemma ReadFieldBegin_stop (rest : Buffer) :
  ReadFieldBegin (x00 :: rest) = (Ok (""%string, STOP, 0), rest).
Proof. reflexivity. Qed.

Lemma Z_of_byte_zero (b : byte) : Z_of_byte b = 0 -> b = x00.
Proof.
  intros H. rewrite <- (byte_of_Z_of_byte b), H. reflexivity.
Qed.

Lemma ReadFieldBegin_field (t i1 i2 : byte) (rest : Buffer) :
  t <> x00 ->
  ReadFieldBegin (t :: i1 :: i2 :: rest)
  = (Ok (""%string, Z_of_byte t, wrap 16 (be_decode [i1; i2])), rest).
Proof.
  intros Ht. unfold ReadFieldBegin, bind. rewrite ReadByte_cons.
  destruct (Z_of_byte t =? STOP) eqn:H0.
  - apply Z.eqb_eq in H0. apply Z_of_byte_zero in H0. contradiction.
  - rewrite ReadI16_three. reflexivity.
Qed.

End BinaryFacts.

(** C7, the claim as stated fails: the response struct holds the result in
    field 0, then a field 5, then the stop marker. [ReadResponse] returns
    leaving the payload of field 5 and the stop marker unread. *)
Lemma ReadResponse_stops_before_stop_marker :
  exists unread : binary.Buffer,
    ReadResponse binary.protocol Sample.globals Sample.service 8 "count"
      Reply.two_fields
    = (Ok (VInt Kint32 7), unread)
    /\ unread = [x00; x00; x00; x09; x00]
    /\ unread <> [].
Proof.
  eexists. split; [vm_compute; reflexivity|]. split; [reflexivity|discriminate].
Qed.

(** C7, amended. After decoding the single field, [ReadResponse] reads exactly
    one more field header, discards it without looking at it, and closes the
    struct frame. Over the binary protocol: one byte is consumed when the next
    byte is the stop marker, three bytes (a type tag and an index) when it is
    not, and everything after that header is left unread. *)
Theorem ReadResponse_reads_one_more_header
  (g : Globals) (service : Service) (fuel : nat) (methodName : string)
  (method : Method) (input afterHeader trailing rest : binary.Buffer)
  (name : string) (ttype : TType) (index : Z) (fieldType : option Type_)
  (response : iface) :
  Service_Methods (Service_parser service) !! methodName = Some method ->
  binary.ReadFieldBegin input = (Ok (name, ttype, index), afterHeader) ->
  response_fieldType methodName method index afterHeader
  = (Ok fieldType, afterHeader) ->
  ReadValue binary.protocol g service fuel fieldType afterHeader
  = (Ok response, trailing) ->
  (trailing = x00 :: rest ->
     ReadResponse binary.protocol g service fuel methodName input
     = (Ok response, rest))
  /\ (forall t i1 i2 : byte,
         t <> x00 ->
         trailing = t :: i1 :: i2 :: rest ->
         ReadResponse binary.protocol g service fuel methodName input
         = (Ok response, rest)).
Proof.
  intros Hm Hfb Hft Hrv. split.
  - intros ->.
    apply (ReadResponse_decoded binary.protocol g service fuel methodName
             method input input afterHeader (x00 :: rest) (x00 :: rest) rest
             rest ""%string name ttype index fieldType response
             (""%string, STOP, 0)); try assumption; reflexivity.
  - intros t i1 i2 Ht ->.
    apply (ReadResponse_decoded binary.protocol g service fuel methodName
             method input input afterHeader (t :: i1 :: i2 :: rest)
             (t :: i1 :: i2 :: rest) rest rest ""%string name ttype index
             fieldType response
             (""%string, binary.Z_of_byte t, wrap 16 (binary.be_decode [i1; i2])));
      try assumption; try reflexivity.
    apply ReadFieldBegin_field. exact Ht.
Qed.

(** Witness of [ReadResponse_reads_one_more_header]: the response struct with
    two fields. *)
Lemma ReadResponse_reads_one_more_header_witness :
  ReadResponse binary.protocol Sample.globals Sample.service 8 "count"
    Reply.two_fields
  = (Ok (VInt Kint32 7), [x00; x00; x00; x09; x00]).
Proof.
  refine (proj2 (ReadResponse_reads_one_more_header Sample.globals
                   Sample.service 8 "count" Sample.count Reply.two_fields
                   (skipn 3 Reply.two_fields) (skipn 7 Reply.two_fields)
                   [x00; x00; x00; x09; x00] ""%string I32 0
                   (Sample.ty "i32") (VInt Kint32 7) _ _ _ _)
            x08 x00 x05 _ _);
    first [ vm_compute; reflexivity | discriminate ].
Defined.

(** ** Reading a struct *)

Section ReadStructFacts.

Context {P : Type}.
Variable proto : TProtocol P.
Variable g : Globals.
Variable service : Service.
Variable ReadValue_rec : option Type_ -> M P iface.

(** One turn of the loop on a field whose index is not declared. *)
Lemma ReadStruct_loop_unknown (fields : list Field) (fuel : nat)
  (result : list (string * iface)) (p p1 p2 p3 : P) (name : string)
  (thriftType : TType) (index : Z) (skipped : outcome unit) :
  ReadFieldBegin proto p = (Ok (name, thriftType, index), p1) ->
  thriftType <> STOP ->
  find_field index fields = None ->
  Skip proto thriftType p1 = (skipped, p2) ->
  (skipped = Ok tt \/ exists e, skipped = Err e) ->
  ReadFieldEnd proto p2 = (Ok tt, p3) ->
  ReadStruct_loop proto ReadValue_rec fields (S fuel) result p
  = ReadStruct_loop proto ReadValue_rec fields fuel result p3.
Proof.
  intros Hfb Hstop Hfind Hskip Hsk Hfe. cbn [ReadStruct_loop].
  unfold bind at 1. rewrite Hfb.
  replace (thriftType =? STOP) with false by (symmetry; apply Z.eqb_neq; exact Hstop).
  rewrite Hfind. unfold bind at 1, ignore_err. rewrite Hskip.
  destruct Hsk as [->|[e ->]]; unfold bind at 1; rewrite Hfe; reflexivity.
Qed.

(** One turn of the loop on a declared field. *)
Lemma ReadStruct_loop_declared (fields : list Field) (fuel : nat)
  (result : list (string * iface)) (p p1 p2 p3 : P) (name : string)
  (thriftType : TType) (index : Z) (field : Field) (value : iface) :
  ReadFieldBegin proto p = (Ok (name, thriftType, index), p1) ->
  thriftType <> STOP ->
  find_field index fields = Some field ->
  ReadValue_rec (Field_Type field) p1 = (Ok value, p2) ->
  ReadFieldEnd proto p2 = (Ok tt, p3) ->
  ReadStruct_loop proto ReadValue_rec fields (S fuel) result p
  = ReadStruct_loop proto ReadValue_rec fields fuel
      (map_set (Field_Name field) value result) p3.
Proof.
  intros Hfb Hstop Hfind Hrv Hfe. cbn [ReadStruct_loop].
  unfold bind at 1. rewrite Hfb.
  replace (thriftType =? STOP) with false by (symmetry; apply Z.eqb_neq; exact Hstop).
  rewrite Hfind. unfold bind at 1. rewrite Hrv.
  unfold bind at 1. rewrite Hfe. reflexivity.
Qed.

Lemma ReadStruct_loop_stop (fields : list Field) (fuel : nat)
  (result : list (string * iface)) (p p1 : P) (name : string) (index : Z) :
  ReadFieldBegin proto p = (Ok (name, STOP, index), p1) ->
  ReadStruct_loop proto ReadValue_rec fields (S fuel) result p = (Ok result, p1).
Proof.
  intros Hfb. cbn [ReadStruct_loop]. unfold bind. rewrite Hfb. reflexivity.
Qed.

Lemma find_field_Some (index : Z) (fields : list Field) (field : Field) :
  find_field index fields = Some field ->
  In field fields /\ Field_ID field = index.
Proof.
  unfold find_field. intros H. apply find_some in H as [Hin Heq].
  split; [exact Hin|]. apply Z.eqb_eq. exact Heq.
Qed.

Lemma map_set_keys (k : string) (v : iface) (m : list (string * iface)) (k' : string) :
  In k' (map fst (map_set k v m)) -> k' = k \/ In k' (map fst m).
Proof.
  induction m as [|[k0 x] m IH]; simpl.
  - intros [H|[]]. left. symmetry. exact H.
  - destruct (String.eqb k0 k) eqn:He; simpl; intros [H|H]; tauto.
Qed.

Lemma map_get_set_eq (k : string) (v : iface) (m : list (string * iface)) :
  map_get k (map_set k v m) = Some v.
Proof.
  unfold map_get. induction m as [|[k0 x] m IH]; simpl.
  - rewrite String.eqb_refl. reflexivity.
  - destruct (String.eqb k0 k) eqn:He; simpl; rewrite He; [reflexivity|exact IH].
Qed.

(** Every key of the decoded mapping is the name of a declared field (or was
    in the mapping the loop started from). *)
Lemma ReadStruct_loop_keys (fields : list Field) (fuel : nat) :
  forall (result result' : list (string * iface)) (p p' : P),
    ReadStruct_loop proto ReadValue_rec fields fuel result p = (Ok result', p') ->
    forall k : string,
      In k (map fst result') ->
      In k (map fst result) \/ exists field, In field fields /\ Field_Name field = k.
Proof.
  induction fuel as [|fuel IH]; intros result result' p p' H k Hk;
    cbn [ReadStruct_loop] in H; [discriminate|].
  unfold bind at 1 in H.
  destruct (ReadFieldBegin proto p) as [[[[name thriftType] index]| | |] p1];
    try discriminate.
  destruct (thriftType =? STOP).
  - inversion H; subst. left. exact Hk.
  - destruct (find_field index fields) as [field|] eqn:Hfind.
    + unfold bind at 1 in H.
      destruct (ReadValue_rec (Field_Type field) p1) as [[value| | |] p2];
        try discriminate.
      unfold bind at 1 in H.
      destruct (ReadFieldEnd proto p2) as [[[]| | |] p3]; try discriminate.
      destruct (IH _ _ _ _ H k Hk) as [Hin|Hex]; [|right; exact Hex].
      apply map_set_keys in Hin as [->|Hin]; [right|left; exact Hin].
      exists field. split; [|reflexivity].
      apply (find_field_Some index). exact Hfind.
    + unfold bind at 1 in H. unfold ignore_err in H.
      destruct (Skip proto thriftType p1) as [[[]| | |] p2]; try discriminate;
        unfold bind at 1 in H;
        (destruct (ReadFieldEnd proto p2) as [[[]| | |] p3]; try discriminate);
        exact (IH _ _ _ _ H k Hk).
Qed.

End ReadStructFacts.

(** C6. [ReadStruct] drops the error of [Skip]: the payload holds an
    undeclared field 9 whose string length is negative, then the stop marker.
    The skip fails with the invalid-data error, and [ReadStruct] returns an
    empty mapping and no error. *)
Theorem ReadStruct_swallows_Skip_error :
  binary.Skip STRING (skipn 3 Reply.bad_unknown_field)
  = (Err binary.invalidDataLength, [x00])
  /\ ReadStruct binary.protocol Sample.globals Sample.service 8
       (mkType "Person" None None) Reply.bad_unknown_field
     = (Ok (VMap []), []).
Proof. split; vm_compute; reflexivity. Qed.

(** [ReadStruct] drops the error of [ReadStructBegin] as well: decoding goes
    on from the state the failed call left. *)
Lemma ReadStruct_swallows_ReadStructBegin_error {P : Type}
  (proto : TProtocol P) (g : Globals) (service : Service) (fuel : nat)
  (parserType : Type_) (thriftStruct : Struct) (p p1 : P) (e : error) :
  Service_Structs service !! Type_Name parserType = Some thriftStruct ->
  ReadStructBegin proto p = (Err e, p1) ->
  ReadStruct proto g service fuel parserType p
  = (let* result := ReadStruct_loop proto (ReadValue proto g service fuel)
                      (Struct_Fields thriftStruct) fuel [] in
     let* _ := ReadStructEnd proto in
     ret (VMap result)) p1.
Proof.
  intros Hst Hsb. unfold ReadStruct, ReadStruct_with. rewrite Hst.
  unfold bind at 1, ignore_err. rewrite Hsb. reflexivity.
Qed.

(** ** Sequence ids *)

Section FramingFacts.

Context {P : Type}.
Variable proto : TProtocol P.
Variable fm : FloatModel.
Variable g : Globals.

Lemma on_output_frame {A : Type} (m : M P A) (client client' : Client)
  (w w' : World P) (r : outcome A) :
  on_output m (client, w) = (r, (client', w')) ->
  client' = client /\ InputProtocol w' = InputProtocol w.
Proof.
  unfold on_output. destruct (m (OutputProtocol w)) as [r0 p0].
  intros H. inversion H; subst. split; reflexivity.
Qed.

(** [send] with the output transport open: the counter of the struct it runs
    on is incremented first, and the message is begun with the new value. *)
Lemma send_open (method : string) (args : list iface) (client : Client)
  (w : World P) :
  IsOpen proto (OutputProtocol w) = true ->
  send proto fm g method args (client, w)
  = (let* _ := on_output
                 (WriteMessageBegin proto method CALL (Client_SeqId (bump client))) in
     let* _ := on_output
                 (WriteRequest proto fm g (Client_Service client) method args) in
     let* _ := on_output (WriteMessageEnd proto) in
     on_output (Flush proto)) (bump client, w).
Proof.
  intros Hopen. unfold send. unfold bind at 1. unfold on_output at 1.
  rewrite Hopen. destruct w as [i o]. reflexivity.
Qed.

Lemma send_Ok_client (method : string) (args : list iface) (client client' : Client)
  (w w' : World P) :
  IsOpen proto (OutputProtocol w) = true ->
  send proto fm g method args (client, w) = (Ok tt, (client', w')) ->
  client' = bump client /\ InputProtocol w' = InputProtocol w.
Proof.
  intros Hopen. rewrite (send_open _ _ _ _ Hopen). unfold bind.
  destruct (on_output (WriteMessageBegin _ _ _ _) (bump client, w))
    as [[[]| | |] [c1 w1]] eqn:H1; try discriminate.
  apply on_output_frame in H1 as [-> Hi1].
  destruct (on_output (WriteRequest _ _ _ _ _ _) (bump client, w1))
    as [[[]| | |] [c2 w2]] eqn:H2; try discriminate.
  apply on_output_frame in H2 as [-> Hi2].
  destruct (on_output (WriteMessageEnd _) (bump client, w2))
    as [[[]| | |] [c3 w3]] eqn:H3; try discriminate.
  apply on_output_frame in H3 as [-> Hi3].
  intros H4. apply on_output_frame in H4 as [-> Hi4].
  split; [reflexivity|congruence].
Qed.


End FramingFacts.




(** ** Round trip through the binary protocol *)

(** *** Writers and readers of the in-memory buffer *)

Lemma writes_ret : writes (ret tt) [].
Proof. intros out. unfold ret. rewrite app_nil_r. reflexivity. Qed.

Lemma writes_write (bs : list byte) : writes (binary.write bs) bs.
Proof. intros out. reflexivity. Qed.

Lemma writes_bind (m1 : M binary.Buffer unit) (m2 : unit -> M binary.Buffer unit)
  (b1 b2 : list byte) :
  writes m1 b1 -> writes (m2 tt) b2 -> writes (bind m1 m2) (b1 ++ b2).
Proof.
  intros H1 H2 out. unfold bind. rewrite H1, H2, app_assoc. reflexivity.
Qed.

Lemma reads_ret {A : Type} (a : A) : reads (ret a) [] a.
Proof. intros rest. reflexivity. Qed.

Lemma reads_bind {A B : Type} (m : M binary.Buffer A)
  (k : A -> M binary.Buffer B) (b1 b2 : list byte) (a : A) (b : B) :
  reads m b1 a -> reads (k a) b2 b -> reads (bind m k) (b1 ++ b2) b.
Proof.
  intros H1 H2 rest. unfold bind. rewrite <- app_assoc, H1, H2. reflexivity.
Qed.

Lemma reads_nil_l {A : Type} (m : M binary.Buffer A) (bytes : list byte) (a : A) :
  reads m ([] ++ bytes) a -> reads m bytes a.
Proof. exact (fun H => H). Qed.

Lemma reads_ReadByte (z : Z) :
  0 <= z < 256 -> reads binary.ReadByte [binary.byte_of_Z z] z.
Proof. intros Hz rest. apply ReadByte_written. exact Hz. Qed.

Lemma reads_ReadBool (b : bool) :
  reads binary.ReadBool [binary.byte_of_Z (if b then 1 else 0)] b.
Proof.
  intros rest. unfold binary.ReadBool, bind. cbn [app].
  rewrite ReadByte_written by (destruct b; lia). destruct b; reflexivity.
Qed.

Lemma reads_ReadI16 (z : Z) :
  in_int 16 z -> reads binary.ReadI16 (binary.be_encode 2 z) z.
Proof. intros Hz rest. apply ReadI16_written. exact Hz. Qed.

Lemma reads_ReadI32 (z : Z) :
  in_int 32 z -> reads binary.ReadI32 (binary.be_encode 4 z) z.
Proof. intros Hz rest. apply ReadI32_written. exact Hz. Qed.

Lemma reads_ReadI64 (z : Z) :
  in_int 64 z -> reads binary.ReadI64 (binary.be_encode 8 z) z.
Proof. intros Hz rest. apply ReadI64_written. exact Hz. Qed.

Lemma reads_ReadDouble (b7 b6 b5 b4 b3 b2 b1 b0 : byte) :
  reads binary.ReadDouble [b7; b6; b5; b4; b3; b2; b1; b0]
    (Float64frombytes b7 b6 b5 b4 b3 b2 b1 b0).
Proof. intros rest. reflexivity. Qed.

Lemma length_list_byte_of_string (s : string) :
  length (list_byte_of_string s) = String.length s.
Proof.
  unfold list_byte_of_string. rewrite length_map.
  induction s as [|c s IH]; simpl; [reflexivity|]. rewrite IH. reflexivity.
Qed.

Lemma wire_length_wrap (n : nat) :
  wire_length n -> wrap 32 (Z.of_nat n) = Z.of_nat n.
Proof.
  intros Hn. apply wrap_small; [lia|]. unfold wire_length in Hn.
  unfold in_int. simpl. simpl in Hn. lia.
Qed.

Lemma wire_length_in_int (n : nat) : wire_length n -> in_int 32 (Z.of_nat n).
Proof.
  unfold wire_length, in_int. simpl. lia.
Qed.

Lemma writes_WriteString (s : string) :
  wire_length (String.length s) -> writes (binary.WriteString s) (string_bytes s).
Proof.
  intros Hs. unfold binary.WriteString, string_bytes.
  rewrite (wire_length_wrap _ Hs).
  apply writes_bind; apply writes_write.
Qed.

Lemma reads_ReadString (s : string) :
  wire_length (String.length s) -> reads binary.ReadString (string_bytes s) s.
Proof.
  intros Hs rest. unfold binary.ReadString, string_bytes, bind.
  rewrite <- app_assoc.
  rewrite ReadI32_written by (apply wire_length_in_int; exact Hs).
  replace (Z.of_nat (String.length s) <? 0) with false
    by (symmetry; apply Z.ltb_ge; lia).
  rewrite Nat2Z.id, <- (length_list_byte_of_string s), read_app.
  unfold ret. rewrite string_of_list_byte_of_string. reflexivity.
Qed.

Lemma writes_WriteFieldBegin (name : string) (t : TType) (id : Z) :
  writes (binary.WriteFieldBegin name t id) (field_header t id).
Proof. apply writes_bind; apply writes_write. Qed.

Lemma reads_ReadFieldBegin (t : TType) (id : Z) :
  wire_tag t -> in_int 16 id ->
  reads binary.ReadFieldBegin (field_header t id) (""%string, t, id).
Proof.
  intros Ht Hid rest. unfold binary.ReadFieldBegin, field_header, bind.
  rewrite <- app_assoc. cbn [app].
  rewrite ReadByte_written by (unfold wire_tag in Ht; lia).
  replace (t =? STOP) with false
    by (symmetry; apply Z.eqb_neq; unfold wire_tag, STOP in *; lia).
  cbv beta iota.
  rewrite ReadI16_written by exact Hid. reflexivity.
Qed.

Lemma writes_WriteListBegin (t : TType) (n : nat) :
  wire_length n -> writes (binary.WriteListBegin t (Z.of_nat n)) (list_header t n).
Proof.
  intros Hn. unfold binary.WriteListBegin, list_header.
  rewrite (wire_length_wrap _ Hn). apply writes_bind; apply writes_write.
Qed.

Lemma reads_ReadListBegin (t : TType) (n : nat) :
  byte_tag t -> wire_length n ->
  reads binary.ReadListBegin (list_header t n) (t, Z.of_nat n).
Proof.
  intros Ht Hn rest. unfold binary.ReadListBegin, list_header, bind.
  rewrite <- app_assoc. cbn [app].
  rewrite ReadByte_written by exact Ht.
  rewrite ReadI32_written by (apply wire_length_in_int; exact Hn).
  replace (Z.of_nat n <? 0) with false by (symmetry; apply Z.ltb_ge; lia).
  reflexivity.
Qed.

Lemma writes_WriteMapBegin (k v : TType) (n : nat) :
  wire_length n -> writes (binary.WriteMapBegin k v (Z.of_nat n)) (map_header k v n).
Proof.
  intros Hn. unfold binary.WriteMapBegin, map_header.
  rewrite (wire_length_wrap _ Hn).
  apply writes_bind; [apply writes_write|].
  apply writes_bind; apply writes_write.
Qed.

Lemma reads_ReadMapBegin (k v : TType) (n : nat) :
  byte_tag k -> byte_tag v -> wire_length n ->
  reads binary.ReadMapBegin (map_header k v n) (k, v, Z.of_nat n).
Proof.
  intros Hk Hv Hn rest. unfold binary.ReadMapBegin, map_header, bind.
  rewrite <- !app_assoc. cbn [app].
  rewrite ReadByte_written by exact Hk.
  rewrite ReadByte_written by exact Hv.
  rewrite ReadI32_written by (apply wire_length_in_int; exact Hn).
  replace (Z.of_nat n <? 0) with false by (symmetry; apply Z.ltb_ge; lia).
  reflexivity.
Qed.

(** *** The loops of the write path and of [has_type] and [normalize] *)

Lemma with_map_get_spec {B : Type} (m : list (string * iface)) (k : string)
  (present : iface -> B) (absent : B) :
  with_map_get m k present absent
  = match map_get k m with Some x => present x | None => absent end.
Proof.
  unfold with_map_get, map_get.
  induction m as [|[k' x] m IH]; simpl; [reflexivity|].
  destruct (String.eqb k' k); [reflexivity|exact IH].
Qed.

Lemma map_get_Forall (Q : iface -> Prop) (m : list (string * iface))
  (k : string) (x : iface) :
  Forall (fun kv => Q (snd kv)) m -> map_get k m = Some x -> Q x.
Proof.
  unfold map_get. induction 1 as [|[k' y] m Hy Hm IH]; simpl; [discriminate|].
  destruct (String.eqb k' k); [|exact IH].
  intros H. inversion H; subst. exact Hy.
Qed.

Lemma map_set_fresh (k : string) (v : iface) (m : list (string * iface)) :
  ~ In k (map fst m) -> map_set k v m = m ++ [(k, v)].
Proof.
  induction m as [|[k' x] m IH]; simpl; intros Hk; [reflexivity|].
  destruct (String.eqb k' k) eqn:He.
  - apply String.eqb_eq in He. tauto.
  - rewrite IH by tauto. reflexivity.
Qed.

Lemma find_field_NoDup (pre rest : list Field) (field : Field) :
  NoDup (map Field_ID (pre ++ field :: rest)) ->
  find_field (Field_ID field) (pre ++ field :: rest) = Some field.
Proof.
  unfold find_field. induction pre as [|f0 pre IH]; simpl; intros Hnd.
  - rewrite Z.eqb_refl. reflexivity.
  - apply NoDup_cons in Hnd as [Hnotin Hnd].
    destruct (Field_ID f0 =? Field_ID field) eqn:He; [|exact (IH Hnd)].
    apply Z.eqb_eq in He. exfalso. apply Hnotin. rewrite He.
    rewrite map_app. simpl. apply list_elem_of_In, in_or_app. right. left.
    reflexivity.
Qed.

Section RoundTripProof.

Variable fm : FloatModel.
Variable g : Globals.
Variable service : Service.

Let N := normalize fm g service.
Let HT := has_type fm g service.

(** *** The cases of [has_type], [normalize] and [ReadValue], tag by tag *)

Variable ty : Type_.
Let t := LookupType g service (Type_Name ty).

Ltac by_tag v :=
  let E := fresh "E" in
  intros E; unfold HT, N, t in *; destruct v; cbn [has_type normalize];
  rewrite E; reflexivity.

Lemma has_type_BOOL v : t = BOOL ->
  HT (Some ty) v = match v with VBool _ => True | _ => False end.
Proof. by_tag v. Qed.
Lemma has_type_BYTE v : t = BYTE ->
  HT (Some ty) v = match v with VInt Kuint8 n => 0 <= n < 256 | _ => False end.
Proof. by_tag v. Qed.
Lemma has_type_DOUBLE v : t = DOUBLE -> HT (Some ty) v = (snd (Float64 fm v) = true).
Proof. by_tag v. Qed.
Lemma has_type_I16 v : t = I16 -> HT (Some ty) v = (snd (Int16 fm v) = true).
Proof. by_tag v. Qed.
Lemma has_type_I32 v : t = I32 -> HT (Some ty) v = (snd (Int32 fm v) = true).
Proof. by_tag v. Qed.
Lemma has_type_I64 v : t = I64 -> HT (Some ty) v = (snd (Int64 fm v) = true).
Proof. by_tag v. Qed.
Lemma has_type_STRING v : t = STRING ->
  HT (Some ty) v
  = match v with VString s => wire_length (String.length s) | _ => False end.
Proof. by_tag v. Qed.
Lemma has_type_STRUCT v : t = STRUCT ->
  HT (Some ty) v
  = match Service_Structs service !! Type_Name ty, v with
    | Some thriftStruct, VMap m =>
        struct_ok thriftStruct /\ fields_ok fm g service m (Struct_Fields thriftStruct)
    | _, _ => False
    end.
Proof. by_tag v. Qed.
Lemma has_type_MAP v : t = MAP ->
  HT (Some ty) v
  = match Type_ValueType ty, v with
    | Some valueType, VMap m =>
        NoDup (map fst m) /\ wire_length (length m) /\ entries_ok fm g service valueType m
    | _, _ => False
    end.
Proof. by_tag v. Qed.
Lemma has_type_LIST v : t = LIST ->
  HT (Some ty) v
  = match Type_ValueType ty, v with
    | Some valueType, VList l => wire_length (length l) /\ elements_ok fm g service valueType l
    | _, _ => False
    end.
Proof. by_tag v. Qed.

Lemma normalize_BOOL v : t = BOOL -> N (Some ty) v = v.
Proof. by_tag v. Qed.
Lemma normalize_BYTE v : t = BYTE -> N (Some ty) v = v.
Proof. by_tag v. Qed.
Lemma normalize_DOUBLE v : t = DOUBLE -> N (Some ty) v = VFloat64 (fst (Float64 fm v)).
Proof. by_tag v. Qed.
Lemma normalize_I16 v : t = I16 -> N (Some ty) v = VInt Kint16 (fst (Int16 fm v)).
Proof. by_tag v. Qed.
Lemma normalize_I32 v : t = I32 -> N (Some ty) v = VInt Kint32 (fst (Int32 fm v)).
Proof. by_tag v. Qed.
Lemma normalize_I64 v : t = I64 -> N (Some ty) v = VInt Kint64 (fst (Int64 fm v)).
Proof. by_tag v. Qed.
Lemma normalize_STRING v : t = STRING -> N (Some ty) v = v.
Proof. by_tag v. Qed.
Lemma normalize_STRUCT v : t = STRUCT ->
  N (Some ty) v
  = match Service_Structs service !! Type_Name ty, v with
    | Some thriftStruct, VMap m => VMap (fields_norm fm g service m (Struct_Fields thriftStruct))
    | _, _ => VNil
    end.
Proof. by_tag v. Qed.
Lemma normalize_MAP v : t = MAP ->
  N (Some ty) v
  = match Type_ValueType ty, v with
    | Some valueType, VMap m => VMap (entries_norm fm g service valueType m)
    | _, _ => VNil
    end.
Proof. by_tag v. Qed.
Lemma normalize_LIST v : t = LIST ->
  N (Some ty) v
  = match Type_ValueType ty, v with
    | Some valueType, VList l => VList (elements_norm fm g service valueType l)
    | _, _ => VNil
    end.
Proof. by_tag v. Qed.

(** A schema-valid value is typed by one of the ten tags that [WriteValue]
    dispatches on. *)
Lemma has_type_tag v :
  HT (Some ty) v ->
  In t [BOOL; BYTE; DOUBLE; I16; I32; I64; STRING; STRUCT; MAP; LIST].
Proof.
  intros H. assert (Hcases : forall c, (t =? c) = true -> t = c)
    by (intros c; apply Z.eqb_eq).
  unfold HT in H; destruct v; cbn [has_type] in H; fold t in H;
    repeat match type of H with
           | context [if t =? ?c then _ else _] =>
               let E := fresh "E" in
               destruct (t =? c) eqn:E;
               [apply Hcases in E; rewrite E; simpl; tauto|]
           end; contradiction.
Qed.

Lemma has_type_wire_tag v : HT (Some ty) v -> wire_tag t.
Proof.
  intros H. apply has_type_tag in H. unfold wire_tag. simpl in H.
  repeat (destruct H as [H|H]; [rewrite <- H; vm_compute; split; reflexivity|]).
  contradiction.
Qed.

End RoundTripProof.

(** *** Round trip, case by case *)

Lemma reads_map {A B : Type} (m : M binary.Buffer A) (f : A -> B)
  (bytes : list byte) (a : A) :
  reads m bytes a -> reads (let* x := m in ret (f x)) bytes (f a).
Proof.
  intros H. rewrite <- (app_nil_r bytes).
  apply (reads_bind m _ bytes [] a); [exact H|apply reads_ret].
Qed.

Lemma IntW_in_int (fm : FloatModel) (w : Z) (v : iface) :
  0 < w -> in_int w (fst (IntW fm w v)).
Proof.
  intros Hw.
  assert (H0 : in_int w 0).
  { unfold in_int. assert (0 < 2 ^ (w - 1)) by (apply Z.pow_pos_nonneg; lia). lia. }
  destruct v; simpl; try exact H0; try (apply wrap_in_int; exact Hw).
  destruct (ParseInt s); [apply wrap_in_int; exact Hw|exact H0].
Qed.

Section RoundTripCases.

Variable fm : FloatModel.
Variable g : Globals.
Variable service : Service.

Section Primitive.

Variable ty : Type_.
Variable v : iface.
Hypothesis Hty : has_type fm g service (Some ty) v.

Ltac read_tag E :=
  let fuel := fresh "fuel" in
  let Hfuel := fresh "Hfuel" in
  intros fuel Hfuel; destruct fuel as [|fuel]; [lia|];
  cbn [ReadValue]; rewrite E.

Lemma round_trips_BOOL :
  LookupType g service (Type_Name ty) = BOOL -> round_trips fm g service (Some ty) v.
Proof.
  intros E. rewrite (has_type_BOOL _ _ _ _ _ E) in Hty. unfold round_trips.
  rewrite (WriteValue_BOOL _ _ _ _ _ _ E), (normalize_BOOL _ _ _ _ _ E).
  destruct v; try contradiction.
  eexists _, 1%nat. split; [apply writes_write|].
  read_tag E. apply (reads_map _ VBool), reads_ReadBool.
Qed.

Lemma round_trips_BYTE :
  LookupType g service (Type_Name ty) = BYTE -> round_trips fm g service (Some ty) v.
Proof.
  intros E. rewrite (has_type_BYTE _ _ _ _ _ E) in Hty. unfold round_trips.
  rewrite (WriteValue_BYTE _ _ _ _ _ _ E), (normalize_BYTE _ _ _ _ _ E).
  destruct v as [| |k n| | | | |]; try contradiction.
  destruct k; try contradiction.
  eexists _, 1%nat. split; [apply writes_write|].
  read_tag E. apply (reads_map _ VByte), reads_ReadByte. exact Hty.
Qed.

Lemma round_trips_DOUBLE :
  LookupType g service (Type_Name ty) = DOUBLE -> round_trips fm g service (Some ty) v.
Proof.
  intros E. rewrite (has_type_DOUBLE _ _ _ _ _ E) in Hty. unfold round_trips.
  rewrite (WriteValue_DOUBLE _ _ _ _ _ _ E), (normalize_DOUBLE _ _ _ _ _ E).
  destruct (Float64 fm v) as [[b7 b6 b5 b4 b3 b2 b1 b0] ok]; simpl in *; subst ok.
  eexists _, 1%nat. split; [apply writes_write|].
  read_tag E. apply (reads_map _ VFloat64), reads_ReadDouble.
Qed.

Lemma round_trips_I16 :
  LookupType g service (Type_Name ty) = I16 -> round_trips fm g service (Some ty) v.
Proof.
  intros E. rewrite (has_type_I16 _ _ _ _ _ E) in Hty. unfold round_trips.
  rewrite (WriteValue_I16 _ _ _ _ _ _ E), (normalize_I16 _ _ _ _ _ E).
  pose proof (IntW_in_int fm 16 v ltac:(lia)) as Hrange. unfold Int16 in *.
  destruct (IntW fm 16 v) as [x ok]; simpl in *; subst ok.
  eexists _, 1%nat. split; [apply writes_write|].
  read_tag E. apply (reads_map _ (VInt Kint16)), reads_ReadI16. exact Hrange.
Qed.

Lemma round_trips_I32 :
  LookupType g service (Type_Name ty) = I32 -> round_trips fm g service (Some ty) v.
Proof.
  intros E. rewrite (has_type_I32 _ _ _ _ _ E) in Hty. unfold round_trips.
  rewrite (WriteValue_I32 _ _ _ _ _ _ E), (normalize_I32 _ _ _ _ _ E).
  pose proof (IntW_in_int fm 32 v ltac:(lia)) as Hrange. unfold Int32 in *.
  destruct (IntW fm 32 v) as [x ok]; simpl in *; subst ok.
  eexists _, 1%nat. split; [apply writes_write|].
  read_tag E. apply (reads_map _ (VInt Kint32)), reads_ReadI32. exact Hrange.
Qed.

Lemma round_trips_I64 :
  LookupType g service (Type_Name ty) = I64 -> round_trips fm g service (Some ty) v.
Proof.
  intros E. rewrite (has_type_I64 _ _ _ _ _ E) in Hty. unfold round_trips.
  rewrite (WriteValue_I64 _ _ _ _ _ _ E), (normalize_I64 _ _ _ _ _ E).
  pose proof (IntW_in_int fm 64 v ltac:(lia)) as Hrange. unfold Int64 in *.
  destruct (IntW fm 64 v) as [x ok]; simpl in *; subst ok.
  eexists _, 1%nat. split; [apply writes_write|].
  read_tag E. apply (reads_map _ (VInt Kint64)), reads_ReadI64. exact Hrange.
Qed.

Lemma round_trips_STRING :
  LookupType g service (Type_Name ty) = STRING -> round_trips fm g service (Some ty) v.
Proof.
  intros E. rewrite (has_type_STRING _ _ _ _ _ E) in Hty. unfold round_trips.
  rewrite (WriteValue_STRING _ _ _ _ _ _ E), (normalize_STRING _ _ _ _ _ E).
  destruct v; try contradiction.
  eexists _, 1%nat. split; [apply writes_WriteString; exact Hty|].
  read_tag E. apply (reads_map _ VString), reads_ReadString. exact Hty.
Qed.

End Primitive.

End RoundTripCases.

Lemma registry_ok_initial : registry_ok Globals_initial.
Proof.
  intros n t H. simpl in H. unfold defultTypeNameMap_initial in H.
  apply elem_of_list_to_map_2 in H.
  repeat (apply elem_of_cons in H as [H|H];
          [inversion H; subst; unfold byte_tag; vm_compute; split;
           [discriminate|reflexivity]|]).
  apply elem_of_nil in H. contradiction.
Qed.

Lemma range_insert_byte_tags {A : Type} (f : A -> TType)
  (m : list (string * A)) (dst : gmap string TType) :
  (forall x, byte_tag (f x)) ->
  map_Forall (fun _ t => byte_tag t) dst ->
  map_Forall (fun _ t => byte_tag t) (range_insert f m dst).
Proof.
  intros Hf. unfold range_insert. revert dst.
  induction m as [|[k x] m IH]; intros dst Hdst; simpl; [exact Hdst|].
  apply IH. apply map_Forall_insert_2; [apply Hf|exact Hdst].
Qed.

Lemma typedefs_loop_byte_tags (typedefs : list (string * Type_)) :
  forall (types types' : gmap string TType) (e : option error),
    map_Forall (fun _ t => byte_tag t) types ->
    typedefs_loop typedefs types = (types', e) ->
    map_Forall (fun _ t => byte_tag t) types'.
Proof.
  induction typedefs as [|[name thriftType] rest IH]; intros types types' e Hok H;
    simpl in H.
  - inversion H; subst. exact Hok.
  - destruct (types !! Type_Name thriftType) as [t|] eqn:Ht.
    + refine (IH _ _ _ _ H).
      apply map_Forall_insert_2; [exact (Hok _ _ Ht)|exact Hok].
    + inversion H; subst. apply map_Forall_insert_2; [|exact Hok].
      unfold byte_tag, STOP. lia.
Qed.

(** [NewService] keeps the registry within the range of [TType], whether it
    succeeds or not. *)
Lemma NewService_registry_ok (parsedThrift : Thrift) (name : string)
  (g g' : Globals) (r : outcome Service) :
  registry_ok g ->
  NewService parsedThrift name g = (r, g') ->
  registry_ok g'.
Proof.
  intros Hg H. unfold NewService in H.
  destruct (assoc name (Thrift_Services parsedThrift)); [|inversion H; subst; exact Hg].
  destruct (typedefs_loop _ _) as [types e] eqn:Hloop.
  assert (Hok : map_Forall (fun _ t => byte_tag t) types).
  { refine (typedefs_loop_byte_tags _ _ _ _ _ Hloop).
    repeat apply range_insert_byte_tags;
      try (intros _; unfold byte_tag, I32, STRUCT; lia).
    exact Hg. }
  destruct e; inversion H; subst; exact Hok.
Qed.

Lemma LookupType_byte_tag (g : Globals) (service : Service) (n : string) :
  registry_ok g -> byte_tag (LookupType g service n).
Proof.
  intros Hg. unfold LookupType. destruct (Service_Types service). simpl.
  destruct (defultTypeNameMap g !! n) as [t|] eqn:Ht.
  - exact (Hg n t Ht).
  - unfold byte_tag, STOP. lia.
Qed.

Section RoundTripContainers.

Variable fm : FloatModel.
Variable g : Globals.
Variable service : Service.
Hypothesis Hregistry : registry_ok g.

Lemma elements_round_trip (valueType : Type_) (l : list iface) :
  Forall (component_round_trips fm g service) l ->
  elements_ok fm g service valueType l ->
  exists (bytes : list byte) (fuel0 : nat),
    writes (write_elements fm g service valueType l) bytes
    /\ forall (fuel : nat) (acc : list iface),
         (fuel0 <= fuel)%nat ->
         reads (ReadList_loop (ReadValue binary.protocol g service fuel)
                  (Some valueType) (length l) acc)
           bytes (acc ++ elements_norm fm g service valueType l).
Proof.
  induction 1 as [|x l Hx Hl IH]; intros Hok.
  - exists [], 0%nat. split; [apply writes_ret|].
    intros fuel acc _. simpl. rewrite app_nil_r. apply reads_ret.
  - destruct Hok as [Hhead Hrest].
    destruct (Hx _ Hhead) as (bx & fx & Wx & Rx).
    destruct (IH Hrest) as (bl & fl & Wl & Rl).
    exists (bx ++ bl), (Nat.max fx fl). split.
    + apply writes_bind; assumption.
    + intros fuel acc Hfuel. cbn [length ReadList_loop elements_norm].
      apply (reads_bind _ _ bx bl (normalize fm g service (Some valueType) x)).
      * apply Rx. lia.
      * replace (acc ++ normalize fm g service (Some valueType) x
                     :: elements_norm fm g service valueType l)
          with ((acc ++ [normalize fm g service (Some valueType) x])
                  ++ elements_norm fm g service valueType l)
          by (rewrite <- app_assoc; reflexivity).
        apply Rl. lia.
Qed.

Lemma entries_round_trip (valueType : Type_) (m : list (string * iface)) :
  Forall (fun kv => component_round_trips fm g service (snd kv)) m ->
  entries_ok fm g service valueType m ->
  NoDup (map fst m) ->
  exists (bytes : list byte) (fuel0 : nat),
    writes (write_entries fm g service valueType m) bytes
    /\ forall (fuel : nat) (acc : list (string * iface)),
         (fuel0 <= fuel)%nat ->
         (forall k, In k (map fst m) -> ~ In k (map fst acc)) ->
         reads (ReadMap_loop binary.protocol
                  (ReadValue binary.protocol g service fuel)
                  (Some valueType) (length m) acc)
           bytes (acc ++ entries_norm fm g service valueType m).
Proof.
  induction 1 as [|[k x] m Hx Hm IH]; intros Hok Hnd.
  - exists [], 0%nat. split; [apply writes_ret|].
    intros fuel acc _ _. simpl. rewrite app_nil_r. apply reads_ret.
  - destruct Hok as (Hk & Hhead & Hrest). simpl in Hx.
    simpl in Hnd. apply NoDup_cons in Hnd as [Hfresh Hnd].
    destruct (Hx _ Hhead) as (bx & fx & Wx & Rx).
    destruct (IH Hrest Hnd) as (bl & fl & Wl & Rl).
    exists (string_bytes k ++ bx ++ bl), (Nat.max fx fl). split.
    + apply writes_bind; [apply writes_WriteString; exact Hk|].
      apply writes_bind; assumption.
    + intros fuel acc Hfuel Hacc. cbn [length ReadMap_loop entries_norm].
      apply (reads_bind _ _ (string_bytes k) (bx ++ bl) k);
        [apply reads_ReadString; exact Hk|].
      apply (reads_bind _ _ bx bl (normalize fm g service (Some valueType) x));
        [apply Rx; lia|].
      rewrite map_set_fresh by (apply Hacc; left; reflexivity).
      replace (acc ++ (k, normalize fm g service (Some valueType) x)
                     :: entries_norm fm g service valueType m)
        with ((acc ++ [(k, normalize fm g service (Some valueType) x)])
                ++ entries_norm fm g service valueType m)
        by (rewrite <- app_assoc; reflexivity).
      apply Rl; [lia|].
      intros k' Hk' Hin. rewrite map_app in Hin. apply in_app_or in Hin.
      destruct Hin as [Hin|[Heq|[]]].
      * apply (Hacc k'); [right; exact Hk'|exact Hin].
      * simpl in Heq. subst k'. apply Hfresh. apply list_elem_of_In. exact Hk'.
Qed.

End RoundTripContainers.

Lemma has_type_None (fm : FloatModel) (g : Globals) (service : Service) (v : iface) :
  has_type fm g service None v -> False.
Proof. destruct v; simpl; tauto. Qed.

Lemma writes_eq (m : M binary.Buffer unit) (b b' : list byte) :
  writes m b -> b = b' -> writes m b'.
Proof. intros H <-. exact H. Qed.

Section RoundTripStruct.

Variable fm : FloatModel.
Variable g : Globals.
Variable service : Service.

Lemma fields_round_trip (all : list Field) (m : list (string * iface)) :
  Forall (fun field => in_int 16 (Field_ID field)) all ->
  NoDup (map Field_ID all) ->
  Forall (fun kv => component_round_trips fm g service (snd kv)) m ->
  forall (fields pre : list Field),
    all = pre ++ fields ->
    NoDup (map Field_Name fields) ->
    fields_ok fm g service m fields ->
    exists (bytes : list byte) (fuel0 : nat),
      writes (write_fields fm g service m fields) bytes
      /\ forall (fuel k : nat) (acc : list (string * iface)),
           (fuel0 <= fuel)%nat -> (fuel0 <= k)%nat ->
           (forall field, In field fields -> ~ In (Field_Name field) (map fst acc)) ->
           reads (ReadStruct_loop binary.protocol
                    (ReadValue binary.protocol g service fuel) all k acc)
             (bytes ++ [x00]) (acc ++ fields_norm fm g service m fields).
Proof.
  intros Hids Hnodup Hm.
  induction fields as [|field fields IH]; intros pre Hall Hnames Hok.
  - exists [], 1%nat. split; [apply writes_ret|].
    intros fuel k acc _ Hk _ rest. destruct k as [|k]; [lia|].
    cbn [fields_norm]. rewrite app_nil_r. reflexivity.
  - destruct Hok as [Hfield Hrest]. rewrite with_map_get_spec in Hfield.
    simpl in Hnames. apply NoDup_cons in Hnames as [Hfresh Hnames].
    assert (Hall' : all = (pre ++ [field]) ++ fields)
      by (rewrite <- app_assoc; exact Hall).
    destruct (IH (pre ++ [field]) Hall' Hnames Hrest) as (bl & fl & Wl & Rl).
    cbn [write_fields fields_norm]. rewrite !with_map_get_spec.
    destruct (map_get (Field_Name field) m) as [fieldValue|] eqn:Hget.
    + destruct (Field_Type field) as [fty|] eqn:Hfty;
        [|exfalso; exact (has_type_None _ _ _ _ Hfield)].
      pose proof (has_type_wire_tag _ _ _ _ _ Hfield) as Htag.
      destruct (map_get_Forall _ _ _ _ Hm Hget _ Hfield) as (bv & fv & Wv & Rv).
      assert (Hid : in_int 16 (Field_ID field)).
      { rewrite Forall_forall in Hids. apply Hids. rewrite Hall.
        apply list_elem_of_In, in_or_app. right. left. reflexivity. }
      assert (Hfind : find_field (Field_ID field) all = Some field)
        by (rewrite Hall; apply find_field_NoDup; rewrite <- Hall; exact Hnodup).
      exists ((field_header (LookupType g service (Type_Name fty)) (Field_ID field)
                 ++ bv) ++ bl), (S (Nat.max fv fl)).
      split.
      * apply writes_bind; [|exact Wl].
        unfold WriteField, WriteField_with. rewrite Hfty.
        rewrite wrap_small by (lia || exact Hid).
        apply writes_bind; [apply writes_WriteFieldBegin|].
        apply (writes_eq _ (bv ++ [])); [|apply app_nil_r].
        apply writes_bind; [exact Wv|apply writes_ret].
      * intros fuel k acc Hfuel Hk Hacc rest.
        destruct k as [|k]; [lia|].
        rewrite <- !app_assoc.
        rewrite (ReadStruct_loop_declared binary.protocol
                   (ReadValue binary.protocol g service fuel) all k acc
                   _ (bv ++ bl ++ [x00] ++ rest) (bl ++ [x00] ++ rest)
                   (bl ++ [x00] ++ rest) ""%string
                   (LookupType g service (Type_Name fty)) (Field_ID field)
                   field (normalize fm g service (Some fty) fieldValue)).
        -- rewrite map_set_fresh by (apply Hacc; left; reflexivity).
           cbn [app].
           replace (acc ++ (Field_Name field,
                            normalize fm g service (Some fty) fieldValue)
                          :: fields_norm fm g service m fields)
             with ((acc ++ [(Field_Name field,
                             normalize fm g service (Some fty) fieldValue)])
                     ++ fields_norm fm g service m fields)
             by (rewrite <- app_assoc; reflexivity).
           assert (Hacc' : forall field', In field' fields ->
                     ~ In (Field_Name field')
                         (map fst (acc ++ [(Field_Name field,
                                   normalize fm g service (Some fty) fieldValue)]))).
           { intros field' Hin' Hkey. rewrite map_app in Hkey.
             apply in_app_or in Hkey. destruct Hkey as [Hkey|[Heq|[]]].
             - apply (Hacc field'); [right; exact Hin'|exact Hkey].
             - simpl in Heq. apply Hfresh. rewrite Heq.
               apply list_elem_of_In, in_map. exact Hin'. }
           pose proof (Rl fuel k _ ltac:(lia) ltac:(lia) Hacc' rest) as Hread.
           rewrite <- app_assoc in Hread. cbn [app] in Hread. exact Hread.
        -- apply (reads_ReadFieldBegin _ _ Htag Hid).
        -- unfold wire_tag, STOP in *. lia.
        -- exact Hfind.
        -- rewrite Hfty. apply Rv. lia.
        -- reflexivity.
    + rewrite Hfield.
      exists bl, fl. split.
      * apply (writes_bind _ _ [] bl); [apply writes_ret|exact Wl].
      * intros fuel k acc Hfuel Hk Hacc. cbn [app].
        apply Rl; try assumption.
        intros field' Hin'. apply Hacc. right. exact Hin'.
Qed.

End RoundTripStruct.

Lemma reads_bind_nil {A B : Type} (m : M binary.Buffer A)
  (k : A -> M binary.Buffer B) (bytes : list byte) (a : A) (b : B) :
  reads m bytes a -> reads (k a) [] b -> reads (bind m k) bytes b.
Proof.
  intros H1 H2. rewrite <- (app_nil_r bytes). apply (reads_bind m k bytes [] a b H1 H2).
Qed.

Section ReadValueCases.

Context {P : Type}.
Variable proto : TProtocol P.
Variable g : Globals.
Variable service : Service.

Lemma ReadValue_STRUCT (fuel : nat) (ty : Type_) :
  LookupType g service (Type_Name ty) = STRUCT ->
  ReadValue proto g service (S fuel) (Some ty) = ReadStruct proto g service fuel ty.
Proof. intros E. cbn [ReadValue]. rewrite E. reflexivity. Qed.

Lemma ReadValue_MAP (fuel : nat) (ty : Type_) :
  LookupType g service (Type_Name ty) = MAP ->
  ReadValue proto g service (S fuel) (Some ty) = ReadMap proto g service fuel ty.
Proof. intros E. cbn [ReadValue]. rewrite E. reflexivity. Qed.

Lemma ReadValue_LIST (fuel : nat) (ty : Type_) :
  LookupType g service (Type_Name ty) = LIST ->
  ReadValue proto g service (S fuel) (Some ty) = ReadList proto g service fuel ty.
Proof. intros E. cbn [ReadValue]. rewrite E. reflexivity. Qed.

End ReadValueCases.

Section RoundTripTheorem.

Variable fm : FloatModel.
Variable g : Globals.
Variable service : Service.
Hypothesis Hregistry : registry_ok g.

Lemma round_trips_LIST (ty : Type_) (l : list iface) :
  LookupType g service (Type_Name ty) = LIST ->
  has_type fm g service (Some ty) (VList l) ->
  Forall (component_round_trips fm g service) l ->
  round_trips fm g service (Some ty) (VList l).
Proof.
  intros E Hty Hl. rewrite (has_type_LIST _ _ _ _ _ E) in Hty.
  unfold round_trips.
  rewrite (WriteValue_LIST _ _ _ _ _ _ E), (normalize_LIST _ _ _ _ _ E).
  unfold WriteList, WriteList_with.
  destruct (Type_ValueType ty) as [valueType|] eqn:Hvt; [|contradiction].
  destruct Hty as [Hlen Hok].
  destruct (elements_round_trip fm g service valueType l Hl Hok)
    as (bl & fl & Wl & Rl).
  exists (list_header (LookupType g service (Type_Name valueType)) (length l) ++ bl),
    (S fl).
  split.
  - apply writes_bind; [apply writes_WriteListBegin; exact Hlen|].
    apply (writes_eq _ (bl ++ [])); [|apply app_nil_r].
    apply writes_bind; [exact Wl|apply writes_ret].
  - intros fuel Hfuel. destruct fuel as [|fuel]; [lia|].
    rewrite (ReadValue_LIST _ _ _ _ _ E). unfold ReadList, ReadList_with.
    rewrite Hvt.
    apply (reads_bind _ _ _ _
             (LookupType g service (Type_Name valueType), Z.of_nat (length l))).
    + apply reads_ReadListBegin;
        [apply LookupType_byte_tag; exact Hregistry|exact Hlen].
    + cbv beta iota. rewrite Nat2Z.id.
      apply (reads_bind_nil _ _ _ (elements_norm fm g service valueType l)).
      * apply (Rl fuel []). lia.
      * intros rest. reflexivity.
Qed.

Lemma round_trips_MAP (ty : Type_) (m : list (string * iface)) :
  LookupType g service (Type_Name ty) = MAP ->
  has_type fm g service (Some ty) (VMap m) ->
  Forall (fun kv => component_round_trips fm g service (snd kv)) m ->
  round_trips fm g service (Some ty) (VMap m).
Proof.
  intros E Hty Hm. rewrite (has_type_MAP _ _ _ _ _ E) in Hty.
  unfold round_trips.
  rewrite (WriteValue_MAP _ _ _ _ _ _ E), (normalize_MAP _ _ _ _ _ E).
  unfold WriteMap, WriteMap_with.
  destruct (Type_ValueType ty) as [valueType|] eqn:Hvt; [|contradiction].
  destruct Hty as (Hnd & Hlen & Hok).
  destruct (entries_round_trip fm g service valueType m Hm Hok Hnd)
    as (bl & fl & Wl & Rl).
  exists (map_header STRING (LookupType g service (Type_Name valueType)) (length m)
            ++ bl), (S fl).
  split.
  - apply writes_bind; [apply writes_WriteMapBegin; exact Hlen|].
    apply (writes_eq _ (bl ++ [])); [|apply app_nil_r].
    apply writes_bind; [exact Wl|apply writes_ret].
  - intros fuel Hfuel. destruct fuel as [|fuel]; [lia|].
    rewrite (ReadValue_MAP _ _ _ _ _ E). unfold ReadMap, ReadMap_with.
    rewrite Hvt.
    apply (reads_bind _ _ _ _
             (STRING, LookupType g service (Type_Name valueType),
              Z.of_nat (length m))).
    + apply reads_ReadMapBegin;
        [unfold byte_tag, STRING; lia
        |apply LookupType_byte_tag; exact Hregistry|exact Hlen].
    + cbv beta iota. rewrite Nat2Z.id.
      apply (reads_bind_nil _ _ _ (entries_norm fm g service valueType m)).
      * apply (Rl fuel []); [lia|]. intros k _ [].
      * intros rest. reflexivity.
Qed.

Lemma round_trips_STRUCT (ty : Type_) (m : list (string * iface)) :
  LookupType g service (Type_Name ty) = STRUCT ->
  has_type fm g service (Some ty) (VMap m) ->
  Forall (fun kv => component_round_trips fm g service (snd kv)) m ->
  round_trips fm g service (Some ty) (VMap m).
Proof.
  intros E Hty Hm. rewrite (has_type_STRUCT _ _ _ _ _ E) in Hty.
  unfold round_trips.
  rewrite (WriteValue_STRUCT _ _ _ _ _ _ E), (normalize_STRUCT _ _ _ _ _ E).
  unfold WriteStruct, WriteStruct_with.
  destruct (Service_Structs service !! Type_Name ty) as [thriftStruct|] eqn:Hst;
    [|contradiction].
  destruct Hty as [(Hids & Hnodup & Hnames) Hok].
  destruct (fields_round_trip fm g service (Struct_Fields thriftStruct) m
              Hids Hnodup Hm (Struct_Fields thriftStruct) [] eq_refl Hnames Hok)
    as (bf & ff & Wf & Rf).
  exists (bf ++ [x00]), (S ff). split.
  - apply (writes_bind _ _ [] (bf ++ [x00])); [apply writes_ret|].
    apply writes_bind; [exact Wf|].
    apply (writes_eq _ ([x00] ++ [])); [|reflexivity].
    apply writes_bind; [apply writes_write|apply writes_ret].
  - intros fuel Hfuel. destruct fuel as [|fuel]; [lia|].
    rewrite (ReadValue_STRUCT _ _ _ _ _ E). unfold ReadStruct, ReadStruct_with.
    rewrite Hst.
    apply (reads_bind _ _ [] (bf ++ [x00]) tt); [intros rest; reflexivity|].
    apply (reads_bind_nil _ _ _
             (fields_norm fm g service m (Struct_Fields thriftStruct))).
    + apply (Rf fuel fuel []); [lia|lia|]. intros field _ [].
    + intros rest. reflexivity.
Qed.

(** Every schema-valid value round-trips. *)
Lemma has_type_round_trips (v : iface) : component_round_trips fm g service v.
Proof.
  induction v as [ | b | k n | f | f | s | l IH | m IH ] using iface_ind';
    intros [ty|] Hty; try (exfalso; exact (has_type_None _ _ _ _ Hty));
    pose proof (has_type_tag _ _ _ _ _ Hty) as Htag; simpl in Htag;
    destruct Htag as [E|[E|[E|[E|[E|[E|[E|[E|[E|[E|[]]]]]]]]]]]; symmetry in E;
    try (apply (round_trips_BOOL _ _ _ _ _ Hty E));
    try (apply (round_trips_BYTE _ _ _ _ _ Hty E));
    try (apply (round_trips_DOUBLE _ _ _ _ _ Hty E));
    try (apply (round_trips_I16 _ _ _ _ _ Hty E));
    try (apply (round_trips_I32 _ _ _ _ _ Hty E));
    try (apply (round_trips_I64 _ _ _ _ _ Hty E));
    try (apply (round_trips_STRING _ _ _ _ _ Hty E));
    try (exfalso; rewrite (has_type_STRUCT _ _ _ _ _ E) in Hty;
         destruct (Service_Structs service !! Type_Name ty); exact Hty);
    try (exfalso; rewrite (has_type_MAP _ _ _ _ _ E) in Hty;
         destruct (Type_ValueType ty); exact Hty);
    try (exfalso; rewrite (has_type_LIST _ _ _ _ _ E) in Hty;
         destruct (Type_ValueType ty); exact Hty).
  - apply (round_trips_LIST _ _ E Hty IH).
  - apply (round_trips_STRUCT _ _ E Hty IH).
  - apply (round_trips_MAP _ _ E Hty IH).
Qed.

End RoundTripTheorem.


(** What [normalize] keeps of a struct value, key by key: the value of a
    declared field, normalized with the field's type, and nothing else. *)
Lemma fields_norm_keys (fm : FloatModel) (g : Globals) (service : Service)
  (m : list (string * iface)) (fields : list Field) (k : string) :
  In k (map fst (fields_norm fm g service m fields)) ->
  In k (map Field_Name fields).
Proof.
  induction fields as [|field fields IH]; cbn [fields_norm]; [tauto|].
  rewrite with_map_get_spec, map_app. intros H. apply in_app_or in H.
  simpl. destruct H as [H|H]; [|right; exact (IH H)].
  destruct (map_get (Field_Name field) m); simpl in H; tauto.
Qed.

Lemma map_get_notin (k : string) (m : list (string * iface)) :
  ~ In k (map fst m) -> map_get k m = None.
Proof.
  unfold map_get. induction m as [|[k' x] m IH]; simpl; [reflexivity|].
  intros H. destruct (String.eqb k' k) eqn:He.
  - apply String.eqb_eq in He. tauto.
  - apply IH. tauto.
Qed.

Lemma normalize_struct_lookup (fm : FloatModel) (g : Globals) (service : Service)
  (m : list (string * iface)) (fields : list Field) (k : string) :
  NoDup (map Field_Name fields) ->
  map_get k (fields_norm fm g service m fields)
  = match find (fun field => String.eqb (Field_Name field) k) fields with
    | Some field =>
        option_map (normalize fm g service (Field_Type field)) (map_get k m)
    | None => None
    end.
Proof.
  induction fields as [|field fields IH]; intros Hnd; [reflexivity|].
  simpl in Hnd. apply NoDup_cons in Hnd as [Hfresh Hnd].
  cbn [fields_norm find]. rewrite with_map_get_spec.
  destruct (String.eqb (Field_Name field) k) eqn:He.
  - apply String.eqb_eq in He. subst k.
    destruct (map_get (Field_Name field) m) as [x|]; simpl.
    + unfold map_get. simpl. rewrite String.eqb_refl. reflexivity.
    + apply map_get_notin. intros H. apply fields_norm_keys in H.
      apply Hfresh, list_elem_of_In. exact H.
  - destruct (map_get (Field_Name field) m) as [x|]; simpl.
    + unfold map_get. simpl. rewrite He. apply (IH Hnd).
    + apply (IH Hnd).
Qed.

Lemma normalize_sample_person :
  normalize Sample.floats Sample.globals Sample.service
    (Sample.ty "Person") sample_person
  = VMap [("name"%string, VString "bob"); ("age"%string, VInt Kint32 42)].
Proof. vm_compute. reflexivity. Qed.

Lemma has_type_sample_person :
  has_type Sample.floats Sample.globals Sample.service
    (Sample.ty "Person") sample_person.
Proof.
  unfold Sample.ty, sample_person.
  rewrite has_type_STRUCT by (vm_compute; reflexivity).
  change (Service_Structs Sample.service !! Type_Name (mkType "Person" None None))
    with (Some Sample.Person).
  split.
  - unfold struct_ok. cbn [Struct_Fields Sample.Person map Field_ID Field_Name].
    split; [|split].
    + repeat (apply List.Forall_cons; [unfold in_int; simpl; lia|]).
      apply List.Forall_nil.
    + repeat (apply NoDup_cons_2;
              [intros H;
               repeat (apply elem_of_cons in H as [H|H]; [discriminate H|]);
               apply elem_of_nil in H; exact H|]).
      apply NoDup_nil_2.
    + repeat (apply NoDup_cons_2;
              [intros H;
               repeat (apply elem_of_cons in H as [H|H]; [discriminate H|]);
               apply elem_of_nil in H; exact H|]).
      apply NoDup_nil_2.
  - cbn [fields_ok Struct_Fields Sample.Person]. rewrite !with_map_get_spec.
    cbn [Field_Name Field_Type Sample.ty].
    change (map_get "name" _) with (Some (VString "bob")).
    change (map_get "age" _) with (Some (VString "42")).
    unfold Sample.ty.
    rewrite has_type_STRING by (vm_compute; reflexivity).
    rewrite has_type_I32 by (vm_compute; reflexivity).
    split; [|split];
      [unfold wire_length; simpl; lia | vm_compute; reflexivity | exact I].
Defined.

Lemma registry_ok_Sample : registry_ok Sample.globals.
Proof.
  apply (NewService_registry_ok Sample.schema "People" Globals_initial
           Sample.globals (Ok Sample.service) registry_ok_initial
           NewService_Sample_schema).
Defined.



(** * Further properties of the code *)

(** ** [NewService]: what the registry and the struct table hold *)

Lemma assoc_notin {A : Type} (k : string) (m : list (string * A)) :
  ~ In k (map fst m) -> assoc k m = None.
Proof.
  induction m as [|[k' x] m IH]; simpl; [reflexivity|].
  intros H. destruct (String.eqb k' k) eqn:He.
  - apply String.eqb_eq in He. tauto.
  - apply IH. tauto.
Qed.

Lemma assoc_In {A : Type} (k : string) (m : list (string * A)) (x : A) :
  assoc k m = Some x -> In k (map fst m).
Proof.
  induction m as [|[k' y] m IH]; simpl; [discriminate|].
  destruct (String.eqb k' k) eqn:He.
  - apply String.eqb_eq in He. tauto.
  - intros H. right. exact (IH H).
Qed.

Lemma range_insert_lookup {A B : Type} (f : A -> B) (m : list (string * A)) :
  forall (dst : gmap string B) (k : string),
    NoDup (map fst m) ->
    range_insert f m dst !! k
    = match assoc k m with Some x => Some (f x) | None => dst !! k end.
Proof.
  unfold range_insert.
  induction m as [|[k' x] m IH]; intros dst k Hnd; simpl in *; [reflexivity|].
  apply NoDup_cons in Hnd as [Hfresh Hnd]. rewrite (IH _ _ Hnd).
  destruct (String.eqb k' k) eqn:He.
  - apply String.eqb_eq in He. subst k'.
    rewrite assoc_notin by (rewrite <- list_elem_of_In; exact Hfresh).
    apply lookup_insert_eq.
  - destruct (assoc k m); [reflexivity|].
    apply lookup_insert_ne. intros ->. rewrite String.eqb_refl in He. discriminate.
Qed.

Lemma range_insert_lookup_const {A B : Type} (c : B) (m : list (string * A)) :
  forall (dst : gmap string B) (k : string),
    In k (map fst m) -> range_insert (fun _ => c) m dst !! k = Some c.
Proof.
  induction m as [|[k' x] m IH]; intros dst k Hin; simpl in Hin; [contradiction|].
  destruct (in_dec string_dec k (map fst m)) as [Hm|Hm].
  - unfold range_insert in *. simpl. apply IH. exact Hm.
  - destruct Hin as [->|Hin]; [|contradiction].
    change (range_insert (fun _ => c) ((k, x) :: m) dst)
      with (range_insert (fun _ : A => c) m (<[k := c]> dst)).
    rewrite range_insert_lookup_notin by exact Hm. apply lookup_insert_eq.
Qed.

Lemma typedefs_loop_frame (typedefs : list (string * Type_)) :
  forall (types types' : gmap string TType) (e : option error) (k : string),
    typedefs_loop typedefs types = (types', e) ->
    ~ In k (map fst typedefs) ->
    types' !! k = types !! k.
Proof.
  induction typedefs as [|[name thriftType] rest IH]; intros types types' e k H Hk;
    simpl in *.
  - inversion H; subst. reflexivity.
  - destruct (types !! Type_Name thriftType) as [t|] eqn:Ht.
    + rewrite (IH _ _ _ _ H) by tauto.
      apply lookup_insert_ne. intros ->. tauto.
    + inversion H; subst. apply lookup_insert_ne. intros ->. tauto.
Qed.

Lemma typedefs_loop_app (pre post : list (string * Type_)) :
  forall types : gmap string TType,
    typedefs_loop (pre ++ post) types
    = match typedefs_loop pre types with
      | (types1, None) => typedefs_loop post types1
      | (types1, Some e) => (types1, Some e)
      end.
Proof.
  induction pre as [|[name thriftType] pre IH]; intros types; simpl; [reflexivity|].
  destruct (types !! Type_Name thriftType); [apply IH|reflexivity].
Qed.

(** [NewService] from the typedef loop on. *)
Lemma NewService_by_typedefs_loop (parsedThrift : Thrift) (name : string)
  (g : Globals) (service : parser.Service) :
  assoc name (Thrift_Services parsedThrift) = Some service ->
  NewService parsedThrift name g
  = match typedefs_loop (Thrift_Typedefs parsedThrift)
            (types_before_typedefs parsedThrift g) with
    | (types, Some e) => (Err e, {| defultTypeNameMap := types |})
    | (types, None) =>
        (Ok {| Service_parser := service;
               Service_Structs :=
                 range_insert id (Thrift_Structs parsedThrift)
                   (range_insert id (Thrift_Exceptions parsedThrift) ∅);
               Service_Types := ref_defultTypeNameMap |},
         {| defultTypeNameMap := types |})
    end.
Proof.
  intros Hs. unfold NewService, types_before_typedefs. rewrite Hs. reflexivity.
Qed.

(** X1. The struct table of a constructed service finds a name among the
    schema's structs first and among its exceptions otherwise, and the service
    descriptor is the one registered under the requested name. *)
Theorem NewService_struct_table (parsedThrift : Thrift) (name : string)
  (g g' : Globals) (service : Service) :
  NewService parsedThrift name g = (Ok service, g') ->
  NoDup (map fst (Thrift_Structs parsedThrift)) ->
  NoDup (map fst (Thrift_Exceptions parsedThrift)) ->
  assoc name (Thrift_Services parsedThrift) = Some (Service_parser service)
  /\ forall n : string,
       Service_Structs service !! n
       = match assoc n (Thrift_Structs parsedThrift) with
         | Some thriftStruct => Some thriftStruct
         | None => assoc n (Thrift_Exceptions parsedThrift)
         end.
Proof.
  intros Hnew Hs He.
  destruct (assoc name (Thrift_Services parsedThrift)) as [svc|] eqn:Hsvc;
    [|unfold NewService in Hnew; rewrite Hsvc in Hnew; discriminate].
  rewrite (NewService_by_typedefs_loop _ _ _ _ Hsvc) in Hnew.
  destruct (typedefs_loop _ _) as [types [e|]]; [discriminate|].
  inversion Hnew; subst. simpl. split; [reflexivity|].
  intros n. rewrite (range_insert_lookup id _ _ _ Hs).
  destruct (assoc n (Thrift_Structs parsedThrift)); [reflexivity|].
  rewrite (range_insert_lookup id _ _ _ He).
  destruct (assoc n (Thrift_Exceptions parsedThrift)); [reflexivity|].
  apply lookup_empty.
Qed.

Lemma NoDup_singleton_key (k : string) : NoDup [k].
Proof. apply NoDup_cons_2; [apply not_elem_of_nil|apply NoDup_nil_2]. Qed.

(** Witness of [NewService_struct_table] on the sample schema. *)
Lemma NewService_struct_table_witness :
  Service_Structs Sample.service !! "NotFound" = Some Sample.NotFound.
Proof.
  exact (proj2 (NewService_struct_table Sample.schema "People" Globals_initial
                  Sample.globals Sample.service NewService_Sample_schema
                  (NoDup_singleton_key "Person") (NoDup_singleton_key "NotFound"))
           "NotFound"%string).
Defined.

(** X2. Whether construction succeeds or stops at a typedef, the package-level
    registry afterwards maps every struct and exception name of the schema to
    STRUCT and every enum name to I32, unless a later loop of [NewService]
    rebinds the name. *)
Theorem NewService_registers_declared_names (parsedThrift : Thrift)
  (name : string) (g g' : Globals) (r : outcome Service) :
  NewService parsedThrift name g = (r, g') ->
  assoc name (Thrift_Services parsedThrift) <> None ->
  (forall n : string,
      In n (map fst (Thrift_Structs parsedThrift))
      \/ In n (map fst (Thrift_Exceptions parsedThrift)) ->
      ~ In n (map fst (Thrift_Typedefs parsedThrift)) ->
      defultTypeNameMap g' !! n = Some STRUCT)
  /\ (forall n : string,
         In n (map fst (Thrift_Enums parsedThrift)) ->
         ~ In n (map fst (Thrift_Structs parsedThrift)) ->
         ~ In n (map fst (Thrift_Exceptions parsedThrift)) ->
         ~ In n (map fst (Thrift_Typedefs parsedThrift)) ->
         defultTypeNameMap g' !! n = Some I32).
Proof.
  intros Hnew Hsvc.
  destruct (assoc name (Thrift_Services parsedThrift)) as [svc|] eqn:Hs;
    [|congruence].
  rewrite (NewService_by_typedefs_loop _ _ _ _ Hs) in Hnew.
  destruct (typedefs_loop _ _) as [types e] eqn:Hloop.
  assert (Hg' : defultTypeNameMap g' = types)
    by (destruct e; inversion Hnew; reflexivity).
  rewrite Hg'. split.
  - intros n Hin Htd. rewrite (typedefs_loop_frame _ _ _ _ _ Hloop Htd).
    unfold types_before_typedefs.
    destruct (in_dec string_dec n (map fst (Thrift_Exceptions parsedThrift)))
      as [Hx|Hx].
    + apply range_insert_lookup_const. exact Hx.
    + rewrite range_insert_lookup_notin by exact Hx.
      apply range_insert_lookup_const. tauto.
  - intros n Hin Hns Hnx Htd. rewrite (typedefs_loop_frame _ _ _ _ _ Hloop Htd).
    unfold types_before_typedefs.
    rewrite !range_insert_lookup_notin by assumption.
    apply range_insert_lookup_const. exact Hin.
Qed.

(** Witness of [NewService_registers_declared_names]: the construction from
    the broken sample schema fails, and its names are registered all the same. *)
Lemma NewService_registers_declared_names_witness :
  defultTypeNameMap
    (snd (NewService Sample.broken_schema "People" Globals_initial)) !! "NotFound"
  = Some STRUCT.
Proof.
  refine (proj1 (NewService_registers_declared_names Sample.broken_schema
                   "People" Globals_initial _ _ (surjective_pairing _) _)
            "NotFound"%string _ _).
  - vm_compute. discriminate.
  - right. left. reflexivity.
  - simpl. intros [H|[H|[]]]; discriminate H.
Defined.

(** X3. [NewService] never changes the tag of a name that the schema does not
    declare as an enum, struct, exception or typedef; and with a service name
    that the schema does not have it fails without changing the registry at
    all. *)
Theorem NewService_frame (parsedThrift : Thrift) (name : string)
  (g g' : Globals) (r : outcome Service) :
  NewService parsedThrift name g = (r, g') ->
  (forall n : string,
      ~ In n (map fst (Thrift_Enums parsedThrift)) ->
      ~ In n (map fst (Thrift_Structs parsedThrift)) ->
      ~ In n (map fst (Thrift_Exceptions parsedThrift)) ->
      ~ In n (map fst (Thrift_Typedefs parsedThrift)) ->
      defultTypeNameMap g' !! n = defultTypeNameMap g !! n)
  /\ (assoc name (Thrift_Services parsedThrift) = None ->
      r = Err (ErrServiceNotExists name) /\ g' = g).
Proof.
  intros Hnew. split.
  - intros n He Hs Hx Ht.
    destruct (assoc name (Thrift_Services parsedThrift)) as [svc|] eqn:Hsvc.
    + rewrite (NewService_by_typedefs_loop _ _ _ _ Hsvc) in Hnew.
      destruct (typedefs_loop _ _) as [types e] eqn:Hloop.
      assert (Hg' : defultTypeNameMap g' = types)
        by (destruct e; inversion Hnew; reflexivity).
      rewrite Hg', (typedefs_loop_frame _ _ _ _ _ Hloop Ht).
      unfold types_before_typedefs.
      rewrite !range_insert_lookup_notin by assumption. reflexivity.
    + unfold NewService in Hnew. rewrite Hsvc in Hnew.
      inversion Hnew; subst. reflexivity.
  - intros Hsvc. unfold NewService in Hnew. rewrite Hsvc in Hnew.
    inversion Hnew; subst. split; reflexivity.
Qed.

(** Witness of [NewService_frame]: constructing the sample service leaves the
    tag of ["string"] alone. *)
Lemma NewService_frame_witness :
  defultTypeNameMap Sample.globals !! "string"
  = defultTypeNameMap Globals_initial !! "string".
Proof.
  refine (proj1 (NewService_frame Sample.schema "People" Globals_initial
                   Sample.globals (Ok Sample.service) NewService_Sample_schema)
            "string"%string _ _ _ _);
    simpl; intros H; repeat (destruct H as [H|H]; [discriminate H|]); exact H.
Defined.

(** X4. The typedef loop depends on the order in which [range] visits the
    typedefs. When the typedefs visited before [alias] resolve, and the target
    of [alias] is neither in the table the loop started from nor among those
    earlier typedefs, construction fails on [alias], reports its target, and
    leaves [alias] bound to STOP in the package-level registry: also when the
    target is a typedef that would have been visited later. *)
Theorem NewService_typedef_visited_too_early (parsedThrift : Thrift)
  (name : string) (g : Globals)
  (pre post : list (string * Type_)) (alias : string) (target : Type_)
  (types1 : gmap string TType) :
  assoc name (Thrift_Services parsedThrift) <> None ->
  Thrift_Typedefs parsedThrift = pre ++ (alias, target) :: post ->
  typedefs_loop pre (types_before_typedefs parsedThrift g) = (types1, None) ->
  types_before_typedefs parsedThrift g !! Type_Name target = None ->
  ~ In (Type_Name target) (map fst pre) ->
  NewService parsedThrift name g
  = (Err (ErrTypeNotFound (Type_Name target)),
     {| defultTypeNameMap := <[alias := STOP]> types1 |}).
Proof.
  intros Hsvc Htd Hpre Hnone Hfresh.
  destruct (assoc name (Thrift_Services parsedThrift)) as [svc|] eqn:Hs;
    [|congruence].
  rewrite (NewService_by_typedefs_loop _ _ _ _ Hs), Htd, typedefs_loop_app, Hpre.
  simpl. rewrite (typedefs_loop_lookup_notin _ _ _ _ Hpre Hfresh), Hnone.
  reflexivity.
Qed.

(** Witness of [NewService_typedef_visited_too_early]: [typedef A B] visited
    before [typedef i64 A]. *)
Lemma NewService_typedef_visited_too_early_witness :
  NewService Chain.b_first "Ping" Globals_initial
  = (Err (ErrTypeNotFound "A"),
     {| defultTypeNameMap := <["B"%string := STOP]> defultTypeNameMap_initial |}).
Proof.
  refine (NewService_typedef_visited_too_early Chain.b_first "Ping"
            Globals_initial [] [("A"%string, mkType "i64" None None)]
            "B" (mkType "A" None None) defultTypeNameMap_initial _ _ _ _ _).
  - vm_compute. discriminate.
  - reflexivity.
  - reflexivity.
  - vm_compute. reflexivity.
  - simpl. tauto.
Defined.

(** X5. When construction succeeds, a typedef resolves to the tag of the name
    it aliases also when that name is itself a typedef, provided [range]
    visited that typedef earlier. *)
Theorem NewService_typedef_chain (parsedThrift : Thrift) (name : string)
  (g g' : Globals) (service : Service)
  (pre post : list (string * Type_)) (alias : string) (target : Type_) :
  NewService parsedThrift name g = (Ok service, g') ->
  Thrift_Typedefs parsedThrift = pre ++ (alias, target) :: post ->
  ~ In alias (map fst post) ->
  ~ In (Type_Name target) (map fst post) ->
  alias <> Type_Name target ->
  LookupType g' service alias = LookupType g' service (Type_Name target)
  /\ exists t : TType, defultTypeNameMap g' !! alias = Some t.
Proof.
  intros Hnew Htd Halias Htarget Hne.
  apply NewService_typedefs in Hnew as [Hloop Href].
  rewrite Htd, typedefs_loop_app in Hloop.
  destruct (typedefs_loop pre _) as [types1 [e|]]; [discriminate|].
  simpl in Hloop.
  destruct (types1 !! Type_Name target) as [t|] eqn:Ht; [|discriminate].
  unfold LookupType. rewrite Href. simpl.
  rewrite (typedefs_loop_lookup_notin _ _ _ alias Hloop Halias).
  rewrite (typedefs_loop_lookup_notin _ _ _ (Type_Name target) Hloop Htarget).
  rewrite lookup_insert_eq, lookup_insert_ne by exact Hne.
  rewrite Ht. split; [reflexivity|]. exists t. reflexivity.
Qed.

(** Witness of [NewService_typedef_chain]: [typedef i64 A] visited before
    [typedef A B]. *)
Lemma NewService_typedef_chain_witness :
  LookupType (snd (NewService Chain.a_first "Ping" Globals_initial))
    (mkService Sample.Ping ∅ ref_defultTypeNameMap) "B"
  = LookupType (snd (NewService Chain.a_first "Ping" Globals_initial))
      (mkService Sample.Ping ∅ ref_defultTypeNameMap) "A".
Proof.
  refine (proj1 (NewService_typedef_chain Chain.a_first "Ping" Globals_initial
                   _ (mkService Sample.Ping ∅ ref_defultTypeNameMap)
                   [("A"%string, mkType "i64" None None)] [] "B"
                   (mkType "A" None None) _ _ _ _ _)).
  - vm_compute. reflexivity.
  - reflexivity.
  - simpl. tauto.
  - simpl. tauto.
  - discriminate.
Defined.


(** ** [WriteStruct] and [WriteRequest] *)

Lemma bind_ext {P A B : Type} (m : M P A) (k1 k2 : A -> M P B) (p : P) :
  (forall a p', k1 a p' = k2 a p') -> bind m k1 p = bind m k2 p.
Proof.
  intros H. unfold bind. destruct (m p) as [[a| | |] p']; auto.
Qed.

Lemma bind_assoc {P A B C : Type} (m : M P A) (k1 : A -> M P B)
  (k2 : B -> M P C) (p : P) :
  bind (bind m k1) k2 p = bind m (fun a => bind (k1 a) k2) p.
Proof.
  unfold bind. destruct (m p) as [[a| | |] p']; reflexivity.
Qed.

Section WriteStructFacts.

Context {P : Type}.
Variable proto : TProtocol P.
Variable fm : FloatModel.
Variable g : Globals.
Variable service : Service.

Lemma WriteStruct_unfold (ty : Type_) (thriftStruct : Struct)
  (m : list (string * iface)) :
  Service_Structs service !! Type_Name ty = Some thriftStruct ->
  WriteStruct proto fm g service ty (VMap m)
  = (let* _ := WriteStructBegin proto (Struct_Name thriftStruct) in
     let* _ := WriteStruct_fields proto fm g service m (Struct_Fields thriftStruct) in
     let* _ := WriteFieldStop proto in
     WriteStructEnd proto).
Proof.
  intros Hst. unfold WriteStruct, WriteStruct_with. rewrite Hst. reflexivity.
Qed.

Lemma WriteStruct_fields_app (m : list (string * iface)) (pre post : list Field)
  (p : P) :
  WriteStruct_fields proto fm g service m (pre ++ post) p
  = bind (WriteStruct_fields proto fm g service m pre)
      (fun _ => WriteStruct_fields proto fm g service m post) p.
Proof.
  revert p. induction pre as [|field pre IH]; intros p; [reflexivity|].
  cbn [app WriteStruct_fields]. rewrite bind_assoc.
  apply bind_ext. intros _ p'. apply IH.
Qed.

Lemma WriteStruct_fields_absent_optional (m : list (string * iface))
  (pre rest : list Field) (field : Field) (p : P) :
  map_get (Field_Name field) m = None ->
  Field_Optional field = true ->
  WriteStruct_fields proto fm g service m (pre ++ field :: rest) p
  = WriteStruct_fields proto fm g service m (pre ++ rest) p.
Proof.
  intros Hget Hopt. rewrite !WriteStruct_fields_app.
  apply bind_ext. intros _ p'. cbn [WriteStruct_fields].
  rewrite with_map_get_spec, Hget, Hopt. reflexivity.
Qed.

Lemma map_get_set_ne (k k' : string) (v : iface) (m : list (string * iface)) :
  k' <> k -> map_get k' (map_set k v m) = map_get k' m.
Proof.
  intros Hne. unfold map_get.
  induction m as [|[k0 x] m IH]; simpl.
  - destruct (String.eqb k k') eqn:He; [|reflexivity].
    apply String.eqb_eq in He. congruence.
  - destruct (String.eqb k0 k) eqn:He; simpl.
    + apply String.eqb_eq in He. subst k0.
      destruct (String.eqb k k') eqn:He'; [|reflexivity].
      apply String.eqb_eq in He'. congruence.
    + rewrite IH. reflexivity.
Qed.

Lemma WriteStruct_fields_same_lookups (m m' : list (string * iface))
  (fields : list Field) (p : P) :
  (forall field, In field fields ->
     map_get (Field_Name field) m' = map_get (Field_Name field) m) ->
  WriteStruct_fields proto fm g service m' fields p
  = WriteStruct_fields proto fm g service m fields p.
Proof.
  revert p. induction fields as [|field fields IH]; intros p Hsame; [reflexivity|].
  cbn [WriteStruct_fields]. rewrite !with_map_get_spec.
  rewrite (Hsame field) by (left; reflexivity).
  apply bind_ext. intros _ p'. apply IH.
  intros field' Hin. apply Hsame. right. exact Hin.
Qed.

End WriteStructFacts.

(** X6. Required-field enforcement. When the value has no entry for a declared
    field that is not optional, [WriteStruct] fails with the field-required
    error once the fields declared before it have been written: the output
    keeps the begun struct and those fields, and no stop marker is written.
    When the missing field is optional, the struct is written as if the
    descriptor did not declare it. *)
Theorem WriteStruct_absent_field {P : Type} (proto : TProtocol P)
  (fm : FloatModel) (g : Globals) (service : Service) (ty : Type_)
  (thriftStruct : Struct) (m : list (string * iface))
  (pre rest : list Field) (field : Field) :
  Service_Structs service !! Type_Name ty = Some thriftStruct ->
  Struct_Fields thriftStruct = pre ++ field :: rest ->
  map_get (Field_Name field) m = None ->
  (Field_Optional field = false ->
   forall p p0 p1 : P,
     WriteStructBegin proto (Struct_Name thriftStruct) p = (Ok tt, p0) ->
     WriteStruct_fields proto fm g service m pre p0 = (Ok tt, p1) ->
     WriteStruct proto fm g service ty (VMap m) p
     = (Err (ErrFieldRequired (Field_Name field)), p1))
  /\ (Field_Optional field = true ->
      forall (ty' : Type_) (thriftStruct' : Struct) (p : P),
        Service_Structs service !! Type_Name ty' = Some thriftStruct' ->
        Struct_Name thriftStruct' = Struct_Name thriftStruct ->
        Struct_Fields thriftStruct' = pre ++ rest ->
        WriteStruct proto fm g service ty (VMap m) p
        = WriteStruct proto fm g service ty' (VMap m) p).
Proof.
  intros Hst Hfields Hget. split.
  - intros Hreq p p0 p1 Hbegin Hpre.
    rewrite (WriteStruct_unfold _ _ _ _ _ _ _ Hst), Hfields.
    unfold bind at 1. rewrite Hbegin. unfold bind at 1.
    rewrite WriteStruct_fields_app. unfold bind at 1. rewrite Hpre.
    cbn [WriteStruct_fields]. rewrite with_map_get_spec, Hget, Hreq.
    reflexivity.
  - intros Hopt ty' thriftStruct' p Hst' Hname Hfields'.
    rewrite (WriteStruct_unfold _ _ _ _ _ _ _ Hst),
      (WriteStruct_unfold _ _ _ _ _ _ _ Hst'), Hfields, Hfields', Hname.
    apply bind_ext. intros _ p'. unfold bind at 1 3.
    rewrite (WriteStruct_fields_absent_optional _ _ _ _ _ _ _ _ _ Hget Hopt).
    reflexivity.
Qed.

(** Witness of [WriteStruct_absent_field]: a [Person] without a name. *)
Lemma WriteStruct_absent_field_witness :
  WriteStruct binary.protocol Sample.floats Sample.globals Sample.service
    (mkType "Person" None None) (VMap [("age"%string, VInt Kint 3)]) []
  = (Err (ErrFieldRequired "name"), []).
Proof.
  refine (proj1 (WriteStruct_absent_field binary.protocol Sample.floats
                   Sample.globals Sample.service (mkType "Person" None None)
                   Sample.Person [("age"%string, VInt Kint 3)] []
                   [mkField 2 "age" true (Sample.ty "i32")]
                   (mkField 1 "name" false (Sample.ty "string")) _ _ _)
            _ [] [] [] _ _);
    first [ reflexivity | vm_compute; reflexivity ].
Defined.

(** X7. Keys of the value that the struct does not declare play no part:
    setting such a key in the mapping changes nothing in what [WriteStruct]
    does. *)
Theorem WriteStruct_ignores_undeclared_key {P : Type} (proto : TProtocol P)
  (fm : FloatModel) (g : Globals) (service : Service) (ty : Type_)
  (thriftStruct : Struct) (m : list (string * iface)) (k : string) (v : iface)
  (p : P) :
  Service_Structs service !! Type_Name ty = Some thriftStruct ->
  ~ In k (map Field_Name (Struct_Fields thriftStruct)) ->
  WriteStruct proto fm g service ty (VMap (map_set k v m)) p
  = WriteStruct proto fm g service ty (VMap m) p.
Proof.
  intros Hst Hk.
  rewrite !(WriteStruct_unfold _ _ _ _ _ _ _ Hst).
  apply bind_ext. intros _ p'. unfold bind at 1 3.
  rewrite (WriteStruct_fields_same_lookups proto fm g service m (map_set k v m));
    [reflexivity|].
  intros field Hin. apply map_get_set_ne. intros Heq. apply Hk. rewrite <- Heq.
  apply in_map. exact Hin.
Qed.

(** Witness of [WriteStruct_ignores_undeclared_key]: the key ["extra"] of a
    [Person]. *)
Lemma WriteStruct_ignores_undeclared_key_witness :
  WriteStruct binary.protocol Sample.floats Sample.globals Sample.service
    (mkType "Person" None None)
    (VMap (map_set "extra" (VBool true) [("name"%string, VString "bob")])) []
  = WriteStruct binary.protocol Sample.floats Sample.globals Sample.service
      (mkType "Person" None None) (VMap [("name"%string, VString "bob")]) [].
Proof.
  refine (WriteStruct_ignores_undeclared_key binary.protocol Sample.floats
            Sample.globals Sample.service (mkType "Person" None None)
            Sample.Person [("name"%string, VString "bob")] "extra"
            (VBool true) [] _ _).
  - vm_compute. reflexivity.
  - simpl. intros [H|[H|[]]]; discriminate H.
Defined.

Section WriteRequestFacts.

Context {P : Type}.
Variable proto : TProtocol P.
Variable fm : FloatModel.
Variable g : Globals.
Variable service : Service.

Lemma WriteRequest_unfold (methodName : string) (method : Method)
  (args : list iface) :
  Service_Methods (Service_parser service) !! methodName = Some method ->
  WriteRequest proto fm g service methodName args
  = (let* _ := WriteStructBegin proto
                 (Service_Name (Service_parser service)
                    ++ Method_Name method ++ "Args")%string in
     let* _ := WriteRequest_loop proto fm g service (Method_Arguments method) args in
     let* _ := WriteFieldStop proto in
     WriteStructEnd proto).
Proof. intros Hm. unfold WriteRequest. rewrite Hm. reflexivity. Qed.

Lemma WriteRequest_loop_app (pre post : list Field) (args : list iface) (p : P) :
  WriteRequest_loop proto fm g service (pre ++ post) args p
  = bind (WriteRequest_loop proto fm g service pre args)
      (fun _ => WriteRequest_loop proto fm g service post args) p.
Proof.
  revert p. induction pre as [|argument pre IH]; intros p; [reflexivity|].
  cbn [app WriteRequest_loop].
  destruct (Field_ID argument >? Z.of_nat (length args)); [reflexivity|].
  rewrite bind_assoc. apply bind_ext. intros arg p'.
  rewrite bind_assoc. apply bind_ext. intros _ p''. apply IH.
Qed.

Lemma request_mapping_keys (arguments : list Field) (args : list iface)
  (k : string) :
  In k (map fst (request_mapping arguments args)) ->
  In k (map Field_Name arguments).
Proof.
  induction arguments as [|argument arguments IH]; simpl; [tauto|].
  destruct (nth_error args (Z.to_nat (Field_ID argument - 1))); simpl; tauto.
Qed.

Lemma map_get_request_mapping (arguments : list Field) (args : list iface)
  (argument : Field) :
  NoDup (map Field_Name arguments) ->
  In argument arguments ->
  map_get (Field_Name argument) (request_mapping arguments args)
  = nth_error args (Z.to_nat (Field_ID argument - 1)).
Proof.
  induction arguments as [|a arguments IH]; intros Hnd Hin; [contradiction|].
  simpl in Hnd. apply NoDup_cons in Hnd as [Hfresh Hnd]. simpl.
  destruct Hin as [->|Hin].
  - destruct (nth_error args (Z.to_nat (Field_ID argument - 1))) as [arg|] eqn:Hn.
    + unfold map_get. simpl. rewrite String.eqb_refl. reflexivity.
    + apply map_get_notin. intros Hk. apply request_mapping_keys in Hk.
      apply Hfresh, list_elem_of_In. exact Hk.
  - assert (Hne : Field_Name a <> Field_Name argument).
    { intros Heq. apply Hfresh. rewrite Heq.
      apply list_elem_of_In, in_map. exact Hin. }
    destruct (nth_error args (Z.to_nat (Field_ID a - 1))).
    + unfold map_get. simpl.
      replace (String.eqb (Field_Name a) (Field_Name argument)) with false
        by (symmetry; apply String.eqb_neq; exact Hne).
      apply (IH Hnd Hin).
    + apply (IH Hnd Hin).
Qed.

Lemma WriteRequest_loop_as_fields (m : list (string * iface))
  (arguments : list Field) (args : list iface) (p : P) :
  (forall argument, In argument arguments ->
     1 <= Field_ID argument <= Z.of_nat (length args)
     /\ map_get (Field_Name argument) m
        = nth_error args (Z.to_nat (Field_ID argument - 1))) ->
  WriteRequest_loop proto fm g service arguments args p
  = WriteStruct_fields proto fm g service m arguments p.
Proof.
  revert p. induction arguments as [|argument arguments IH]; intros p Hargs;
    [reflexivity|].
  destruct (Hargs argument (or_introl eq_refl)) as [Hid Hget].
  cbn [WriteRequest_loop WriteStruct_fields].
  replace (Field_ID argument >? Z.of_nat (length args)) with false
    by (symmetry; rewrite Z.gtb_ltb; apply Z.ltb_ge; lia).
  rewrite with_map_get_spec, Hget.
  destruct (nth_error args (Z.to_nat (Field_ID argument - 1))) as [arg|] eqn:Hn.
  - unfold bind at 1.
    rewrite (index_slice_in_range args (Field_ID argument - 1) arg p)
      by (assumption || lia).
    apply bind_ext. intros _ p'. apply IH.
    intros a Hin. apply Hargs. right. exact Hin.
  - apply nth_error_None in Hn. lia.
Qed.

End WriteRequestFacts.

(** X8. Arity. When the caller passes fewer positional arguments than the ID
    of a declared argument, [WriteRequest] fails with the argument-missing
    error once the arguments declared before it have been written; no stop
    marker is written. When a declared argument has an ID below 1,
    [args[argument.ID-1]] is out of range and the call panics. *)
Theorem WriteRequest_argument_out_of_range {P : Type} (proto : TProtocol P)
  (fm : FloatModel) (g : Globals) (service : Service) (methodName : string)
  (method : Method) (args : list iface) (pre rest : list Field)
  (argument : Field) (p p0 p1 : P) :
  Service_Methods (Service_parser service) !! methodName = Some method ->
  Method_Arguments method = pre ++ argument :: rest ->
  WriteStructBegin proto
    (Service_Name (Service_parser service) ++ Method_Name method ++ "Args")%string p
  = (Ok tt, p0) ->
  WriteRequest_loop proto fm g service pre args p0 = (Ok tt, p1) ->
  (Z.of_nat (length args) < Field_ID argument ->
   WriteRequest proto fm g service methodName args p
   = (Err (ErrArgNotExists (Field_ID argument) (Field_Name argument)), p1))
  /\ (Field_ID argument < 1 ->
      WriteRequest proto fm g service methodName args p
      = (Panic (IndexOutOfRange (Field_ID argument - 1) (Z.of_nat (length args))),
         p1)).
Proof.
  intros Hm Hargs Hbegin Hpre.
  assert (Hhead : WriteRequest proto fm g service methodName args p
                  = bind (WriteRequest_loop proto fm g service
                            (argument :: rest) args)
                      (fun _ => let* _ := WriteFieldStop proto in
                                WriteStructEnd proto) p1).
  { rewrite (WriteRequest_unfold _ _ _ _ _ _ _ Hm), Hargs.
    unfold bind at 1. rewrite Hbegin. unfold bind at 1.
    rewrite WriteRequest_loop_app. unfold bind at 1. rewrite Hpre.
    reflexivity. }
  rewrite Hhead. cbn [WriteRequest_loop]. split.
  - intros Hid.
    replace (Field_ID argument >? Z.of_nat (length args)) with true
      by (symmetry; rewrite Z.gtb_ltb; apply Z.ltb_lt; lia).
    reflexivity.
  - intros Hid.
    replace (Field_ID argument >? Z.of_nat (length args)) with false
      by (symmetry; rewrite Z.gtb_ltb; apply Z.ltb_ge; lia).
    unfold bind. rewrite index_slice_negative by lia. reflexivity.
Qed.

(** Witness of [WriteRequest_argument_out_of_range]: [getPerson] called
    without its argument. *)
Lemma WriteRequest_argument_out_of_range_witness :
  WriteRequest binary.protocol Sample.floats Sample.globals Sample.service
    "getPerson" [] []
  = (Err (ErrArgNotExists 1 "id"), []).
Proof.
  refine (proj1 (WriteRequest_argument_out_of_range binary.protocol
                   Sample.floats Sample.globals Sample.service "getPerson"
                   Sample.getPerson [] [] []
                   (mkField 1 "id" false (Sample.ty "MyId")) [] [] []
                   _ _ _ _) _);
    first [ reflexivity | vm_compute; reflexivity ].
Defined.

(** X9. The request is the struct of the arguments. When every declared
    argument has an ID within [1..len(args)] and the argument names are
    distinct, [WriteRequest] does exactly what [WriteStruct] does for a struct
    named like the request whose fields are the method's arguments, on the
    mapping from each argument name to [args[ID-1]]. *)
Theorem WriteRequest_as_struct {P : Type} (proto : TProtocol P)
  (fm : FloatModel) (g : Globals) (service : Service) (methodName : string)
  (method : Method) (args : list iface) (ty : Type_) (thriftStruct : Struct)
  (p : P) :
  Service_Methods (Service_parser service) !! methodName = Some method ->
  NoDup (map Field_Name (Method_Arguments method)) ->
  Forall (fun argument => 1 <= Field_ID argument <= Z.of_nat (length args))
    (Method_Arguments method) ->
  Service_Structs service !! Type_Name ty = Some thriftStruct ->
  Struct_Name thriftStruct
  = (Service_Name (Service_parser service) ++ Method_Name method ++ "Args")%string ->
  Struct_Fields thriftStruct = Method_Arguments method ->
  WriteRequest proto fm g service methodName args p
  = WriteStruct proto fm g service ty
      (VMap (request_mapping (Method_Arguments method) args)) p.
Proof.
  intros Hm Hnd Hids Hst Hname Hfields.
  rewrite (WriteRequest_unfold _ _ _ _ _ _ _ Hm),
    (WriteStruct_unfold _ _ _ _ _ _ _ Hst), Hname, Hfields.
  apply bind_ext. intros _ p'. unfold bind at 1 3.
  rewrite (WriteRequest_loop_as_fields proto fm g service
             (request_mapping (Method_Arguments method) args));
    [reflexivity|].
  intros argument Hin. split.
  - rewrite Forall_forall in Hids. apply Hids, list_elem_of_In. exact Hin.
  - apply map_get_request_mapping; assumption.
Qed.

(** Witness of [WriteRequest_as_struct]: the request of [getPerson]. *)
Lemma WriteRequest_as_struct_witness :
  WriteRequest binary.protocol Sample.floats Sample.globals Sample2.service
    "getPerson" [VInt Kint64 7] []
  = WriteStruct binary.protocol Sample.floats Sample.globals Sample2.service
      (mkType "getPersonArgs" None None) (VMap [("id"%string, VInt Kint64 7)]) [].
Proof.
  refine (WriteRequest_as_struct binary.protocol Sample.floats Sample.globals
            Sample2.service "getPerson" Sample.getPerson [VInt Kint64 7]
            (mkType "getPersonArgs" None None) Sample2.getPersonArgs []
            _ _ _ _ _ _).
  - vm_compute. reflexivity.
  - apply NoDup_singleton_key.
  - apply List.Forall_cons; [simpl; lia|apply List.Forall_nil].
  - vm_compute. reflexivity.
  - reflexivity.
  - reflexivity.
Defined.

(** ** Unsupported tags, container sizes *)

(** X10. The dispatch of [WriteValue] and [ReadValue] covers ten tags. For a
    type reference that resolves to any other tag (VOID, SET, UTF8, UTF16, or a
    name the registry does not know, which resolves to STOP), [WriteValue]
    fails with the unsupported-type error and writes nothing; [ReadValue]
    fails the same way and reads nothing, except for STOP, where it returns
    nil, reading nothing. *)
Theorem unsupported_type_tags {P : Type} (proto : TProtocol P)
  (fm : FloatModel) (g : Globals) (service : Service) (ty : Type_)
  (value : iface) (fuel : nat) (p : P) :
  ~ In (LookupType g service (Type_Name ty))
      [BOOL; BYTE; DOUBLE; I16; I32; I64; STRING; STRUCT; MAP; LIST] ->
  WriteValue proto fm g service (Some ty) value p = (Err (ErrUnsupportedType ty), p)
  /\ ReadValue proto g service (S fuel) (Some ty) p
     = if LookupType g service (Type_Name ty) =? STOP then (Ok VNil, p)
       else (Err (ErrUnsupportedType ty), p).
Proof.
  intros Hnot.
  assert (Hne : forall c,
             In c [BOOL; BYTE; DOUBLE; I16; I32; I64; STRING; STRUCT; MAP; LIST] ->
             (LookupType g service (Type_Name ty) =? c) = false).
  { intros c Hc. apply Z.eqb_neq. intros Heq. apply Hnot. rewrite Heq. exact Hc. }
  pose proof (Hne BOOL ltac:(simpl; tauto)) as H1.
  pose proof (Hne BYTE ltac:(simpl; tauto)) as H2.
  pose proof (Hne DOUBLE ltac:(simpl; tauto)) as H3.
  pose proof (Hne I16 ltac:(simpl; tauto)) as H4.
  pose proof (Hne I32 ltac:(simpl; tauto)) as H5.
  pose proof (Hne I64 ltac:(simpl; tauto)) as H6.
  pose proof (Hne STRING ltac:(simpl; tauto)) as H7.
  pose proof (Hne STRUCT ltac:(simpl; tauto)) as H8.
  pose proof (Hne MAP ltac:(simpl; tauto)) as H9.
  pose proof (Hne LIST ltac:(simpl; tauto)) as H10.
  split.
  - destruct value; cbn [WriteValue];
      rewrite H1, H2, H3, H4, H5, H6, H7, H8, H9, H10; reflexivity.
  - cbn [ReadValue]. rewrite H1, H2, H3, H4, H5, H6, H7, H8, H9, H10.
    destruct (LookupType g service (Type_Name ty) =? STOP); reflexivity.
Qed.

(** Witness of [unsupported_type_tags]: a set-typed reference. *)
Lemma unsupported_type_tags_witness :
  WriteValue binary.protocol Sample.floats Sample.globals Sample.service
    (Sample.ty "set") (VList []) []
  = (Err (ErrUnsupportedType (mkType "set" None None)), [])
  /\ ReadValue binary.protocol Sample.globals Sample.service 1
       (Sample.ty "set") []
     = (Err (ErrUnsupportedType (mkType "set" None None)), []).
Proof.
  refine (unsupported_type_tags binary.protocol Sample.floats Sample.globals
            Sample.service (mkType "set" None None) (VList []) 0 [] _).
  vm_compute. intros H.
  repeat (destruct H as [H|H]; [discriminate H|]). exact H.
Defined.

Section ContainerSizes.

Context {P : Type}.
Variable proto : TProtocol P.
Variable g : Globals.
Variable service : Service.

Lemma ReadList_loop_length (rec : option Type_ -> M P iface)
  (valueType : option Type_) (count : nat) :
  forall (acc result : list iface) (p p' : P),
    ReadList_loop rec valueType count acc p = (Ok result, p') ->
    length result = (length acc + count)%nat.
Proof.
  induction count as [|count IH]; intros acc result p p' H; cbn [ReadList_loop] in H.
  - inversion H; subst. lia.
  - unfold bind at 1 in H.
    destruct (rec valueType p) as [[value| | |] p1]; try discriminate.
    apply IH in H. rewrite length_app in H. simpl in H. lia.
Qed.

Lemma map_set_NoDup (k : string) (v : iface) (m : list (string * iface)) :
  NoDup (map fst m) -> NoDup (map fst (map_set k v m)).
Proof.
  induction m as [|[k' x] m IH]; simpl; intros Hnd.
  - apply NoDup_singleton_key.
  - apply NoDup_cons in Hnd as [Hfresh Hnd].
    destruct (String.eqb k' k) eqn:He; simpl.
    + apply NoDup_cons_2; assumption.
    + apply NoDup_cons_2; [|exact (IH Hnd)].
      rewrite list_elem_of_In. intros Hin. apply map_set_keys in Hin.
      destruct Hin as [->|Hin].
      * rewrite String.eqb_refl in He. discriminate.
      * apply Hfresh, list_elem_of_In. exact Hin.
Qed.

Lemma map_set_length (k : string) (v : iface) (m : list (string * iface)) :
  (length (map_set k v m) <= S (length m))%nat.
Proof.
  induction m as [|[k' x] m IH]; simpl; [lia|].
  destruct (String.eqb k' k); simpl; lia.
Qed.

Lemma ReadMap_loop_keys (rec : option Type_ -> M P iface)
  (valueType : option Type_) (count : nat) :
  forall (acc result : list (string * iface)) (p p' : P),
    ReadMap_loop proto rec valueType count acc p = (Ok result, p') ->
    NoDup (map fst acc) ->
    NoDup (map fst result) /\ (length result <= length acc + count)%nat.
Proof.
  induction count as [|count IH]; intros acc result p p' H Hnd;
    cbn [ReadMap_loop] in H.
  - inversion H; subst. split; [exact Hnd|lia].
  - unfold bind at 1 in H.
    destruct (ReadString proto p) as [[key| | |] p1]; try discriminate.
    unfold bind at 1 in H.
    destruct (rec valueType p1) as [[value| | |] p2]; try discriminate.
    destruct (IH _ _ _ _ H (map_set_NoDup key value acc Hnd)) as [Hr Hlen].
    split; [exact Hr|]. pose proof (map_set_length key value acc). lia.
Qed.

End ContainerSizes.

(** X11. A list that [ReadList] returns has exactly as many elements as the
    header announced, and none when the announced size is zero or negative. *)
Theorem ReadList_length {P : Type} (proto : TProtocol P) (g : Globals)
  (service : Service) (fuel : nat) (ty : Type_) (p p' : P) (v : iface) :
  ReadList proto g service fuel ty p = (Ok v, p') ->
  exists (l : list iface) (elemType : TType) (size : Z) (p1 : P),
    v = VList l
    /\ ReadListBegin proto p = (Ok (elemType, size), p1)
    /\ length l = Z.to_nat size
    /\ (size <= 0 -> l = []).
Proof.
  unfold ReadList, ReadList_with. intros H. unfold bind at 1 in H.
  destruct (ReadListBegin proto p) as [[[elemType size]| | |] p1] eqn:Hb;
    try discriminate.
  unfold bind at 1 in H.
  destruct (ReadList_loop _ _ _ _ p1) as [[l| | |] p2] eqn:Hloop; try discriminate.
  unfold bind at 1 in H.
  destruct (ReadListEnd proto p2) as [[[]| | |] p3]; try discriminate.
  inversion H; subst.
  apply ReadList_loop_length in Hloop. simpl in Hloop.
  exists l, elemType, size, p1. repeat split; try assumption.
  intros Hsize. replace (Z.to_nat size) with 0%nat in Hloop by lia.
  destruct l; [reflexivity|discriminate].
Qed.

(** Witness of [ReadList_length]: a list of two i32 on the wire. *)
Lemma ReadList_length_witness :
  exists (l : list iface) (elemType : TType) (size : Z) (p1 : binary.Buffer),
    VList [VInt Kint32 1; VInt Kint32 2] = VList l
    /\ binary.ReadListBegin
         [x08; x00; x00; x00; x02; x00; x00; x00; x01; x00; x00; x00; x02]
       = (Ok (elemType, size), p1)
    /\ length l = Z.to_nat size
    /\ (size <= 0 -> l = []).
Proof.
  refine (ReadList_length binary.protocol Sample.globals Sample.service 1
            (mkType "list" None (Sample.ty "i32"))
            [x08; x00; x00; x00; x02; x00; x00; x00; x01; x00; x00; x00; x02]
            [] (VList [VInt Kint32 1; VInt Kint32 2]) _).
  vm_compute. reflexivity.
Defined.

(** X12. A mapping that [ReadMap] returns has at most as many entries as the
    header announced (fewer when a key comes twice on the wire: the entry is
    overwritten), and none when the announced size is zero or negative. *)
Theorem ReadMap_size {P : Type} (proto : TProtocol P) (g : Globals)
  (service : Service) (fuel : nat) (ty : Type_) (p p' : P) (v : iface) :
  ReadMap proto g service fuel ty p = (Ok v, p') ->
  exists (m : list (string * iface)) (keyType valueType : TType) (size : Z)
         (p1 : P),
    v = VMap m
    /\ ReadMapBegin proto p = (Ok (keyType, valueType, size), p1)
    /\ NoDup (map fst m)
    /\ (length m <= Z.to_nat size)%nat
    /\ (size <= 0 -> m = []).
Proof.
  unfold ReadMap, ReadMap_with. intros H. unfold bind at 1 in H.
  destruct (ReadMapBegin proto p) as [[[[keyType valueType] size]| | |] p1] eqn:Hb;
    try discriminate.
  unfold bind at 1 in H.
  destruct (ReadMap_loop _ _ _ _ _ p1) as [[m| | |] p2] eqn:Hloop; try discriminate.
  unfold bind at 1 in H.
  destruct (ReadMapEnd proto p2) as [[[]| | |] p3]; try discriminate.
  inversion H; subst.
  destruct (ReadMap_loop_keys proto _ _ _ _ _ _ _ Hloop NoDup_nil_2)
    as [Hnd Hlen].
  simpl in Hlen.
  exists m, keyType, valueType, size, p1. repeat split; try assumption.
  intros Hsize. replace (Z.to_nat size) with 0%nat in Hlen by lia.
  destruct m; [reflexivity|simpl in Hlen; lia].
Qed.

(** Witness of [ReadMap_size]: the key ["a"] twice on the wire, announced as
    two entries, gives one entry with the later value. *)
Lemma ReadMap_size_witness :
  exists (m : list (string * iface)) (keyType valueType : TType) (size : Z)
         (p1 : binary.Buffer),
    VMap [("a"%string, VInt Kint32 2)] = VMap m
    /\ binary.ReadMapBegin
         [x0b; x08; x00; x00; x00; x02;
          x00; x00; x00; x01; x61; x00; x00; x00; x01;
          x00; x00; x00; x01; x61; x00; x00; x00; x02]
       = (Ok (keyType, valueType, size), p1)
    /\ NoDup (map fst m)
    /\ (length m <= Z.to_nat size)%nat
    /\ (size <= 0 -> m = []).
Proof.
  refine (ReadMap_size binary.protocol Sample.globals Sample.service 1
            (mkType "map" (Sample.ty "string") (Sample.ty "i32"))
            [x0b; x08; x00; x00; x00; x02;
             x00; x00; x00; x01; x61; x00; x00; x00; x01;
             x00; x00; x00; x01; x61; x00; x00; x00; x02]
            [] (VMap [("a"%string, VInt Kint32 2)]) _).
  vm_compute. reflexivity.
Defined.

(** ** Calls: what is sent before what is read *)

Section CallFacts.

Context {P : Type}.
Variable proto : TProtocol P.
Variable fm : FloatModel.
Variable g : Globals.

(** Nothing that [send] does touches the input protocol, whatever comes of
    it. *)
Lemma send_input_frame (method : string) (args : list iface)
  (client client' : Client) (w w' : World P) (r : outcome unit) :
  send proto fm g method args (client, w) = (r, (client', w')) ->
  InputProtocol w' = InputProtocol w.
Proof.
  unfold send. unfold bind at 1.
  destruct (on_output _ (client, w)) as [r0 [c0 w0]] eqn:H0.
  apply on_output_frame in H0 as [-> Hi0].
  destruct r0 as [[]| | |];
    try (intros H; inversion H; subst; exact Hi0).
  unfold bind at 1. unfold incr_SeqId at 1. fold (bump client).
  unfold bind at 1. unfold get_client at 1. cbn [fst].
  unfold bind at 1.
  destruct (on_output (WriteMessageBegin _ _ _ _) (bump client, w0))
    as [r1 [c1 w1]] eqn:H1.
  apply on_output_frame in H1 as [-> Hi1].
  destruct r1 as [[]| | |];
    try (intros H; inversion H; subst; congruence).
  unfold bind at 1.
  destruct (on_output (WriteRequest _ _ _ _ _ _) (bump client, w1))
    as [r2 [c2 w2]] eqn:H2.
  apply on_output_frame in H2 as [-> Hi2].
  destruct r2 as [[]| | |];
    try (intros H; inversion H; subst; congruence).
  unfold bind at 1.
  destruct (on_output (WriteMessageEnd _) (bump client, w2))
    as [r3 [c3 w3]] eqn:H3.
  apply on_output_frame in H3 as [-> Hi3].
  destruct r3 as [[]| | |];
    try (intros H; inversion H; subst; congruence).
  intros H4. apply on_output_frame in H4 as [_ Hi4]. congruence.
Qed.

(** [recv] on a message that is not an EXCEPTION and carries the counter of the
    struct it runs on: the response is decoded under the name in the message. *)
Lemma recv_in_sequence (fuel : nat) (client : Client) (w : World P) (p1 : P)
  (name : string) (kind : TMessageType) :
  IsOpen proto (InputProtocol w) = true ->
  ReadMessageBegin proto (InputProtocol w)
  = (Ok (name, kind, Client_SeqId client), p1) ->
  kind <> EXCEPTION ->
  recv proto g fuel (client, w)
  = (let '(r, p2) :=
       (let* response := ReadResponse proto g (Client_Service client) fuel name in
        let* _ := ReadMessageEnd proto in
        ret response) p1 in
     (r, (client, mkWorld p2 (OutputProtocol w)))).
Proof.
  intros Hopen Hmb Hkind. unfold recv.
  unfold bind at 1. unfold on_input at 1. rewrite Hopen.
  unfold bind at 1. unfold on_input at 1. cbn [InputProtocol OutputProtocol].
  rewrite Hmb.
  replace (kind =? EXCEPTION) with false by (symmetry; apply Z.eqb_neq; exact Hkind).
  unfold bind at 1. unfold get_client at 1. cbn [fst].
  rewrite Z.eqb_refl. cbn [negb].
  unfold bind, on_input, ret. cbn [InputProtocol OutputProtocol].
  destruct (ReadResponse proto g (Client_Service client) fuel name p1)
    as [[response| | |] p2]; try reflexivity.
  cbn [InputProtocol OutputProtocol].
  destruct (ReadMessageEnd proto p2) as [[[]| | |] p3]; reflexivity.
Qed.

(** [recv] on a message of kind EXCEPTION. *)
Lemma recv_exception (fuel : nat) (client : Client) (w : World P) (p1 : P)
  (name : string) (seqId : Z) :
  IsOpen proto (InputProtocol w) = true ->
  ReadMessageBegin proto (InputProtocol w) = (Ok (name, EXCEPTION, seqId), p1) ->
  recv proto g fuel (client, w)
  = (let '(r, p2) :=
       (let* exception := TApplicationException_Read proto fuel in
        let* _ := ReadMessageEnd proto in
        fail (A := iface) exception) p1 in
     (r, (client, mkWorld p2 (OutputProtocol w)))).
Proof.
  intros Hopen Hmb. unfold recv.
  unfold bind at 1. unfold on_input at 1. rewrite Hopen.
  unfold bind at 1. unfold on_input at 1. cbn [InputProtocol OutputProtocol].
  rewrite Hmb. rewrite Z.eqb_refl.
  unfold bind, on_input, fail. cbn [InputProtocol OutputProtocol].
  destruct (TApplicationException_Read proto fuel p1)
    as [[exception| | |] p2]; try reflexivity.
  cbn [InputProtocol OutputProtocol].
  destruct (ReadMessageEnd proto p2) as [[[]| | |] p3]; reflexivity.
Qed.

End CallFacts.

(** X13. The response is decoded under the method name that the reply carries,
    not under the method that was called. After a request has been sent, a
    message that is not an EXCEPTION and carries the expected sequence id is
    decoded by [ReadResponse] with the name read from the message header, so
    the result of the call does not depend on the method called beyond the
    request written; a reply naming a method that the service does not have
    fails with the method-not-exists error for that name. *)
Theorem Call_decodes_by_reply_name {P : Type} (proto : TProtocol P)
  (fm : FloatModel) (g : Globals) (client client' : Client) (fuel : nat)
  (method : string) (args : list iface) (w w1 : World P) (p1 : P)
  (name : string) (kind : TMessageType) :
  IsOpen proto (OutputProtocol w) = true ->
  send proto fm g method args (client, w) = (Ok tt, (client', w1)) ->
  IsOpen proto (InputProtocol w1) = true ->
  ReadMessageBegin proto (InputProtocol w1)
  = (Ok (name, kind, wrap 32 (Client_SeqId client + 1)), p1) ->
  kind <> EXCEPTION ->
  Call proto fm g client fuel method args w
  = (let '(r, p2) :=
       (let* response := ReadResponse proto g (Client_Service client) fuel name in
        let* _ := ReadMessageEnd proto in
        ret response) p1 in
     (r, mkWorld p2 (OutputProtocol w1)))
  /\ (Service_Methods (Service_parser (Client_Service client)) !! name = None ->
      Call proto fm g client fuel method args w
      = (Err (ErrMethodNotExists
                (Service_Name (Service_parser (Client_Service client))) name),
         mkWorld p1 (OutputProtocol w1))).
Proof.
  intros Hopen Hsend Hin Hmb Hkind.
  destruct (send_Ok_client proto fm g _ _ _ _ _ _ Hopen Hsend) as [-> Hinput].
  assert (Hcall :
    Call proto fm g client fuel method args w
    = (let '(r, p2) :=
         (let* response := ReadResponse proto g (Client_Service client) fuel name in
          let* _ := ReadMessageEnd proto in
          ret response) p1 in
       (r, mkWorld p2 (OutputProtocol w1)))).
  { unfold Call. unfold bind at 1. rewrite Hsend.
    rewrite (recv_in_sequence proto g fuel (bump client) w1 p1 name kind Hin Hmb Hkind).
    cbn [Client_Service bump].
    destruct ((let* response := ReadResponse proto g (Client_Service client) fuel name in
               let* _ := ReadMessageEnd proto in ret response) p1) as [r p2].
    reflexivity. }
  split; [exact Hcall|].
  intros Hnone. rewrite Hcall. unfold bind at 1. unfold ReadResponse.
  rewrite Hnone. reflexivity.
Qed.

(** Witness of [Call_decodes_by_reply_name]: [getPerson] is called, the reply
    is one to [count], and the call returns the count. *)
Lemma Call_decodes_by_reply_name_witness :
  fst (Call binary.protocol Sample.floats Sample.globals
         (NewClient Sample.service) 8 "getPerson" [VInt Kint64 7]
         (mkWorld (Reply.count_reply 1 10) []))
  = Ok (VInt Kint32 10).
Proof.
  refine (eq_trans
            (f_equal fst
               (proj1 (Call_decodes_by_reply_name binary.protocol Sample.floats
                   Sample.globals (NewClient Sample.service)
                   (bump (NewClient Sample.service)) 8 "getPerson"
                   [VInt Kint64 7]
                   (mkWorld (Reply.count_reply 1 10) [])
                   (mkWorld (Reply.count_reply 1 10)
                      (OutputProtocol
                         (snd (snd (send binary.protocol Sample.floats
                                      Sample.globals "getPerson" [VInt Kint64 7]
                                      (NewClient Sample.service, mkWorld [] []))))))
                   (skipn 17 (Reply.count_reply 1 10)) "count"%string REPLY
                   _ _ _ _ _))) _);
    first [ vm_compute; reflexivity | vm_compute; discriminate ].
Defined.

(** X14. A call reads nothing before its request has been sent. When [send]
    fails with an error or panics, [Call] comes to the same error or panic, the
    input protocol is as it was, and the output protocol is as [send] left
    it. *)
Theorem Call_stops_when_send_fails {P : Type} (proto : TProtocol P)
  (fm : FloatModel) (g : Globals) (client client' : Client) (fuel : nat)
  (method : string) (args : list iface) (w w' : World P) (r : outcome unit) :
  send proto fm g method args (client, w) = (r, (client', w')) ->
  (forall e : error,
      r = Err e ->
      Call proto fm g client fuel method args w
      = (Err e, mkWorld (InputProtocol w) (OutputProtocol w')))
  /\ (forall x : panic,
         r = Panic x ->
         Call proto fm g client fuel method args w
         = (Panic x, mkWorld (InputProtocol w) (OutputProtocol w'))).
Proof.
  intros Hsend.
  pose proof (send_input_frame proto fm g _ _ _ _ _ _ _ Hsend) as Hin.
  destruct w' as [i' o']. cbn [InputProtocol OutputProtocol] in *. subst i'.
  split; intros y ->; unfold Call; unfold bind at 1; rewrite Hsend; reflexivity.
Qed.

(** Witness of [Call_stops_when_send_fails]: [getPerson] takes an argument with
    ID 1; called without arguments, the reply that is waiting is left
    unread. *)
Lemma Call_stops_when_send_fails_witness :
  Call binary.protocol Sample.floats Sample.globals
    (NewClient Sample.service) 8 "getPerson" []
    (mkWorld (Reply.count_reply 1 10) [])
  = (Err (ErrArgNotExists 1 "id"),
     mkWorld (Reply.count_reply 1 10) (message_header "getPerson" CALL 1)).
Proof.
  refine (proj1 (Call_stops_when_send_fails binary.protocol Sample.floats
            Sample.globals (NewClient Sample.service)
            (bump (NewClient Sample.service)) 8 "getPerson" []
            (mkWorld (Reply.count_reply 1 10) [])
            (mkWorld (Reply.count_reply 1 10)
               (message_header "getPerson" CALL 1))
            (Err (ErrArgNotExists 1 "id")) _) (ErrArgNotExists 1 "id") eq_refl).
  vm_compute; reflexivity.
Defined.

(** X15. A call of a method that the service does not have fails with the
    method-not-exists error only after the message has been begun on the output
    protocol: the sequence id has been taken, the message header is written,
    and neither the message end nor the flush follows. The input protocol is
    not read. *)
Theorem Call_unknown_method {P : Type} (proto : TProtocol P)
  (fm : FloatModel) (g : Globals) (client : Client) (fuel : nat)
  (method : string) (args : list iface) (w : World P) (p' : P) :
  IsOpen proto (OutputProtocol w) = true ->
  Service_Methods (Service_parser (Client_Service client)) !! method = None ->
  WriteMessageBegin proto method CALL (wrap 32 (Client_SeqId client + 1))
    (OutputProtocol w) = (Ok tt, p') ->
  Call proto fm g client fuel method args w
  = (Err (ErrMethodNotExists
            (Service_Name (Service_parser (Client_Service client))) method),
     mkWorld (InputProtocol w) p').
Proof.
  intros Hopen Hnone Hmb. unfold Call. unfold bind at 1.
  rewrite (send_open proto fm g method args client w Hopen).
  unfold bind at 1. unfold on_output at 1. cbn [bump Client_SeqId].
  rewrite Hmb.
  unfold bind at 1. unfold on_output at 1.
  cbn [bump Client_Service InputProtocol OutputProtocol].
  unfold WriteRequest. rewrite Hnone. reflexivity.
Qed.

(** Witness of [Call_unknown_method]: the header of the message stays in the
    output buffer. *)
Lemma Call_unknown_method_witness :
  Call binary.protocol Sample.floats Sample.globals
    (NewClient Sample.service) 8 "rename" []
    (mkWorld (Reply.count_reply 1 10) [])
  = (Err (ErrMethodNotExists "People" "rename"),
     mkWorld (Reply.count_reply 1 10) (message_header "rename" CALL 1)).
Proof.
  refine (Call_unknown_method binary.protocol Sample.floats Sample.globals
            (NewClient Sample.service) 8 "rename" []
            (mkWorld (Reply.count_reply 1 10) [])
            (message_header "rename" CALL 1) _ _ _);
    vm_compute; reflexivity.
Defined.

(** X16. A method without a return type cannot be answered. When the method's
    [ReturnType] is a nil pointer and the first field header of the response
    struct carries index 0 (as the header that ends an empty struct does),
    [ReadResponse] dereferences the nil type in [ReadValue] and panics, having
    read the struct begin and that one header. *)
Theorem ReadResponse_nil_return_type {P : Type} (proto : TProtocol P)
  (g : Globals) (service : Service) (fuel : nat) (methodName : string)
  (method : Method) (p p1 p2 : P) (structName name : string) (ttype : TType) :
  Service_Methods (Service_parser service) !! methodName = Some method ->
  Method_ReturnType method = None ->
  ReadStructBegin proto p = (Ok structName, p1) ->
  ReadFieldBegin proto p1 = (Ok (name, ttype, 0), p2) ->
  ReadResponse proto g service (S fuel) methodName p = (Panic NilDereference, p2).
Proof.
  intros Hm Hnil Hsb Hfb.
  rewrite (ReadResponse_header proto g service (S fuel) _ _ _ _ _ _ _ _ _ Hm Hsb Hfb).
  unfold bind at 1. rewrite response_fieldType_return, Hnil.
  reflexivity.
Qed.

(** Witness of [ReadResponse_nil_return_type]: the response struct of a void
    method is empty, one stop marker. *)
Lemma ReadResponse_nil_return_type_witness :
  ReadResponse binary.protocol Sample.globals Void.service 1 "notify" [x00]
  = (Panic NilDereference, []).
Proof.
  refine (ReadResponse_nil_return_type binary.protocol Sample.globals
            Void.service 0 "notify" Void.notify [x00] [x00] []
            ""%string ""%string STOP _ _ _ _);
    vm_compute; reflexivity.
Defined.

(** ** A call over the binary protocol, end to end *)

Lemma writes_WriteMessageBegin (name : string) (typeId : TMessageType)
  (seqId : Z) :
  wire_length (String.length name) ->
  writes (binary.WriteMessageBegin name typeId seqId)
    (message_header name typeId seqId).
Proof.
  intros Hn. unfold binary.WriteMessageBegin, message_header.
  apply writes_bind; [apply writes_write|].
  apply writes_bind; [apply writes_WriteString; exact Hn|apply writes_write].
Qed.

(** The strict header is read back: version and message type from the first
    word, then the name and the sequence id. *)
Lemma reads_ReadMessageBegin (name : string) (typeId : TMessageType)
  (seqId : Z) :
  In typeId [CALL; REPLY; EXCEPTION; ONEWAY] ->
  wire_length (String.length name) ->
  in_int 32 seqId ->
  reads binary.ReadMessageBegin (message_header name typeId seqId)
    (name, typeId, seqId).
Proof.
  intros Hkind Hn Hseq rest. unfold binary.ReadMessageBegin, message_header.
  set (word := wrap 32 (Z.lor binary.VERSION_1 typeId)).
  assert (Hword : in_int 32 word) by (apply wrap_in_int; lia).
  assert (Hfacts : (word <? 0) = true
                   /\ Z.land word 255 = typeId
                   /\ (Z.land word binary.VERSION_MASK =? binary.VERSION_1) = true).
  { unfold word. simpl in Hkind.
    destruct Hkind as [<-|[<-|[<-|[<-|[]]]]];
      (split; [|split]); vm_compute; reflexivity. }
  destruct Hfacts as (Hneg & Hland & Hver).
  unfold bind at 1. rewrite <- app_assoc.
  rewrite ReadI32_written by exact Hword.
  rewrite Hneg. cbv zeta. rewrite Hver. cbn [negb].
  unfold bind at 1. rewrite <- app_assoc.
  rewrite (reads_ReadString name Hn).
  unfold bind at 1. rewrite ReadI32_written by exact Hseq.
  unfold ret. rewrite Hland. reflexivity.
Qed.

(** X17. A call returns what the server sent. Over the binary protocol, once
    the request has been sent, a REPLY that names a method of the service,
    carries the sequence id of the request and holds in field 0 a value [v]
    that is schema-valid for the method's return type makes [Call] return
    [normalize T v], with enough fuel, and consume exactly the bytes of the
    reply. *)
Theorem Call_returns_decoded_result (fm : FloatModel) (g : Globals)
  (client client' : Client) (method : string) (args : list iface)
  (w w1 : World binary.Buffer) (name : string) (m : Method) (ty : Type_)
  (v : iface) (bytes rest : list byte) :
  registry_ok g ->
  send binary.protocol fm g method args (client, w) = (Ok tt, (client', w1)) ->
  Service_Methods (Service_parser (Client_Service client)) !! name = Some m ->
  Method_ReturnType m = Some ty ->
  has_type fm g (Client_Service client) (Some ty) v ->
  wire_length (String.length name) ->
  success_reply fm g (Client_Service client) name
    (wrap 32 (Client_SeqId client + 1)) ty v [] = (Ok tt, bytes) ->
  InputProtocol w = bytes ++ rest ->
  exists fuel0 : nat,
    forall fuel : nat,
      (fuel0 <= fuel)%nat ->
      Call binary.protocol fm g client fuel method args w
      = (Ok (normalize fm g (Client_Service client) (Some ty) v),
         mkWorld rest (OutputProtocol w1)).
Proof.
  intros Hg Hsend Hm Hret Hty Hname Hreply Hinput.
  destruct (has_type_round_trips fm g (Client_Service client) Hg v (Some ty) Hty)
    as (vb & fuel0 & Wv & Rv).
  pose proof (has_type_wire_tag fm g (Client_Service client) ty v Hty) as Htag.
  set (seq := wrap 32 (Client_SeqId client + 1)) in *.
  set (tag := LookupType g (Client_Service client) (Type_Name ty)) in *.
  assert (Hbytes : bytes = message_header name REPLY seq
                           ++ field_header tag 0 ++ vb ++ [x00]).
  { assert (W : writes (success_reply fm g (Client_Service client) name seq ty v)
                  (message_header name REPLY seq
                   ++ field_header tag 0 ++ vb ++ [x00])).
    { unfold success_reply.
      apply writes_bind; [apply writes_WriteMessageBegin; exact Hname|].
      apply writes_bind; [apply writes_WriteFieldBegin|].
      apply writes_bind; [exact Wv|apply writes_write]. }
    specialize (W []). rewrite Hreply in W. cbn [app] in W. congruence. }
  destruct (send_Ok_client binary.protocol fm g _ _ _ _ _ _ eq_refl Hsend)
    as [-> Hin1].
  exists fuel0. intros fuel Hfuel.
  assert (Hmb : binary.ReadMessageBegin (InputProtocol w1)
                = (Ok (name, REPLY, Client_SeqId (bump client)),
                   field_header tag 0 ++ vb ++ [x00] ++ rest)).
  { rewrite Hin1, Hinput, Hbytes. rewrite <- !app_assoc.
    apply (reads_ReadMessageBegin name REPLY seq);
      [simpl; tauto|exact Hname|apply wrap_in_int; lia]. }
  assert (Hresp :
    ReadResponse binary.protocol g (Client_Service client) fuel name
      (field_header tag 0 ++ vb ++ [x00] ++ rest)
    = (Ok (normalize fm g (Client_Service client) (Some ty) v), rest)).
  { apply (ReadResponse_decoded binary.protocol g (Client_Service client) fuel
             name m (field_header tag 0 ++ vb ++ [x00] ++ rest)
             (field_header tag 0 ++ vb ++ [x00] ++ rest)
             (vb ++ [x00] ++ rest) ([x00] ++ rest) ([x00] ++ rest)
             rest rest ""%string ""%string tag 0 (Some ty) _
             (""%string, STOP, 0) Hm).
    - reflexivity.
    - apply (reads_ReadFieldBegin tag 0 Htag). unfold in_int. simpl. lia.
    - rewrite <- Hret. reflexivity.
    - apply (Rv fuel Hfuel).
    - reflexivity.
    - reflexivity.
    - reflexivity. }
  unfold Call. unfold bind at 1. rewrite Hsend.
  rewrite (recv_in_sequence binary.protocol g fuel (bump client) w1 _ name REPLY
             eq_refl Hmb ltac:(discriminate)).
  cbn [bump Client_Service]. unfold bind at 1. rewrite Hresp. reflexivity.
Qed.

(** Witness of [Call_returns_decoded_result]: the sample [Person] comes back
    from [getPerson] with the age as an [int32] and without the key that
    [Person] does not declare. *)
Lemma Call_returns_decoded_result_witness :
  exists fuel0 : nat,
    forall fuel : nat,
      (fuel0 <= fuel)%nat ->
      fst (Call binary.protocol Sample.floats Sample.globals
             (NewClient Sample.service) fuel "getPerson" [VInt Kint64 7]
             (mkWorld
                (snd (success_reply Sample.floats Sample.globals Sample.service
                        "getPerson" 1 (mkType "Person" None None)
                        sample_person []))
                []))
      = Ok (VMap [("name"%string, VString "bob");
                  ("age"%string, VInt Kint32 42)]).
Proof.
  destruct (Call_returns_decoded_result Sample.floats Sample.globals
              (NewClient Sample.service) (bump (NewClient Sample.service))
              "getPerson" [VInt Kint64 7]
              (mkWorld
                 (snd (success_reply Sample.floats Sample.globals Sample.service
                         "getPerson" 1 (mkType "Person" None None)
                         sample_person []))
                 [])
              (mkWorld
                 (snd (success_reply Sample.floats Sample.globals Sample.service
                         "getPerson" 1 (mkType "Person" None None)
                         sample_person []))
                 (OutputProtocol
                    (snd (snd (send binary.protocol Sample.floats
                                 Sample.globals "getPerson" [VInt Kint64 7]
                                 (NewClient Sample.service, mkWorld [] []))))))
              "getPerson"%string Sample.getPerson (mkType "Person" None None)
              sample_person
              (snd (success_reply Sample.floats Sample.globals Sample.service
                      "getPerson" 1 (mkType "Person" None None)
                      sample_person []))
              []
              registry_ok_Sample
              ltac:(vm_compute; reflexivity)
              ltac:(vm_compute; reflexivity)
              eq_refl
              has_type_sample_person
              ltac:(unfold wire_length; simpl; lia)
              ltac:(vm_compute; reflexivity)
              ltac:(rewrite app_nil_r; reflexivity))
    as [fuel0 H].
  exists fuel0. intros fuel Hfuel. rewrite (H fuel Hfuel).
  cbn [fst]. exact (f_equal Ok normalize_sample_person).
Defined.

(** X18. An EXCEPTION message is returned as the application exception it
    carries. Over the binary protocol, once the request has been sent, an
    EXCEPTION message holding a message text and a type makes [Call] fail with
    the application exception of that type and text, whatever method name and
    sequence id the message carries, and consume exactly its bytes. *)
Theorem Call_application_exception (fm : FloatModel) (g : Globals)
  (client client' : Client) (fuel : nat) (method : string) (args : list iface)
  (w w1 : World binary.Buffer) (name : string) (seqId : Z) (message : string)
  (type_ : Z) (bytes rest : list byte) :
  send binary.protocol fm g method args (client, w) = (Ok tt, (client', w1)) ->
  wire_length (String.length name) ->
  wire_length (String.length message) ->
  in_int 32 seqId ->
  in_int 32 type_ ->
  exception_reply name seqId message type_ [] = (Ok tt, bytes) ->
  InputProtocol w = bytes ++ rest ->
  Call binary.protocol fm g client (3 + fuel) method args w
  = (Err (TApplicationException type_ message), mkWorld rest (OutputProtocol w1)).
Proof.
  intros Hsend Hname Hmsg Hseq Htype Hreply Hinput.
  assert (Hbytes : bytes = message_header name EXCEPTION seqId
                           ++ field_header STRING 1 ++ string_bytes message
                           ++ field_header I32 2 ++ binary.be_encode 4 type_
                           ++ [x00]).
  { assert (W : writes (exception_reply name seqId message type_)
                  (message_header name EXCEPTION seqId
                   ++ field_header STRING 1 ++ string_bytes message
                   ++ field_header I32 2 ++ binary.be_encode 4 type_
                   ++ [x00])).
    { unfold exception_reply.
      apply writes_bind; [apply writes_WriteMessageBegin; exact Hname|].
      apply writes_bind; [apply writes_WriteFieldBegin|].
      apply writes_bind; [apply writes_WriteString; exact Hmsg|].
      apply writes_bind; [apply writes_WriteFieldBegin|].
      apply writes_bind; apply writes_write. }
    specialize (W []). rewrite Hreply in W. cbn [app] in W. congruence. }
  destruct (send_Ok_client binary.protocol fm g _ _ _ _ _ _ eq_refl Hsend)
    as [-> Hin1].
  assert (Hmb : binary.ReadMessageBegin (InputProtocol w1)
                = (Ok (name, EXCEPTION, seqId),
                   field_header STRING 1 ++ string_bytes message
                   ++ field_header I32 2 ++ binary.be_encode 4 type_
                   ++ [x00] ++ rest)).
  { rewrite Hin1, Hinput, Hbytes. rewrite <- !app_assoc.
    apply (reads_ReadMessageBegin name EXCEPTION seqId);
      [simpl; tauto|exact Hname|exact Hseq]. }
  assert (Hread :
    TApplicationException_Read binary.protocol (3 + fuel)
      (field_header STRING 1 ++ string_bytes message
       ++ field_header I32 2 ++ binary.be_encode 4 type_ ++ [x00] ++ rest)
    = (Ok (TApplicationException type_ message), rest)).
  { unfold TApplicationException_Read. unfold bind at 1.
    change (ReadStructBegin binary.protocol) with (@ret binary.Buffer string "").
    unfold ret at 1.
    cbn [Nat.add TApplicationException_Read_loop].
    change (ReadFieldBegin binary.protocol) with binary.ReadFieldBegin.
    change (ReadFieldEnd binary.protocol) with binary.nop.
    change (ReadStructEnd binary.protocol) with binary.nop.
    change (ReadString binary.protocol) with binary.ReadString.
    change (ReadI32 binary.protocol) with binary.ReadI32.
    unfold bind at 1. unfold bind at 1.
    rewrite (reads_ReadFieldBegin STRING 1)
      by (unfold wire_tag, in_int; vm_compute; split; (reflexivity || discriminate)).
    change (STRING =? STOP) with false.
    change ((1 =? 1) && (STRING =? STRING)) with true. cbv beta iota.
    unfold bind at 1. unfold bind at 1.
    rewrite (reads_ReadString message Hmsg). unfold ret at 1.
    unfold bind at 1. unfold binary.nop at 1, ret at 1. cbn [fst snd].
    unfold bind at 1.
    rewrite (reads_ReadFieldBegin I32 2)
      by (unfold wire_tag, in_int; vm_compute; split; (reflexivity || discriminate)).
    change (I32 =? STOP) with false.
    change ((2 =? 1) && (I32 =? STRING)) with false.
    change ((2 =? 2) && (I32 =? I32)) with true. cbv beta iota.
    unfold bind at 1. unfold bind at 1.
    rewrite ReadI32_written by exact Htype. unfold ret at 1.
    unfold bind at 1. unfold binary.nop at 1, ret at 1. cbn [fst snd].
    unfold bind at 1. cbn [app]. rewrite ReadFieldBegin_stop.
    change (STOP =? STOP) with true. cbv beta iota.
    reflexivity. }
  unfold Call. unfold bind at 1. rewrite Hsend.
  rewrite (recv_exception binary.protocol g (3 + fuel) (bump client) w1 _ name
             seqId eq_refl Hmb).
  unfold bind at 1. rewrite Hread. reflexivity.
Qed.

(** Witness of [Call_application_exception]: sequence id 99 on a fresh
    session. *)
Lemma Call_application_exception_witness :
  Call binary.protocol Sample.floats Sample.globals
    (NewClient Sample.service) 3 "count" []
    (mkWorld Reply.application_exception [])
  = (Err (TApplicationException 6 "boom"), mkWorld [] (Request.count 1)).
Proof.
  refine (Call_application_exception Sample.floats Sample.globals
            (NewClient Sample.service) (bump (NewClient Sample.service)) 0
            "count" [] (mkWorld Reply.application_exception [])
            (mkWorld Reply.application_exception (Request.count 1))
            "getPerson"%string 99 "boom"%string 6
            Reply.application_exception [] _ _ _ _ _ _ _);
    first [ vm_compute; reflexivity
          | unfold wire_length; simpl; lia
          | unfold in_int; simpl; lia ].
Defined.

(** ** Integer coercions *)

Lemma wrap_congruent (w z : Z) : 0 < w -> (wrap w z - z) mod 2 ^ w = 0.
Proof.
  intros Hw. unfold wrap.
  assert (Hpos : 0 < 2 ^ w) by (apply Z.pow_pos_nonneg; lia).
  rewrite (Z.mod_eq (z + 2 ^ (w - 1)) (2 ^ w)) by lia.
  replace (z + 2 ^ (w - 1) - 2 ^ w * ((z + 2 ^ (w - 1)) / 2 ^ w)
           - 2 ^ (w - 1) - z)
    with (- ((z + 2 ^ (w - 1)) / 2 ^ w) * 2 ^ w) by ring.
  apply Z.mod_mul. lia.
Qed.

Lemma wrap_fixed (w z : Z) : 0 < w -> wrap w z = z <-> in_int w z.
Proof.
  intros Hw. split.
  - intros <-. apply wrap_in_int. exact Hw.
  - apply wrap_small. exact Hw.
Qed.

Lemma digit_of_range (c : ascii) (d : Z) : digit_of c = Some d -> 0 <= d <= 9.
Proof.
  unfold digit_of.
  destruct ((48 <=? Z.of_N (N_of_ascii c)) && (Z.of_N (N_of_ascii c) <=? 57))
    eqn:E; [|discriminate].
  apply andb_true_iff in E as [E1 E2].
  apply Z.leb_le in E1. apply Z.leb_le in E2.
  intros H. inversion H. lia.
Qed.

Lemma parse_digits_nonneg (s : string) :
  forall acc r : Z, 0 <= acc -> parse_digits s acc = Some r -> 0 <= r.
Proof.
  induction s as [|c s IH]; intros acc r Hacc H; simpl in H.
  - inversion H. lia.
  - destruct (digit_of c) as [d|] eqn:Hd; [|discriminate].
    apply digit_of_range in Hd. apply (IH (acc * 10 + d)); [lia|exact H].
Qed.

Lemma ParseUint_nonneg (s : string) (un : Z) : ParseUint s = Some un -> 0 <= un.
Proof.
  unfold ParseUint. destruct s; [discriminate|].
  apply parse_digits_nonneg. lia.
Qed.

(** What [strconv.ParseInt(s, 10, 0)] returns without an error is an
    [int64]. *)
Lemma ParseInt_in_int (s : string) (z : Z) : ParseInt s = Some z -> in_int 64 z.
Proof.
  unfold ParseInt. destruct s as [|c s]; [discriminate|].
  cbv zeta.
  destruct (ParseUint (if (c =? "+")%char || (c =? "-")%char then s else String c s))
    as [un|] eqn:Hun; [|discriminate].
  apply ParseUint_nonneg in Hun.
  destruct (c =? "-")%char.
  - destruct (un <=? 2 ^ 63) eqn:Hle; [|discriminate].
    apply Z.leb_le in Hle. intros H. inversion H. unfold in_int.
    change (2 ^ (64 - 1)) with (2 ^ 63). lia.
  - destruct (un <? 2 ^ 63) eqn:Hlt; [|discriminate].
    apply Z.ltb_lt in Hlt. intros H. inversion H. subst. unfold in_int.
    change (2 ^ (64 - 1)) with (2 ^ 63). lia.
Qed.

Lemma IntW_wraps_to (fm : FloatModel) (w : Z) (value : iface) (z : Z) :
  0 < w -> integer_of value = Some z -> wraps_to w z (IntW fm w value).
Proof.
  intros Hw Hz.
  assert (HI : IntW fm w value = (wrap w z, true)).
  { destruct value; try discriminate; simpl in Hz.
    - inversion Hz. reflexivity.
    - simpl. rewrite Hz. reflexivity. }
  rewrite HI. unfold wraps_to. cbn [fst snd].
  split; [reflexivity|]. split; [apply wrap_in_int; exact Hw|].
  split; [apply wrap_congruent; exact Hw|apply wrap_fixed; exact Hw].
Qed.

(** X19. Integer coercion never reports an overflow. For an integer of any
    kind, and for a string that parses as a base-10 integer, [Int16], [Int32]
    and [Int64] report success and return the number reduced to the width:
    congruent to it modulo [2 ^ w], and equal to it exactly when it fits. A
    string that parses always fits [Int64], which returns the parsed number
    itself. *)
Theorem integer_coercion_wraps (fm : FloatModel) (value : iface) (z : Z) :
  integer_of value = Some z ->
  wraps_to 16 z (Int16 fm value)
  /\ wraps_to 32 z (Int32 fm value)
  /\ wraps_to 64 z (Int64 fm value)
  /\ (forall s : string, value = VString s -> Int64 fm value = (z, true)).
Proof.
  intros Hz.
  split; [apply IntW_wraps_to; [lia|exact Hz]|].
  split; [apply IntW_wraps_to; [lia|exact Hz]|].
  split; [apply IntW_wraps_to; [lia|exact Hz]|].
  intros s ->. simpl in Hz. unfold Int64, IntW. rewrite Hz.
  rewrite wrap_small by (lia || apply (ParseInt_in_int s z Hz)). reflexivity.
Qed.

(** Witness of [integer_coercion_wraps]: the string ["70000"], which does not
    fit 16 bits. *)
Lemma integer_coercion_wraps_witness :
  wraps_to 16 70000 (Int16 Sample.floats (VString "70000"))
  /\ wraps_to 32 70000 (Int32 Sample.floats (VString "70000"))
  /\ wraps_to 64 70000 (Int64 Sample.floats (VString "70000"))
  /\ (forall s : string,
         VString "70000" = VString s ->
         Int64 Sample.floats (VString "70000") = (70000, true)).
Proof.
  exact (integer_coercion_wraps Sample.floats (VString "70000") 70000 eq_refl).
Defined.

(** ** Decoded values are normal forms *)

Section NormalForms.

Variable fm : FloatModel.
Variable g : Globals.
Variable service : Service.

(** [stable T v]: the decoded form of [v] is schema-valid for [T] and decodes
    to itself. *)
Let stable (parserType : option Type_) (v : iface) : Prop :=
  has_type fm g service parserType (normalize fm g service parserType v)
  /\ normalize fm g service parserType (normalize fm g service parserType v)
     = normalize fm g service parserType v.

Let stable_component (x : iface) : Prop :=
  forall parserType : option Type_,
    has_type fm g service parserType x -> stable parserType x.

Lemma find_by_name (fields : list Field) (field : Field) :
  NoDup (map Field_Name fields) ->
  In field fields ->
  find (fun field' => String.eqb (Field_Name field') (Field_Name field)) fields
  = Some field.
Proof.
  induction fields as [|field' fields IH]; intros Hnd Hin; [contradiction|].
  simpl in Hnd. apply NoDup_cons in Hnd as [Hfresh Hnd].
  cbn [find]. destruct Hin as [->|Hin].
  - rewrite String.eqb_refl. reflexivity.
  - destruct (String.eqb (Field_Name field') (Field_Name field)) eqn:He.
    + apply String.eqb_eq in He. exfalso. apply Hfresh. rewrite He.
      apply list_elem_of_In, in_map. exact Hin.
    + apply (IH Hnd Hin).
Qed.

Lemma fields_norm_stable (all : list Field) (m : list (string * iface)) :
  NoDup (map Field_Name all) ->
  Forall (fun kv => stable_component (snd kv)) m ->
  forall fields : list Field,
    (forall field, In field fields -> In field all) ->
    fields_ok fm g service m fields ->
    fields_ok fm g service (fields_norm fm g service m all) fields
    /\ fields_norm fm g service (fields_norm fm g service m all) fields
       = fields_norm fm g service m fields.
Proof.
  intros Hnd Hm.
  induction fields as [|field fields IH]; intros Hsub Hok; [split; [exact I|reflexivity]|].
  destruct Hok as [Hfield Hrest].
  destruct (IH (fun f Hf => Hsub f (or_intror Hf)) Hrest) as [IHok IHnorm].
  assert (Hget : map_get (Field_Name field) (fields_norm fm g service m all)
                 = option_map (normalize fm g service (Field_Type field))
                     (map_get (Field_Name field) m)).
  { rewrite (normalize_struct_lookup fm g service m all _ Hnd).
    rewrite (find_by_name all field Hnd (Hsub field (or_introl eq_refl))).
    reflexivity. }
  cbn [fields_ok fields_norm]. rewrite !with_map_get_spec, Hget.
  rewrite with_map_get_spec in Hfield.
  destruct (map_get (Field_Name field) m) as [x|] eqn:Hx; cbn [option_map].
  - destruct (map_get_Forall _ _ _ _ Hm Hx _ Hfield) as [Hty Hidem].
    split; [split; [exact Hty|exact IHok]|].
    rewrite Hidem, IHnorm. reflexivity.
  - split; [split; [exact Hfield|exact IHok]|].
    rewrite IHnorm. reflexivity.
Qed.

Lemma entries_norm_keys (valueType : Type_) (m : list (string * iface)) :
  map fst (entries_norm fm g service valueType m) = map fst m.
Proof.
  induction m as [|[k x] m IH]; [reflexivity|].
  cbn [entries_norm map fst]. rewrite IH. reflexivity.
Qed.

Lemma entries_norm_stable (valueType : Type_) (m : list (string * iface)) :
  Forall (fun kv => stable_component (snd kv)) m ->
  entries_ok fm g service valueType m ->
  entries_ok fm g service valueType (entries_norm fm g service valueType m)
  /\ entries_norm fm g service valueType (entries_norm fm g service valueType m)
     = entries_norm fm g service valueType m.
Proof.
  induction 1 as [|[k x] m Hx Hm IH]; intros Hok; [split; [exact I|reflexivity]|].
  destruct Hok as (Hk & Hty & Hrest).
  destruct (IH Hrest) as [IHok IHnorm].
  cbn [snd] in Hx. destruct (Hx _ Hty) as [Hty' Hidem].
  cbn [entries_ok entries_norm]. split; [split; [exact Hk|split; assumption]|].
  rewrite Hidem, IHnorm. reflexivity.
Qed.

Lemma elements_norm_stable (valueType : Type_) (l : list iface) :
  Forall stable_component l ->
  elements_ok fm g service valueType l ->
  elements_ok fm g service valueType (elements_norm fm g service valueType l)
  /\ elements_norm fm g service valueType (elements_norm fm g service valueType l)
     = elements_norm fm g service valueType l.
Proof.
  induction 1 as [|x l Hx Hl IH]; intros Hok; [split; [exact I|reflexivity]|].
  destruct Hok as (Hty & Hrest).
  destruct (IH Hrest) as [IHok IHnorm].
  destruct (Hx _ Hty) as [Hty' Hidem].
  cbn [elements_ok elements_norm]. split; [split; assumption|].
  rewrite Hidem, IHnorm. reflexivity.
Qed.

Lemma elements_norm_length (valueType : Type_) (l : list iface) :
  length (elements_norm fm g service valueType l) = length l.
Proof.
  induction l as [|x l IH]; [reflexivity|].
  cbn [elements_norm length]. rewrite IH. reflexivity.
Qed.

Lemma IntW_stable (w : Z) (k : int_kind) (v : iface) :
  0 < w ->
  IntW fm w (VInt k (fst (IntW fm w v))) = (fst (IntW fm w v), true).
Proof.
  intros Hw. cbn [IntW]. rewrite wrap_small by (exact Hw || apply IntW_in_int; exact Hw).
  reflexivity.
Qed.

Lemma normalize_stable (v : iface) : stable_component v.
Proof.
  induction v as [ | b | k n | f | f | s | l IH | m IH ] using iface_ind';
    intros [ty|] Hty; try (exfalso; exact (has_type_None _ _ _ _ Hty));
    pose proof (has_type_tag _ _ _ _ _ Hty) as Htag; simpl in Htag;
    destruct Htag as [E|[E|[E|[E|[E|[E|[E|[E|[E|[E|[]]]]]]]]]]]; symmetry in E;
    unfold stable;
    try (rewrite !(normalize_BOOL _ _ _ _ _ E); split; [exact Hty|reflexivity]);
    try (rewrite !(normalize_BYTE _ _ _ _ _ E); split; [exact Hty|reflexivity]);
    try (rewrite !(normalize_STRING _ _ _ _ _ E); split; [exact Hty|reflexivity]);
    try (rewrite !(normalize_DOUBLE _ _ _ _ _ E), (has_type_DOUBLE _ _ _ _ _ E);
         split; reflexivity);
    try (rewrite !(normalize_I16 _ _ _ _ _ E), (has_type_I16 _ _ _ _ _ E);
         unfold Int16; rewrite IntW_stable by lia; split; reflexivity);
    try (rewrite !(normalize_I32 _ _ _ _ _ E), (has_type_I32 _ _ _ _ _ E);
         unfold Int32; rewrite IntW_stable by lia; split; reflexivity);
    try (rewrite !(normalize_I64 _ _ _ _ _ E), (has_type_I64 _ _ _ _ _ E);
         unfold Int64; rewrite IntW_stable by lia; split; reflexivity);
    try (exfalso; rewrite (has_type_STRUCT _ _ _ _ _ E) in Hty;
         destruct (Service_Structs service !! Type_Name ty); exact Hty);
    try (exfalso; rewrite (has_type_MAP _ _ _ _ _ E) in Hty;
         destruct (Type_ValueType ty); exact Hty);
    try (exfalso; rewrite (has_type_LIST _ _ _ _ _ E) in Hty;
         destruct (Type_ValueType ty); exact Hty).
  - (* LIST *)
    rewrite (has_type_LIST _ _ _ _ _ E) in Hty.
    rewrite !(normalize_LIST _ _ _ _ _ E), (has_type_LIST _ _ _ _ _ E).
    destruct (Type_ValueType ty) as [valueType|]; [|contradiction].
    destruct Hty as [Hlen Hok].
    destruct (elements_norm_stable valueType l IH Hok) as [Hok' Hidem].
    rewrite elements_norm_length, Hidem. split; [split; assumption|reflexivity].
  - (* STRUCT *)
    rewrite (has_type_STRUCT _ _ _ _ _ E) in Hty.
    rewrite !(normalize_STRUCT _ _ _ _ _ E), (has_type_STRUCT _ _ _ _ _ E).
    destruct (Service_Structs service !! Type_Name ty) as [thriftStruct|];
      [|contradiction].
    destruct Hty as [Hstruct Hok].
    destruct (fields_norm_stable (Struct_Fields thriftStruct) m
                (proj2 (proj2 Hstruct)) IH (Struct_Fields thriftStruct)
                (fun _ H => H) Hok) as [Hok' Hidem].
    rewrite Hidem. split; [split; assumption|reflexivity].
  - (* MAP *)
    rewrite (has_type_MAP _ _ _ _ _ E) in Hty.
    rewrite !(normalize_MAP _ _ _ _ _ E), (has_type_MAP _ _ _ _ _ E).
    destruct (Type_ValueType ty) as [valueType|]; [|contradiction].
    destruct Hty as (Hnd & Hlen & Hok).
    destruct (entries_norm_stable valueType m IH Hok) as [Hok' Hidem].
    rewrite Hidem, entries_norm_keys.
    split; [|reflexivity]. split; [exact Hnd|]. split; [|exact Hok'].
    rewrite <- (length_map fst), entries_norm_keys, length_map. exact Hlen.
Qed.

End NormalForms.

(** X20. What was read can be written back. The value that [ReadValue]
    returns for the bytes of a schema-valid value [v] of type [T], the normal
    form of [v], is itself schema-valid for [T], and it is a fixed point of
    the round trip: [WriteValue T] accepts it, and [ReadValue T] returns it
    unchanged from the bytes written. *)
Theorem decoded_value_round_trips (fm : FloatModel) (g : Globals)
  (service : Service) (parserType : option Type_) (v : iface) :
  registry_ok g ->
  has_type fm g service parserType v ->
  has_type fm g service parserType (normalize fm g service parserType v)
  /\ exists (bytes : list byte) (fuel0 : nat),
       (forall out : binary.Buffer,
           WriteValue binary.protocol fm g service parserType
             (normalize fm g service parserType v) out
           = (Ok tt, out ++ bytes))
       /\ (forall (fuel : nat) (rest : binary.Buffer),
              (fuel0 <= fuel)%nat ->
              ReadValue binary.protocol g service fuel parserType (bytes ++ rest)
              = (Ok (normalize fm g service parserType v), rest)).
Proof.
  intros Hg Hty.
  destruct (normalize_stable fm g service v parserType Hty) as [Hty' Hidem].
  split; [exact Hty'|].
  destruct (has_type_round_trips fm g service Hg _ parserType Hty')
    as (bytes & fuel0 & Hw & Hr).
  exists bytes, fuel0. split; [exact Hw|].
  intros fuel rest Hfuel. rewrite (Hr fuel Hfuel rest), Hidem. reflexivity.
Qed.

(** Witness of [decoded_value_round_trips]: the sample [Person] as it was
    decoded. *)
Lemma decoded_value_round_trips_witness :
  has_type Sample.floats Sample.globals Sample.service (Sample.ty "Person")
    (VMap [("name"%string, VString "bob"); ("age"%string, VInt Kint32 42)])
  /\ exists (bytes : list byte) (fuel0 : nat),
       (forall out : binary.Buffer,
           WriteValue binary.protocol Sample.floats Sample.globals
             Sample.service (Sample.ty "Person")
             (VMap [("name"%string, VString "bob");
                    ("age"%string, VInt Kint32 42)]) out
           = (Ok tt, out ++ bytes))
       /\ (forall (fuel : nat) (rest : binary.Buffer),
              (fuel0 <= fuel)%nat ->
              ReadValue binary.protocol Sample.globals Sample.service fuel
                (Sample.ty "Person") (bytes ++ rest)
              = (Ok (VMap [("name"%string, VString "bob");
                           ("age"%string, VInt Kint32 42)]), rest)).
Proof.
  rewrite <- normalize_sample_person.
  exact (decoded_value_round_trips Sample.floats Sample.globals
           Sample.service (Sample.ty "Person") sample_person
           registry_ok_Sample has_type_sample_person).
Defined.

(** ** Reading with an older descriptor *)

Lemma writes_unique (m : M binary.Buffer unit) (b b' : list byte) :
  writes m b -> writes m b' -> b = b'.
Proof.
  intros H H'. specialize (H []). specialize (H' []). rewrite H in H'.
  cbn [app] in H'. congruence.
Qed.

Lemma reads_discard {A : Type} (m : M binary.Buffer A) (bytes : list byte)
  (a : A) :
  reads m bytes a -> reads (let* _ := m in ret tt) bytes tt.
Proof. intros H. apply (reads_map m (fun _ => tt) bytes a H). Qed.

Lemma nesting_pos (v : iface) : (1 <= nesting v)%nat.
Proof. destruct v; simpl; lia. Qed.

Lemma map_get_nesting (k : string) (m : list (string * iface)) (x : iface) :
  map_get k m = Some x -> (nesting x <= entries_nesting m)%nat.
Proof.
  unfold map_get. induction m as [|[k' y] m IH]; simpl; [discriminate|].
  destruct (String.eqb k' k).
  - intros H. inversion H; subst. lia.
  - intros H. specialize (IH H). lia.
Qed.

Section SkipWritten.

Variable fm : FloatModel.
Variable g : Globals.
Variable service : Service.
Hypothesis Hregistry : registry_ok g.

Let skips (x : iface) : Prop :=
  forall ty : Type_,
    has_type fm g service (Some ty) x -> skipped_as_written fm g service ty x.

Section Scalars.

Variable ty : Type_.
Variable v : iface.
Hypothesis Hty : has_type fm g service (Some ty) v.

Ltac at_depth E reader :=
  let d := fresh "d" in
  let Hd := fresh "Hd" in
  intros d Hd;
  match type of Hd with
  | (nesting ?x <= _)%nat => pose proof (nesting_pos x)
  end;
  destruct d as [|d]; [lia|]; rewrite E;
  match goal with
  | |- reads _ ?b _ => change (reads (let* _ := reader in ret tt) b tt)
  end;
  eapply reads_discard.

Lemma skipped_BOOL :
  LookupType g service (Type_Name ty) = BOOL -> skipped_as_written fm g service ty v.
Proof.
  intros E. rewrite (has_type_BOOL _ _ _ _ _ E) in Hty. unfold skipped_as_written.
  rewrite (WriteValue_BOOL _ _ _ _ _ _ E).
  destruct v; try contradiction.
  eexists. split; [apply writes_write|].
  at_depth E binary.ReadBool. apply reads_ReadBool.
Qed.

Lemma skipped_BYTE :
  LookupType g service (Type_Name ty) = BYTE -> skipped_as_written fm g service ty v.
Proof.
  intros E. rewrite (has_type_BYTE _ _ _ _ _ E) in Hty. unfold skipped_as_written.
  rewrite (WriteValue_BYTE _ _ _ _ _ _ E).
  destruct v as [| |k n| | | | |]; try contradiction.
  destruct k; try contradiction.
  eexists. split; [apply writes_write|].
  at_depth E binary.ReadByte. apply reads_ReadByte. exact Hty.
Qed.

Lemma skipped_DOUBLE :
  LookupType g service (Type_Name ty) = DOUBLE -> skipped_as_written fm g service ty v.
Proof.
  intros E. rewrite (has_type_DOUBLE _ _ _ _ _ E) in Hty. unfold skipped_as_written.
  rewrite (WriteValue_DOUBLE _ _ _ _ _ _ E).
  destruct (Float64 fm v) as [[b7 b6 b5 b4 b3 b2 b1 b0] ok]; simpl in Hty; subst ok.
  eexists. split; [apply writes_write|].
  at_depth E binary.ReadDouble. apply reads_ReadDouble.
Qed.

Lemma skipped_I16 :
  LookupType g service (Type_Name ty) = I16 -> skipped_as_written fm g service ty v.
Proof.
  intros E. rewrite (has_type_I16 _ _ _ _ _ E) in Hty. unfold skipped_as_written.
  rewrite (WriteValue_I16 _ _ _ _ _ _ E).
  pose proof (IntW_in_int fm 16 v ltac:(lia)) as Hrange. unfold Int16 in *.
  destruct (IntW fm 16 v) as [x ok]; simpl in Hty, Hrange; subst ok.
  eexists. split; [apply writes_write|].
  at_depth E binary.ReadI16. apply reads_ReadI16. exact Hrange.
Qed.

Lemma skipped_I32 :
  LookupType g service (Type_Name ty) = I32 -> skipped_as_written fm g service ty v.
Proof.
  intros E. rewrite (has_type_I32 _ _ _ _ _ E) in Hty. unfold skipped_as_written.
  rewrite (WriteValue_I32 _ _ _ _ _ _ E).
  pose proof (IntW_in_int fm 32 v ltac:(lia)) as Hrange. unfold Int32 in *.
  destruct (IntW fm 32 v) as [x ok]; simpl in Hty, Hrange; subst ok.
  eexists. split; [apply writes_write|].
  at_depth E binary.ReadI32. apply reads_ReadI32. exact Hrange.
Qed.

Lemma skipped_I64 :
  LookupType g service (Type_Name ty) = I64 -> skipped_as_written fm g service ty v.
Proof.
  intros E. rewrite (has_type_I64 _ _ _ _ _ E) in Hty. unfold skipped_as_written.
  rewrite (WriteValue_I64 _ _ _ _ _ _ E).
  pose proof (IntW_in_int fm 64 v ltac:(lia)) as Hrange. unfold Int64 in *.
  destruct (IntW fm 64 v) as [x ok]; simpl in Hty, Hrange; subst ok.
  eexists. split; [apply writes_write|].
  at_depth E binary.ReadI64. apply reads_ReadI64. exact Hrange.
Qed.

Lemma skipped_STRING :
  LookupType g service (Type_Name ty) = STRING -> skipped_as_written fm g service ty v.
Proof.
  intros E. rewrite (has_type_STRING _ _ _ _ _ E) in Hty. unfold skipped_as_written.
  rewrite (WriteValue_STRING _ _ _ _ _ _ E).
  destruct v; try contradiction.
  eexists. split; [apply writes_WriteString; exact Hty|].
  at_depth E binary.ReadString. apply reads_ReadString. exact Hty.
Qed.

End Scalars.

Lemma elements_skipped (valueType : Type_) (l : list iface) :
  Forall skips l ->
  elements_ok fm g service valueType l ->
  exists bytes : list byte,
    writes (write_elements fm g service valueType l) bytes
    /\ forall d : nat,
         (elements_nesting l <= d)%nat ->
         reads (binary.Skip_list_loop (binary.Skip_depth d)
                  (LookupType g service (Type_Name valueType)) (length l))
           bytes tt.
Proof.
  induction 1 as [|x l Hx Hl IH]; intros Hok.
  - exists []. split; [apply writes_ret|]. intros d _. apply reads_ret.
  - destruct Hok as [Hhead Hrest].
    destruct (Hx _ Hhead) as (bx & Wx & Rx).
    destruct (IH Hrest) as (bl & Wl & Rl).
    exists (bx ++ bl). split; [apply writes_bind; assumption|].
    intros d Hd. cbn [elements_nesting] in Hd.
    cbn [length binary.Skip_list_loop].
    apply (reads_bind _ _ bx bl tt); [apply Rx; lia|apply Rl; lia].
Qed.

Lemma entries_skipped (valueType : Type_) (m : list (string * iface)) :
  Forall (fun kv => skips (snd kv)) m ->
  entries_ok fm g service valueType m ->
  exists bytes : list byte,
    writes (write_entries fm g service valueType m) bytes
    /\ forall d : nat,
         (entries_nesting m <= d)%nat ->
         reads (binary.Skip_map_loop (binary.Skip_depth d) STRING
                  (LookupType g service (Type_Name valueType)) (length m))
           bytes tt.
Proof.
  induction 1 as [|[k x] m Hx Hm IH]; intros Hok.
  - exists []. split; [apply writes_ret|]. intros d _. apply reads_ret.
  - destruct Hok as (Hk & Hhead & Hrest). cbn [snd] in Hx.
    destruct (Hx _ Hhead) as (bx & Wx & Rx).
    destruct (IH Hrest) as (bl & Wl & Rl).
    exists (string_bytes k ++ bx ++ bl). split.
    + apply writes_bind; [apply writes_WriteString; exact Hk|].
      apply writes_bind; assumption.
    + intros d Hd. cbn [entries_nesting] in Hd.
      pose proof (nesting_pos x).
      cbn [length binary.Skip_map_loop].
      apply (reads_bind _ _ (string_bytes k) (bx ++ bl) tt).
      * destruct d as [|d]; [lia|].
        change (binary.Skip_depth (S d) STRING)
          with (let* _ := binary.ReadString in ret (P := binary.Buffer) tt).
        eapply reads_discard. apply reads_ReadString. exact Hk.
      * apply (reads_bind _ _ bx bl tt); [apply Rx; lia|apply Rl; lia].
Qed.

(** The fields that [WriteStruct] writes, passed over by the struct loop of
    [thrift.Skip]; [n] counts the field headers. *)
Lemma fields_skipped (m : list (string * iface)) :
  Forall (fun kv => skips (snd kv)) m ->
  forall fields : list Field,
    Forall (fun field => in_int 16 (Field_ID field)) fields ->
    fields_ok fm g service m fields ->
    exists (bytes : list byte) (n : nat),
      writes (write_fields fm g service m fields) bytes
      /\ (n <= length bytes)%nat
      /\ forall d fuel : nat,
           (entries_nesting m <= d)%nat ->
           (n < fuel)%nat ->
           reads (binary.Skip_struct_loop (binary.Skip_depth d) fuel)
             (bytes ++ [x00]) tt.
Proof.
  intros Hm. induction fields as [|field fields IH]; intros Hids Hok.
  - exists [], 0%nat. split; [apply writes_ret|]. split; [simpl; lia|].
    intros d fuel _ Hfuel rest. destruct fuel as [|fuel]; [lia|]. reflexivity.
  - destruct Hok as [Hfield Hrest]. rewrite with_map_get_spec in Hfield.
    apply Forall_cons in Hids as [Hid Hids].
    destruct (IH Hids Hrest) as (bl & n & Wl & Hn & Rl).
    cbn [write_fields]. rewrite with_map_get_spec.
    destruct (map_get (Field_Name field) m) as [fieldValue|] eqn:Hget.
    + destruct (Field_Type field) as [fty|] eqn:Hfty;
        [|exfalso; exact (has_type_None _ _ _ _ Hfield)].
      pose proof (has_type_wire_tag _ _ _ _ _ Hfield) as Htag.
      destruct (map_get_Forall _ _ _ _ Hm Hget _ Hfield) as (bv & Wv & Rv).
      pose proof (map_get_nesting _ _ _ Hget) as Hnest.
      exists ((field_header (LookupType g service (Type_Name fty)) (Field_ID field)
                 ++ bv) ++ bl), (S n).
      split; [|split].
      * apply writes_bind; [|exact Wl].
        unfold WriteField, WriteField_with. rewrite Hfty.
        rewrite wrap_small by (lia || exact Hid).
        apply writes_bind; [apply writes_WriteFieldBegin|].
        apply (writes_eq _ (bv ++ [])); [|apply app_nil_r].
        apply writes_bind; [exact Wv|apply writes_ret].
      * rewrite !length_app. unfold field_header. rewrite length_app.
        cbn [length]. lia.
      * intros d fuel Hd Hfuel rest. destruct fuel as [|fuel]; [lia|].
        cbn [binary.Skip_struct_loop]. unfold bind at 1.
        rewrite <- !app_assoc.
        rewrite (reads_ReadFieldBegin _ _ Htag Hid).
        replace (LookupType g service (Type_Name fty) =? STOP) with false
          by (symmetry; apply Z.eqb_neq; unfold wire_tag, STOP in *; lia).
        unfold bind at 1. rewrite (Rv d ltac:(lia)).
        rewrite app_assoc. apply (Rl d fuel Hd ltac:(lia)).
    + exists bl, n. split; [|split; [exact Hn|exact Rl]].
      rewrite Hfield.
      apply (writes_bind _ _ [] bl); [apply writes_ret|exact Wl].
Qed.

Lemma skipped_LIST (ty : Type_) (l : list iface) :
  LookupType g service (Type_Name ty) = LIST ->
  has_type fm g service (Some ty) (VList l) ->
  Forall skips l ->
  skipped_as_written fm g service ty (VList l).
Proof.
  intros E Hty Hl. rewrite (has_type_LIST _ _ _ _ _ E) in Hty.
  unfold skipped_as_written.
  rewrite (WriteValue_LIST _ _ _ _ _ _ E).
  unfold WriteList, WriteList_with.
  destruct (Type_ValueType ty) as [valueType|] eqn:Hvt; [|contradiction].
  destruct Hty as [Hlen Hok].
  destruct (elements_skipped valueType l Hl Hok) as (bl & Wl & Rl).
  exists (list_header (LookupType g service (Type_Name valueType)) (length l) ++ bl).
  split.
  - apply writes_bind; [apply writes_WriteListBegin; exact Hlen|].
    apply (writes_eq _ (bl ++ [])); [|apply app_nil_r].
    apply writes_bind; [exact Wl|apply writes_ret].
  - intros d Hd. destruct d as [|d]; [simpl in Hd; lia|]. rewrite E.
    change (binary.Skip_depth (S d) LIST)
      with (let* header := binary.ReadListBegin in
            let '(elemType, size) := header in
            binary.Skip_list_loop (binary.Skip_depth d) elemType (Z.to_nat size)).
    apply (reads_bind _ _ _ _
             (LookupType g service (Type_Name valueType), Z.of_nat (length l))).
    + apply reads_ReadListBegin;
        [apply LookupType_byte_tag; exact Hregistry|exact Hlen].
    + cbv beta iota. rewrite Nat2Z.id. apply Rl.
      change (nesting (VList l)) with (S (elements_nesting l)) in Hd. lia.
Qed.

Lemma skipped_MAP (ty : Type_) (m : list (string * iface)) :
  LookupType g service (Type_Name ty) = MAP ->
  has_type fm g service (Some ty) (VMap m) ->
  Forall (fun kv => skips (snd kv)) m ->
  skipped_as_written fm g service ty (VMap m).
Proof.
  intros E Hty Hm. rewrite (has_type_MAP _ _ _ _ _ E) in Hty.
  unfold skipped_as_written.
  rewrite (WriteValue_MAP _ _ _ _ _ _ E).
  unfold WriteMap, WriteMap_with.
  destruct (Type_ValueType ty) as [valueType|] eqn:Hvt; [|contradiction].
  destruct Hty as (Hnd & Hlen & Hok).
  destruct (entries_skipped valueType m Hm Hok) as (bl & Wl & Rl).
  exists (map_header STRING (LookupType g service (Type_Name valueType)) (length m)
            ++ bl).
  split.
  - apply writes_bind; [apply writes_WriteMapBegin; exact Hlen|].
    apply (writes_eq _ (bl ++ [])); [|apply app_nil_r].
    apply writes_bind; [exact Wl|apply writes_ret].
  - intros d Hd. destruct d as [|d]; [simpl in Hd; lia|]. rewrite E.
    change (binary.Skip_depth (S d) MAP)
      with (let* header := binary.ReadMapBegin in
            let '(keyType, valueType, size) := header in
            binary.Skip_map_loop (binary.Skip_depth d) keyType valueType
              (Z.to_nat size)).
    apply (reads_bind _ _ _ _
             (STRING, LookupType g service (Type_Name valueType),
              Z.of_nat (length m))).
    + apply reads_ReadMapBegin;
        [unfold byte_tag, STRING; lia
        |apply LookupType_byte_tag; exact Hregistry|exact Hlen].
    + cbv beta iota. rewrite Nat2Z.id. apply Rl.
      change (nesting (VMap m)) with (S (entries_nesting m)) in Hd. lia.
Qed.

Lemma skipped_STRUCT (ty : Type_) (m : list (string * iface)) :
  LookupType g service (Type_Name ty) = STRUCT ->
  has_type fm g service (Some ty) (VMap m) ->
  Forall (fun kv => skips (snd kv)) m ->
  skipped_as_written fm g service ty (VMap m).
Proof.
  intros E Hty Hm. rewrite (has_type_STRUCT _ _ _ _ _ E) in Hty.
  unfold skipped_as_written.
  rewrite (WriteValue_STRUCT _ _ _ _ _ _ E).
  unfold WriteStruct, WriteStruct_with.
  destruct (Service_Structs service !! Type_Name ty) as [thriftStruct|] eqn:Hst;
    [|contradiction].
  destruct Hty as [(Hids & Hnodup & Hnames) Hok].
  destruct (fields_skipped m Hm (Struct_Fields thriftStruct) Hids Hok)
    as (bf & n & Wf & Hn & Rf).
  exists (bf ++ [x00]). split.
  - apply (writes_bind _ _ [] (bf ++ [x00])); [apply writes_ret|].
    apply writes_bind; [exact Wf|].
    apply (writes_eq _ ([x00] ++ [])); [|reflexivity].
    apply writes_bind; [apply writes_write|apply writes_ret].
  - intros d Hd. destruct d as [|d]; [simpl in Hd; lia|]. rewrite E.
    change (binary.Skip_depth (S d) STRUCT)
      with (fun buf : binary.Buffer =>
              binary.Skip_struct_loop (binary.Skip_depth d) (S (length buf)) buf).
    intros rest. cbv beta.
    apply (Rf d (S (length ((bf ++ [x00]) ++ rest)))).
    + change (nesting (VMap m)) with (S (entries_nesting m)) in Hd. lia.
    + rewrite !length_app. lia.
Qed.

(** Every schema-valid value is passed over by [thrift.Skip] as it was
    written. *)
Lemma has_type_skipped (v : iface) : skips v.
Proof.
  induction v as [ | b | k n | f | f | s | l IH | m IH ] using iface_ind';
    intros ty Hty;
    pose proof (has_type_tag _ _ _ _ _ Hty) as Htag; simpl in Htag;
    destruct Htag as [E|[E|[E|[E|[E|[E|[E|[E|[E|[E|[]]]]]]]]]]]; symmetry in E;
    try (apply (skipped_BOOL _ _ Hty E));
    try (apply (skipped_BYTE _ _ Hty E));
    try (apply (skipped_DOUBLE _ _ Hty E));
    try (apply (skipped_I16 _ _ Hty E));
    try (apply (skipped_I32 _ _ Hty E));
    try (apply (skipped_I64 _ _ Hty E));
    try (apply (skipped_STRING _ _ Hty E));
    try (exfalso; rewrite (has_type_STRUCT _ _ _ _ _ E) in Hty;
         destruct (Service_Structs service !! Type_Name ty); exact Hty);
    try (exfalso; rewrite (has_type_MAP _ _ _ _ _ E) in Hty;
         destruct (Type_ValueType ty); exact Hty);
    try (exfalso; rewrite (has_type_LIST _ _ _ _ _ E) in Hty;
         destruct (Type_ValueType ty); exact Hty).
  - apply (skipped_LIST _ _ E Hty IH).
  - apply (skipped_STRUCT _ _ E Hty IH).
  - apply (skipped_MAP _ _ E Hty IH).
Qed.

End SkipWritten.

Lemma NoDup_map_filter {A B : Type} (f : A -> B) (p : A -> bool) (l : list A) :
  NoDup (map f l) -> NoDup (map f (List.filter p l)).
Proof.
  induction l as [|a l IH]; simpl; intros Hnd; [exact Hnd|].
  apply NoDup_cons in Hnd as [Hfresh Hnd].
  destruct (p a); simpl; [|exact (IH Hnd)].
  apply NoDup_cons_2; [|exact (IH Hnd)].
  intros Hin. apply Hfresh. apply list_elem_of_In in Hin.
  apply list_elem_of_In. apply in_map_iff in Hin as (b & Hb & Hin).
  apply List.filter_In in Hin as [Hin _]. apply in_map_iff. exists b. tauto.
Qed.

Lemma NoDup_map_In_eq {A B : Type} (f : A -> B) (l : list A) (a b : A) :
  NoDup (map f l) -> In a l -> In b l -> f a = f b -> a = b.
Proof.
  induction l as [|c l IH]; simpl; intros Hnd Ha Hb Hf; [contradiction|].
  apply NoDup_cons in Hnd as [Hfresh Hnd].
  destruct Ha as [->|Ha], Hb as [->|Hb].
  - reflexivity.
  - exfalso. apply Hfresh. rewrite Hf. apply list_elem_of_In, in_map. exact Hb.
  - exfalso. apply Hfresh. rewrite <- Hf. apply list_elem_of_In, in_map. exact Ha.
  - exact (IH Hnd Ha Hb Hf).
Qed.

(** The reader's lookup by ID in a descriptor that keeps some of the writer's
    fields. *)
Lemma find_field_kept (keep : Field -> bool) (pre rest : list Field)
  (field : Field) :
  NoDup (map Field_ID (pre ++ field :: rest)) ->
  find_field (Field_ID field) (List.filter keep (pre ++ field :: rest))
  = if keep field then Some field else None.
Proof.
  intros Hnd. destruct (keep field) eqn:Hkeep.
  - rewrite List.filter_app. cbn [List.filter]. rewrite Hkeep.
    apply find_field_NoDup.
    replace (List.filter keep pre ++ field :: List.filter keep rest)
      with (List.filter keep (pre ++ field :: rest))
      by (rewrite List.filter_app; cbn [List.filter]; rewrite Hkeep; reflexivity).
    apply NoDup_map_filter. exact Hnd.
  - destruct (find_field (Field_ID field) (List.filter keep (pre ++ field :: rest)))
      as [field'|] eqn:Hfind; [|reflexivity].
    unfold find_field in Hfind. apply find_some in Hfind as [Hin Hid].
    apply Z.eqb_eq in Hid. apply List.filter_In in Hin as [Hin Hkeep'].
    assert (field' = field).
    { apply (NoDup_map_In_eq Field_ID _ _ _ Hnd Hin); [|exact Hid].
      apply in_or_app. right. left. reflexivity. }
    subst field'. congruence.
Qed.

Section OlderDescriptor.

Variable fm : FloatModel.
Variable g : Globals.
Variable service : Service.
Hypothesis Hregistry : registry_ok g.

(** The fields written under the writer's descriptor [all], read under the
    descriptor that keeps the fields selected by [keep]: a field that is kept
    is decoded, any other is passed over. *)
Lemma fields_read_by_older (all : list Field) (keep : Field -> bool)
  (m : list (string * iface)) :
  Forall (fun field => in_int 16 (Field_ID field)) all ->
  NoDup (map Field_ID all) ->
  (entries_nesting m <= DEFAULT_RECURSION_DEPTH)%nat ->
  forall (fields pre : list Field),
    all = pre ++ fields ->
    NoDup (map Field_Name fields) ->
    fields_ok fm g service m fields ->
    exists (bytes : list byte) (fuel0 : nat),
      writes (write_fields fm g service m fields) bytes
      /\ forall (fuel k : nat) (acc : list (string * iface)),
           (fuel0 <= fuel)%nat -> (fuel0 <= k)%nat ->
           (forall field, In field fields -> ~ In (Field_Name field) (map fst acc)) ->
           reads (ReadStruct_loop binary.protocol
                    (ReadValue binary.protocol g service fuel)
                    (List.filter keep all) k acc)
             (bytes ++ [x00])
             (acc ++ fields_norm fm g service m (List.filter keep fields)).
Proof.
  intros Hids Hnodup Hdepth.
  assert (Hm : Forall (fun kv => component_round_trips fm g service (snd kv)) m).
  { apply Forall_forall. intros kv _. apply has_type_round_trips. exact Hregistry. }
  induction fields as [|field fields IH]; intros pre Hall Hnames Hok.
  - exists [], 1%nat. split; [apply writes_ret|].
    intros fuel k acc _ Hk _ rest. destruct k as [|k]; [lia|].
    cbn [List.filter fields_norm]. rewrite app_nil_r. reflexivity.
  - destruct Hok as [Hfield Hrest]. rewrite with_map_get_spec in Hfield.
    simpl in Hnames. apply NoDup_cons in Hnames as [Hfresh Hnames].
    assert (Hall' : all = (pre ++ [field]) ++ fields)
      by (rewrite <- app_assoc; exact Hall).
    destruct (IH (pre ++ [field]) Hall' Hnames Hrest) as (bl & fl & Wl & Rl).
    assert (Hfind : find_field (Field_ID field) (List.filter keep all)
                    = if keep field then Some field else None)
      by (rewrite Hall; apply find_field_kept; rewrite <- Hall; exact Hnodup).
    cbn [write_fields List.filter]. rewrite with_map_get_spec.
    destruct (map_get (Field_Name field) m) as [fieldValue|] eqn:Hget.
    + destruct (Field_Type field) as [fty|] eqn:Hfty;
        [|exfalso; exact (has_type_None _ _ _ _ Hfield)].
      pose proof (has_type_wire_tag _ _ _ _ _ Hfield) as Htag.
      destruct (map_get_Forall _ _ _ _ Hm Hget _ Hfield) as (bv & fv & Wv & Rv).
      assert (Hid : in_int 16 (Field_ID field)).
      { rewrite Forall_forall in Hids. apply Hids. rewrite Hall.
        apply list_elem_of_In, in_or_app. right. left. reflexivity. }
      exists ((field_header (LookupType g service (Type_Name fty)) (Field_ID field)
                 ++ bv) ++ bl), (S (Nat.max fv fl)).
      split.
      * apply writes_bind; [|exact Wl].
        unfold WriteField, WriteField_with. rewrite Hfty.
        rewrite wrap_small by (lia || exact Hid).
        apply writes_bind; [apply writes_WriteFieldBegin|].
        apply (writes_eq _ (bv ++ [])); [|apply app_nil_r].
        apply writes_bind; [exact Wv|apply writes_ret].
      * intros fuel k acc Hfuel Hk Hacc rest.
        destruct k as [|k]; [lia|].
        rewrite <- !app_assoc.
        destruct (keep field) eqn:Hkeep.
        -- rewrite (ReadStruct_loop_declared binary.protocol
                      (ReadValue binary.protocol g service fuel) (List.filter keep all)
                      k acc
                      _ (bv ++ bl ++ [x00] ++ rest) (bl ++ [x00] ++ rest)
                      (bl ++ [x00] ++ rest) ""%string
                      (LookupType g service (Type_Name fty)) (Field_ID field)
                      field (normalize fm g service (Some fty) fieldValue)).
           ++ rewrite map_set_fresh by (apply Hacc; left; reflexivity).
              cbn [fields_norm]. rewrite with_map_get_spec, Hget, Hfty.
              cbn [app].
              replace (acc ++ (Field_Name field,
                               normalize fm g service (Some fty) fieldValue)
                             :: fields_norm fm g service m (List.filter keep fields))
                with ((acc ++ [(Field_Name field,
                                normalize fm g service (Some fty) fieldValue)])
                        ++ fields_norm fm g service m (List.filter keep fields))
                by (rewrite <- app_assoc; reflexivity).
              assert (Hacc' : forall field', In field' fields ->
                        ~ In (Field_Name field')
                            (map fst (acc ++ [(Field_Name field,
                                      normalize fm g service (Some fty) fieldValue)]))).
              { intros field' Hin' Hkey. rewrite map_app in Hkey.
                apply in_app_or in Hkey. destruct Hkey as [Hkey|[Heq|[]]].
                - apply (Hacc field'); [right; exact Hin'|exact Hkey].
                - simpl in Heq. apply Hfresh. rewrite Heq.
                  apply list_elem_of_In, in_map. exact Hin'. }
              pose proof (Rl fuel k _ ltac:(lia) ltac:(lia) Hacc' rest) as Hread.
              rewrite <- app_assoc in Hread. cbn [app] in Hread. exact Hread.
           ++ apply (reads_ReadFieldBegin _ _ Htag Hid).
           ++ unfold wire_tag, STOP in *. lia.
           ++ exact Hfind.
           ++ rewrite Hfty. apply Rv. lia.
           ++ reflexivity.
        -- destruct (has_type_skipped fm g service Hregistry fieldValue fty Hfield)
             as (bv' & Wv' & Sv).
           pose proof (writes_unique _ _ _ Wv Wv') as <-.
           pose proof (map_get_nesting _ _ _ Hget) as Hnest.
           rewrite (ReadStruct_loop_unknown binary.protocol
                      (ReadValue binary.protocol g service fuel) (List.filter keep all)
                      k acc
                      _ (bv ++ bl ++ [x00] ++ rest) (bl ++ [x00] ++ rest)
                      (bl ++ [x00] ++ rest) ""%string
                      (LookupType g service (Type_Name fty)) (Field_ID field)
                      (Ok tt)).
           ++ pose proof (Rl fuel k acc ltac:(lia) ltac:(lia)
                            (fun f Hf => Hacc f (or_intror Hf)) rest) as Hread.
              rewrite <- app_assoc in Hread. cbn [app] in Hread. exact Hread.
           ++ apply (reads_ReadFieldBegin _ _ Htag Hid).
           ++ unfold wire_tag, STOP in *. lia.
           ++ exact Hfind.
           ++ apply (Sv DEFAULT_RECURSION_DEPTH). lia.
           ++ left. reflexivity.
           ++ reflexivity.
    + rewrite Hfield.
      exists bl, fl. split.
      * apply (writes_bind _ _ [] bl); [apply writes_ret|exact Wl].
      * intros fuel k acc Hfuel Hk Hacc.
        replace (fields_norm fm g service m
                   (if keep field then field :: List.filter keep fields
                    else List.filter keep fields))
          with (fields_norm fm g service m (List.filter keep fields)).
        -- apply Rl; try assumption.
           intros field' Hin'. apply Hacc. right. exact Hin'.
        -- destruct (keep field); [|reflexivity].
           cbn [fields_norm]. rewrite with_map_get_spec, Hget. reflexivity.
Qed.

End OlderDescriptor.

(** X21. A struct written with more fields than the reader knows. Let the
    descriptor registered under [older] keep some of the fields of the
    descriptor registered under [newer], in the same order, and let [VMap m]
    be schema-valid for [newer], its values nesting no deeper than the
    recursion limit of [thrift.Skip]. Then what [WriteValue] writes for
    [newer] over the binary protocol is read under [older], given enough
    fuel, as the normal form of the value for [older]: the kept fields are
    decoded, the others are passed over, and exactly the bytes written are
    consumed. *)
Theorem ReadValue_older_descriptor (fm : FloatModel) (g : Globals)
  (service : Service) (newer older : Type_) (newerStruct olderStruct : Struct)
  (keep : Field -> bool) (m : list (string * iface)) :
  registry_ok g ->
  LookupType g service (Type_Name newer) = STRUCT ->
  LookupType g service (Type_Name older) = STRUCT ->
  Service_Structs service !! Type_Name newer = Some newerStruct ->
  Service_Structs service !! Type_Name older = Some olderStruct ->
  Struct_Fields olderStruct = List.filter keep (Struct_Fields newerStruct) ->
  has_type fm g service (Some newer) (VMap m) ->
  (nesting (VMap m) <= S DEFAULT_RECURSION_DEPTH)%nat ->
  exists (bytes : list byte) (fuel0 : nat),
    (forall out : binary.Buffer,
        WriteValue binary.protocol fm g service (Some newer) (VMap m) out
        = (Ok tt, out ++ bytes))
    /\ (forall (fuel : nat) (rest : binary.Buffer),
           (fuel0 <= fuel)%nat ->
           ReadValue binary.protocol g service fuel (Some older) (bytes ++ rest)
           = (Ok (normalize fm g service (Some older) (VMap m)), rest)).
Proof.
  intros Hg Enew Eold Hnew Hold Hkeep Hty Hdepth.
  rewrite (has_type_STRUCT _ _ _ _ _ Enew), Hnew in Hty.
  destruct Hty as [(Hids & Hnodup & Hnames) Hok].
  change (nesting (VMap m)) with (S (entries_nesting m)) in Hdepth.
  destruct (fields_read_by_older fm g service Hg (Struct_Fields newerStruct) keep m
              Hids Hnodup ltac:(lia) (Struct_Fields newerStruct) [] eq_refl
              Hnames Hok) as (bf & ff & Wf & Rf).
  exists (bf ++ [x00]), (S ff). split.
  - rewrite (WriteValue_STRUCT _ _ _ _ _ _ Enew).
    unfold WriteStruct, WriteStruct_with. rewrite Hnew.
    apply (writes_bind _ _ [] (bf ++ [x00])); [apply writes_ret|].
    apply writes_bind; [exact Wf|].
    apply (writes_eq _ ([x00] ++ [])); [|reflexivity].
    apply writes_bind; [apply writes_write|apply writes_ret].
  - intros fuel rest Hfuel. destruct fuel as [|fuel]; [lia|].
    rewrite (ReadValue_STRUCT _ _ _ _ _ Eold), (normalize_STRUCT _ _ _ _ _ Eold).
    unfold ReadStruct, ReadStruct_with. rewrite Hold, Hkeep.
    revert rest.
    apply (reads_bind _ _ [] (bf ++ [x00]) tt); [intros rest; reflexivity|].
    apply (reads_bind_nil _ _ _
             (fields_norm fm g service m (List.filter keep (Struct_Fields newerStruct)))).
    + apply (Rf fuel fuel []); [lia|lia|]. intros field _ [].
    + intros rest. reflexivity.
Qed.

(** The evolved sample schema builds the service and registry used below. *)
Lemma NewService_Evolution_schema :
  NewService Evolution.schema "People" Globals_initial
  = (Ok Evolution.service, Evolution.globals).
Proof. vm_compute. reflexivity. Qed.

Lemma registry_ok_Evolution : registry_ok Evolution.globals.
Proof.
  apply (NewService_registry_ok Evolution.schema "People" Globals_initial
           Evolution.globals (Ok Evolution.service) registry_ok_initial
           NewService_Evolution_schema).
Defined.

Lemma has_type_sample_person_Evolution :
  has_type Sample.floats Evolution.globals Evolution.service
    (Sample.ty "Person") sample_person.
Proof.
  unfold Sample.ty, sample_person.
  rewrite has_type_STRUCT by (vm_compute; reflexivity).
  change (Service_Structs Evolution.service !! Type_Name (mkType "Person" None None))
    with (Some Sample.Person).
  split.
  - unfold struct_ok. cbn [Struct_Fields Sample.Person map Field_ID Field_Name].
    split; [|split].
    + repeat (apply List.Forall_cons; [unfold in_int; simpl; lia|]).
      apply List.Forall_nil.
    + repeat (apply NoDup_cons_2;
              [intros H;
               repeat (apply elem_of_cons in H as [H|H]; [discriminate H|]);
               apply elem_of_nil in H; exact H|]).
      apply NoDup_nil_2.
    + repeat (apply NoDup_cons_2;
              [intros H;
               repeat (apply elem_of_cons in H as [H|H]; [discriminate H|]);
               apply elem_of_nil in H; exact H|]).
      apply NoDup_nil_2.
  - cbn [fields_ok Struct_Fields Sample.Person]. rewrite !with_map_get_spec.
    cbn [Field_Name Field_Type Sample.ty].
    change (map_get "name" _) with (Some (VString "bob")).
    change (map_get "age" _) with (Some (VString "42")).
    unfold Sample.ty.
    rewrite has_type_STRING by (vm_compute; reflexivity).
    rewrite has_type_I32 by (vm_compute; reflexivity).
    split; [|split];
      [unfold wire_length; simpl; lia | vm_compute; reflexivity | exact I].
Defined.

Lemma normalize_sample_person_as_Contact :
  normalize Sample.floats Evolution.globals Evolution.service
    (Sample.ty "Contact") sample_person
  = VMap [("name"%string, VString "bob")].
Proof. vm_compute. reflexivity. Qed.

(** Witness of [ReadValue_older_descriptor]: the sample [Person], written as a
    [Person], is read as a [Contact]. *)
Lemma ReadValue_older_descriptor_witness :
  exists (bytes : list byte) (fuel0 : nat),
    (forall out : binary.Buffer,
        WriteValue binary.protocol Sample.floats Evolution.globals
          Evolution.service (Sample.ty "Person") sample_person out
        = (Ok tt, out ++ bytes))
    /\ (forall (fuel : nat) (rest : binary.Buffer),
           (fuel0 <= fuel)%nat ->
           ReadValue binary.protocol Evolution.globals Evolution.service fuel
             (Sample.ty "Contact") (bytes ++ rest)
           = (Ok (VMap [("name"%string, VString "bob")]), rest)).
Proof.
  rewrite <- normalize_sample_person_as_Contact.
  refine (ReadValue_older_descriptor Sample.floats Evolution.globals
            Evolution.service (mkType "Person" None None)
            (mkType "Contact" None None) Sample.Person Evolution.Contact
            (fun field => Field_ID field =? 1)
            [("age"%string, VString "42"); ("name"%string, VString "bob");
             ("extra"%string, VBool true)]
            registry_ok_Evolution _ _ _ _ _ has_type_sample_person_Evolution _);
    first [ vm_compute; reflexivity | simpl; unfold DEFAULT_RECURSION_DEPTH; lia ].
Defined.

(** ** Reading with a newer descriptor *)

Section NewerDescriptor.

Variable fm : FloatModel.
Variable g : Globals.
Variable service : Service.
Hypothesis Hregistry : registry_ok g.

(** The fields written under the descriptor that keeps the fields of [all]
    selected by [keep], read under [all]: every field on the wire is
    declared, and a field that was not written is not missed. *)
Lemma fields_read_by_newer (all : list Field) (keep : Field -> bool)
  (m : list (string * iface)) :
  Forall (fun field => in_int 16 (Field_ID field)) all ->
  NoDup (map Field_ID all) ->
  forall (fields pre : list Field),
    all = pre ++ fields ->
    NoDup (map Field_Name fields) ->
    fields_ok fm g service m (List.filter keep fields) ->
    exists (bytes : list byte) (fuel0 : nat),
      writes (write_fields fm g service m (List.filter keep fields)) bytes
      /\ forall (fuel k : nat) (acc : list (string * iface)),
           (fuel0 <= fuel)%nat -> (fuel0 <= k)%nat ->
           (forall field, In field fields -> ~ In (Field_Name field) (map fst acc)) ->
           reads (ReadStruct_loop binary.protocol
                    (ReadValue binary.protocol g service fuel) all k acc)
             (bytes ++ [x00])
             (acc ++ fields_norm fm g service m (List.filter keep fields)).
Proof.
  intros Hids Hnodup.
  assert (Hm : Forall (fun kv => component_round_trips fm g service (snd kv)) m).
  { apply Forall_forall. intros kv _. apply has_type_round_trips. exact Hregistry. }
  induction fields as [|field fields IH]; intros pre Hall Hnames Hok.
  - exists [], 1%nat. split; [apply writes_ret|].
    intros fuel k acc _ Hk _ rest. destruct k as [|k]; [lia|].
    cbn [List.filter fields_norm]. rewrite app_nil_r. reflexivity.
  - simpl in Hnames. apply NoDup_cons in Hnames as [Hfresh Hnames].
    assert (Hall' : all = (pre ++ [field]) ++ fields)
      by (rewrite <- app_assoc; exact Hall).
    cbn [List.filter] in *.
    destruct (keep field) eqn:Hkeep.
    + destruct Hok as [Hfield Hrest]. rewrite with_map_get_spec in Hfield.
      destruct (IH (pre ++ [field]) Hall' Hnames Hrest) as (bl & fl & Wl & Rl).
      cbn [write_fields fields_norm]. rewrite !with_map_get_spec.
      destruct (map_get (Field_Name field) m) as [fieldValue|] eqn:Hget.
      * destruct (Field_Type field) as [fty|] eqn:Hfty;
          [|exfalso; exact (has_type_None _ _ _ _ Hfield)].
        pose proof (has_type_wire_tag _ _ _ _ _ Hfield) as Htag.
        destruct (map_get_Forall _ _ _ _ Hm Hget _ Hfield) as (bv & fv & Wv & Rv).
        assert (Hid : in_int 16 (Field_ID field)).
        { rewrite Forall_forall in Hids. apply Hids. rewrite Hall.
          apply list_elem_of_In, in_or_app. right. left. reflexivity. }
        assert (Hfind : find_field (Field_ID field) all = Some field)
          by (rewrite Hall; apply find_field_NoDup; rewrite <- Hall; exact Hnodup).
        exists ((field_header (LookupType g service (Type_Name fty)) (Field_ID field)
                   ++ bv) ++ bl), (S (Nat.max fv fl)).
        split.
        -- apply writes_bind; [|exact Wl].
           unfold WriteField, WriteField_with. rewrite Hfty.
           rewrite wrap_small by (lia || exact Hid).
           apply writes_bind; [apply writes_WriteFieldBegin|].
           apply (writes_eq _ (bv ++ [])); [|apply app_nil_r].
           apply writes_bind; [exact Wv|apply writes_ret].
        -- intros fuel k acc Hfuel Hk Hacc rest.
           destruct k as [|k]; [lia|].
           rewrite <- !app_assoc.
           rewrite (ReadStruct_loop_declared binary.protocol
                      (ReadValue binary.protocol g service fuel) all k acc
                      _ (bv ++ bl ++ [x00] ++ rest) (bl ++ [x00] ++ rest)
                      (bl ++ [x00] ++ rest) ""%string
                      (LookupType g service (Type_Name fty)) (Field_ID field)
                      field (normalize fm g service (Some fty) fieldValue)).
           ++ rewrite map_set_fresh by (apply Hacc; left; reflexivity).
              cbn [app].
              replace (acc ++ (Field_Name field,
                               normalize fm g service (Some fty) fieldValue)
                             :: fields_norm fm g service m (List.filter keep fields))
                with ((acc ++ [(Field_Name field,
                                normalize fm g service (Some fty) fieldValue)])
                        ++ fields_norm fm g service m (List.filter keep fields))
                by (rewrite <- app_assoc; reflexivity).
              assert (Hacc' : forall field', In field' fields ->
                        ~ In (Field_Name field')
                            (map fst (acc ++ [(Field_Name field,
                                      normalize fm g service (Some fty) fieldValue)]))).
              { intros field' Hin' Hkey. rewrite map_app in Hkey.
                apply in_app_or in Hkey. destruct Hkey as [Hkey|[Heq|[]]].
                - apply (Hacc field'); [right; exact Hin'|exact Hkey].
                - simpl in Heq. apply Hfresh. rewrite Heq.
                  apply list_elem_of_In, in_map. exact Hin'. }
              pose proof (Rl fuel k _ ltac:(lia) ltac:(lia) Hacc' rest) as Hread.
              rewrite <- app_assoc in Hread. cbn [app] in Hread. exact Hread.
           ++ apply (reads_ReadFieldBegin _ _ Htag Hid).
           ++ unfold wire_tag, STOP in *. lia.
           ++ exact Hfind.
           ++ rewrite Hfty. apply Rv. lia.
           ++ reflexivity.
      * rewrite Hfield.
        exists bl, fl. split.
        -- apply (writes_bind _ _ [] bl); [apply writes_ret|exact Wl].
        -- intros fuel k acc Hfuel Hk Hacc. cbn [app].
           apply Rl; try assumption.
           intros field' Hin'. apply Hacc. right. exact Hin'.
    + destruct (IH (pre ++ [field]) Hall' Hnames Hok) as (bl & fl & Wl & Rl).
      exists bl, fl. split; [exact Wl|].
      intros fuel k acc Hfuel Hk Hacc.
      apply Rl; try assumption.
      intros field' Hin'. apply Hacc. right. exact Hin'.
Qed.

End NewerDescriptor.

(** X22. A struct written with fewer fields than the reader knows, and
    required fields on reading. Let the descriptor registered under [older]
    keep some of the fields of the descriptor registered under [newer], in the
    same order, and let [VMap m] be schema-valid for [older]. Then what
    [WriteValue] writes for [older] over the binary protocol is read under
    [newer], given enough fuel, as the normal form of the value for [older]:
    a field that only [newer] declares is absent from the result, and its
    absence is no error even when [newer] declares it required. *)
Theorem ReadValue_newer_descriptor (fm : FloatModel) (g : Globals)
  (service : Service) (newer older : Type_) (newerStruct olderStruct : Struct)
  (keep : Field -> bool) (m : list (string * iface)) :
  registry_ok g ->
  LookupType g service (Type_Name newer) = STRUCT ->
  LookupType g service (Type_Name older) = STRUCT ->
  Service_Structs service !! Type_Name newer = Some newerStruct ->
  Service_Structs service !! Type_Name older = Some olderStruct ->
  Struct_Fields olderStruct = List.filter keep (Struct_Fields newerStruct) ->
  struct_ok newerStruct ->
  has_type fm g service (Some older) (VMap m) ->
  exists (bytes : list byte) (fuel0 : nat),
    (forall out : binary.Buffer,
        WriteValue binary.protocol fm g service (Some older) (VMap m) out
        = (Ok tt, out ++ bytes))
    /\ (forall (fuel : nat) (rest : binary.Buffer),
           (fuel0 <= fuel)%nat ->
           ReadValue binary.protocol g service fuel (Some newer) (bytes ++ rest)
           = (Ok (normalize fm g service (Some older) (VMap m)), rest)).
Proof.
  intros Hg Enew Eold Hnew Hold Hkeep (Hids & Hnodup & Hnames) Hty.
  rewrite (has_type_STRUCT _ _ _ _ _ Eold), Hold in Hty.
  destruct Hty as [_ Hok]. rewrite Hkeep in Hok.
  destruct (fields_read_by_newer fm g service Hg (Struct_Fields newerStruct) keep m
              Hids Hnodup (Struct_Fields newerStruct) [] eq_refl Hnames Hok)
    as (bf & ff & Wf & Rf).
  exists (bf ++ [x00]), (S ff). split.
  - rewrite (WriteValue_STRUCT _ _ _ _ _ _ Eold).
    unfold WriteStruct, WriteStruct_with. rewrite Hold, Hkeep.
    apply (writes_bind _ _ [] (bf ++ [x00])); [apply writes_ret|].
    apply writes_bind; [exact Wf|].
    apply (writes_eq _ ([x00] ++ [])); [|reflexivity].
    apply writes_bind; [apply writes_write|apply writes_ret].
  - intros fuel rest Hfuel. destruct fuel as [|fuel]; [lia|].
    rewrite (ReadValue_STRUCT _ _ _ _ _ Enew), (normalize_STRUCT _ _ _ _ _ Eold).
    unfold ReadStruct, ReadStruct_with. rewrite Hnew, Hold, Hkeep.
    revert rest.
    apply (reads_bind _ _ [] (bf ++ [x00]) tt); [intros rest; reflexivity|].
    apply (reads_bind_nil _ _ _
             (fields_norm fm g service m
                (List.filter keep (Struct_Fields newerStruct)))).
    + apply (Rf fuel fuel []); [lia|lia|]. intros field _ [].
    + intros rest. reflexivity.
Qed.

Lemma struct_ok_Account : struct_ok Evolution.Account.
Proof.
  unfold struct_ok. cbn [Struct_Fields Evolution.Account map Field_ID Field_Name].
  split; [|split].
  - repeat (apply List.Forall_cons; [unfold in_int; simpl; lia|]).
    apply List.Forall_nil.
  - repeat (apply NoDup_cons_2;
            [intros H;
             repeat (apply elem_of_cons in H as [H|H]; [discriminate H|]);
             apply elem_of_nil in H; exact H|]).
    apply NoDup_nil_2.
  - repeat (apply NoDup_cons_2;
            [intros H;
             repeat (apply elem_of_cons in H as [H|H]; [discriminate H|]);
             apply elem_of_nil in H; exact H|]).
    apply NoDup_nil_2.
Defined.

Lemma normalize_sample_person_Evolution :
  normalize Sample.floats Evolution.globals Evolution.service
    (Sample.ty "Person") sample_person
  = VMap [("name"%string, VString "bob"); ("age"%string, VInt Kint32 42)].
Proof. vm_compute. reflexivity. Qed.

(** Witness of [ReadValue_newer_descriptor]: the sample [Person], written as a
    [Person], is read as an [Account], whose required [email] is not on the
    wire. *)
Lemma ReadValue_newer_descriptor_witness :
  exists (bytes : list byte) (fuel0 : nat),
    (forall out : binary.Buffer,
        WriteValue binary.protocol Sample.floats Evolution.globals
          Evolution.service (Sample.ty "Person") sample_person out
        = (Ok tt, out ++ bytes))
    /\ (forall (fuel : nat) (rest : binary.Buffer),
           (fuel0 <= fuel)%nat ->
           ReadValue binary.protocol Evolution.globals Evolution.service fuel
             (Sample.ty "Account") (bytes ++ rest)
           = (Ok (VMap [("name"%string, VString "bob");
                        ("age"%string, VInt Kint32 42)]), rest)).
Proof.
  rewrite <- normalize_sample_person_Evolution.
  refine (ReadValue_newer_descriptor Sample.floats Evolution.globals
            Evolution.service (mkType "Account" None None)
            (mkType "Person" None None) Evolution.Account Sample.Person
            (fun field => Field_ID field <=? 2)
            [("age"%string, VString "42"); ("name"%string, VString "bob");
             ("extra"%string, VBool true)]
            registry_ok_Evolution _ _ _ _ _ struct_ok_Account
            has_type_sample_person_Evolution);
    vm_compute; reflexivity.
Defined.

(** ** The bytes that are written *)

Section WireImageFacts.

Variable fm : FloatModel.
Variable g : Globals.
Variable service : Service.

Let encoded (x : iface) : Prop :=
  forall parserType : option Type_,
    has_type fm g service parserType x ->
    writes (WriteValue binary.protocol fm g service parserType x)
      (encode fm g service parserType x).

Section Tags.

Variable ty : Type_.
Let t := LookupType g service (Type_Name ty).

Ltac by_tag v :=
  let E := fresh "E" in
  intros E; unfold t in *; destruct v; cbn [encode];
  rewrite E; reflexivity.

Lemma encode_BOOL v : t = BOOL ->
  encode fm g service (Some ty) v
  = match v with
    | VBool b => [binary.byte_of_Z (if b then 1 else 0)]
    | _ => []
    end.
Proof. by_tag v. Qed.
Lemma encode_BYTE v : t = BYTE ->
  encode fm g service (Some ty) v
  = match v with VInt _ n => [binary.byte_of_Z n] | _ => [] end.
Proof. by_tag v. Qed.
Lemma encode_DOUBLE v : t = DOUBLE ->
  encode fm g service (Some ty) v
  = let 'Float64frombytes b7 b6 b5 b4 b3 b2 b1 b0 := fst (Float64 fm v) in
    [b7; b6; b5; b4; b3; b2; b1; b0].
Proof. by_tag v. Qed.
Lemma encode_I16 v : t = I16 ->
  encode fm g service (Some ty) v = binary.be_encode 2 (fst (Int16 fm v)).
Proof. by_tag v. Qed.
Lemma encode_I32 v : t = I32 ->
  encode fm g service (Some ty) v = binary.be_encode 4 (fst (Int32 fm v)).
Proof. by_tag v. Qed.
Lemma encode_I64 v : t = I64 ->
  encode fm g service (Some ty) v = binary.be_encode 8 (fst (Int64 fm v)).
Proof. by_tag v. Qed.
Lemma encode_STRING v : t = STRING ->
  encode fm g service (Some ty) v
  = match v with VString s => string_bytes s | _ => [] end.
Proof. by_tag v. Qed.
Lemma encode_STRUCT v : t = STRUCT ->
  encode fm g service (Some ty) v
  = match Service_Structs service !! Type_Name ty, v with
    | Some thriftStruct, VMap m =>
        fields_encode fm g service m (Struct_Fields thriftStruct) ++ [x00]
    | _, _ => []
    end.
Proof. by_tag v. Qed.
Lemma encode_MAP v : t = MAP ->
  encode fm g service (Some ty) v
  = match Type_ValueType ty, v with
    | Some valueType, VMap m =>
        map_header STRING (LookupType g service (Type_Name valueType)) (length m)
        ++ entries_encode fm g service valueType m
    | _, _ => []
    end.
Proof. by_tag v. Qed.
Lemma encode_LIST v : t = LIST ->
  encode fm g service (Some ty) v
  = match Type_ValueType ty, v with
    | Some valueType, VList l =>
        list_header (LookupType g service (Type_Name valueType)) (length l)
        ++ elements_encode fm g service valueType l
    | _, _ => []
    end.
Proof. by_tag v. Qed.

End Tags.

Lemma elements_encoded (valueType : Type_) (l : list iface) :
  Forall encoded l ->
  elements_ok fm g service valueType l ->
  writes (write_elements fm g service valueType l)
    (elements_encode fm g service valueType l).
Proof.
  induction 1 as [|x l Hx Hl IH]; intros Hok; [apply writes_ret|].
  destruct Hok as [Hhead Hrest]. cbn [write_elements elements_encode].
  apply writes_bind; [exact (Hx _ Hhead)|exact (IH Hrest)].
Qed.

Lemma entries_encoded (valueType : Type_) (m : list (string * iface)) :
  Forall (fun kv => encoded (snd kv)) m ->
  entries_ok fm g service valueType m ->
  writes (write_entries fm g service valueType m)
    (entries_encode fm g service valueType m).
Proof.
  induction 1 as [|[k x] m Hx Hm IH]; intros Hok; [apply writes_ret|].
  destruct Hok as (Hk & Hhead & Hrest). cbn [snd] in Hx.
  cbn [write_entries entries_encode].
  apply writes_bind; [apply writes_WriteString; exact Hk|].
  apply writes_bind; [exact (Hx _ Hhead)|exact (IH Hrest)].
Qed.

Lemma fields_encoded (m : list (string * iface)) :
  Forall (fun kv => encoded (snd kv)) m ->
  forall fields : list Field,
    Forall (fun field => in_int 16 (Field_ID field)) fields ->
    fields_ok fm g service m fields ->
    writes (write_fields fm g service m fields)
      (fields_encode fm g service m fields).
Proof.
  intros Hm. induction fields as [|field fields IH]; intros Hids Hok;
    [apply writes_ret|].
  destruct Hok as [Hfield Hrest]. rewrite with_map_get_spec in Hfield.
  apply Forall_cons in Hids as [Hid Hids].
  cbn [write_fields fields_encode]. rewrite !with_map_get_spec.
  apply writes_bind; [|exact (IH Hids Hrest)].
  destruct (map_get (Field_Name field) m) as [fieldValue|] eqn:Hget.
  - destruct (Field_Type field) as [fty|] eqn:Hfty;
      [|exfalso; exact (has_type_None _ _ _ _ Hfield)].
    unfold WriteField, WriteField_with. rewrite Hfty.
    rewrite wrap_small by (lia || exact Hid).
    apply writes_bind; [apply writes_WriteFieldBegin|].
    apply (writes_eq _ (encode fm g service (Some fty) fieldValue ++ []));
      [|apply app_nil_r].
    apply writes_bind; [|apply writes_ret].
    exact (map_get_Forall _ _ _ _ Hm Hget _ Hfield).
  - rewrite Hfield. apply writes_ret.
Qed.

Lemma has_type_encoded (v : iface) : encoded v.
Proof.
  induction v as [ | b | k n | f | f | s | l IH | m IH ] using iface_ind';
    intros [ty|] Hty; try (exfalso; exact (has_type_None _ _ _ _ Hty));
    pose proof (has_type_tag _ _ _ _ _ Hty) as Htag; simpl in Htag;
    destruct Htag as [E|[E|[E|[E|[E|[E|[E|[E|[E|[E|[]]]]]]]]]]]; symmetry in E;
    try (rewrite (has_type_BOOL _ _ _ _ _ E) in Hty; try contradiction;
         rewrite (WriteValue_BOOL _ _ _ _ _ _ E), (encode_BOOL _ _ E);
         apply writes_write);
    try (rewrite (has_type_BYTE _ _ _ _ _ E) in Hty; try contradiction;
         rewrite (WriteValue_BYTE _ _ _ _ _ _ E), (encode_BYTE _ _ E);
         destruct k; try contradiction; apply writes_write);
    try (rewrite (has_type_STRING _ _ _ _ _ E) in Hty; try contradiction;
         rewrite (WriteValue_STRING _ _ _ _ _ _ E), (encode_STRING _ _ E);
         apply writes_WriteString; exact Hty);
    try (rewrite (has_type_DOUBLE _ _ _ _ _ E) in Hty;
         rewrite (WriteValue_DOUBLE _ _ _ _ _ _ E), (encode_DOUBLE _ _ E);
         match goal with
         | |- context [Float64 fm ?x] =>
             destruct (Float64 fm x) as [[b7 b6 b5 b4 b3 b2 b1 b0] ok]
         end;
         simpl in Hty; subst; apply writes_write);
    try (rewrite (has_type_I16 _ _ _ _ _ E) in Hty;
         rewrite (WriteValue_I16 _ _ _ _ _ _ E), (encode_I16 _ _ E);
         match goal with
         | |- context [Int16 fm ?x] => destruct (Int16 fm x) as [z ok]
         end;
         simpl in Hty; subst; apply writes_write);
    try (rewrite (has_type_I32 _ _ _ _ _ E) in Hty;
         rewrite (WriteValue_I32 _ _ _ _ _ _ E), (encode_I32 _ _ E);
         match goal with
         | |- context [Int32 fm ?x] => destruct (Int32 fm x) as [z ok]
         end;
         simpl in Hty; subst; apply writes_write);
    try (rewrite (has_type_I64 _ _ _ _ _ E) in Hty;
         rewrite (WriteValue_I64 _ _ _ _ _ _ E), (encode_I64 _ _ E);
         match goal with
         | |- context [Int64 fm ?x] => destruct (Int64 fm x) as [z ok]
         end;
         simpl in Hty; subst; apply writes_write);
    try (exfalso; rewrite (has_type_STRUCT _ _ _ _ _ E) in Hty;
         destruct (Service_Structs service !! Type_Name ty); exact Hty);
    try (exfalso; rewrite (has_type_MAP _ _ _ _ _ E) in Hty;
         destruct (Type_ValueType ty); exact Hty);
    try (exfalso; rewrite (has_type_LIST _ _ _ _ _ E) in Hty;
         destruct (Type_ValueType ty); exact Hty).
  - (* LIST *)
    rewrite (has_type_LIST _ _ _ _ _ E) in Hty.
    rewrite (WriteValue_LIST _ _ _ _ _ _ E), (encode_LIST _ _ E).
    unfold WriteList, WriteList_with.
    destruct (Type_ValueType ty) as [valueType|]; [|contradiction].
    destruct Hty as [Hlen Hok].
    apply writes_bind; [apply writes_WriteListBegin; exact Hlen|].
    apply (writes_eq _ (elements_encode fm g service valueType l ++ []));
      [|apply app_nil_r].
    apply writes_bind; [exact (elements_encoded valueType l IH Hok)|apply writes_ret].
  - (* STRUCT *)
    rewrite (has_type_STRUCT _ _ _ _ _ E) in Hty.
    rewrite (WriteValue_STRUCT _ _ _ _ _ _ E), (encode_STRUCT _ _ E).
    unfold WriteStruct, WriteStruct_with.
    destruct (Service_Structs service !! Type_Name ty) as [thriftStruct|];
      [|contradiction].
    destruct Hty as [(Hids & _ & _) Hok].
    apply (writes_bind _ _ [] _); [apply writes_ret|].
    apply writes_bind;
      [exact (fields_encoded m IH (Struct_Fields thriftStruct) Hids Hok)|].
    apply (writes_eq _ ([x00] ++ [])); [|reflexivity].
    apply writes_bind; [apply writes_write|apply writes_ret].
  - (* MAP *)
    rewrite (has_type_MAP _ _ _ _ _ E) in Hty.
    rewrite (WriteValue_MAP _ _ _ _ _ _ E), (encode_MAP _ _ E).
    unfold WriteMap, WriteMap_with.
    destruct (Type_ValueType ty) as [valueType|]; [|contradiction].
    destruct Hty as (Hnd & Hlen & Hok).
    apply writes_bind; [apply writes_WriteMapBegin; exact Hlen|].
    apply (writes_eq _ (entries_encode fm g service valueType m ++ []));
      [|apply app_nil_r].
    apply writes_bind; [exact (entries_encoded valueType m IH Hok)|apply writes_ret].
Qed.

End WireImageFacts.

(** X23. The bytes on the wire. For a schema-valid value, [WriteValue] over
    the binary protocol appends exactly the Thrift binary encoding of the
    value under its type: big-endian integers after coercion, length-prefixed
    strings, the fields of a struct in the order of the descriptor with tag
    and ID and a closing stop byte, and maps and lists with their header,
    every map key written as a string. With the round trip, [ReadValue]
    decodes that encoding to the normal form of the value. *)
Theorem WriteValue_writes_encoding (fm : FloatModel) (g : Globals)
  (service : Service) (parserType : option Type_) (v : iface) :
  has_type fm g service parserType v ->
  (forall out : binary.Buffer,
      WriteValue binary.protocol fm g service parserType v out
      = (Ok tt, out ++ encode fm g service parserType v))
  /\ (registry_ok g ->
      exists fuel0 : nat,
        forall (fuel : nat) (rest : binary.Buffer),
          (fuel0 <= fuel)%nat ->
          ReadValue binary.protocol g service fuel parserType
            (encode fm g service parserType v ++ rest)
          = (Ok (normalize fm g service parserType v), rest)).
Proof.
  intros Hty.
  pose proof (has_type_encoded fm g service v parserType Hty) as Hw.
  split; [exact Hw|].
  intros Hg.
  destruct (has_type_round_trips fm g service Hg v parserType Hty)
    as (bytes & fuel0 & Hw' & Hr).
  rewrite (writes_unique _ _ _ Hw Hw').
  exists fuel0. intros fuel rest Hfuel. exact (Hr fuel Hfuel rest).
Qed.

(** Witness of [WriteValue_writes_encoding]: the 18 bytes of the sample
    [Person]. *)
Lemma WriteValue_writes_encoding_witness :
  WriteValue binary.protocol Sample.floats Sample.globals Sample.service
    (Sample.ty "Person") sample_person []
  = (Ok tt,
     [x0b; x00; x01; x00; x00; x00; x03; x62; x6f; x62;
      x08; x00; x02; x00; x00; x00; x2a; x00]).
Proof.
  exact (proj1 (WriteValue_writes_encoding Sample.floats Sample.globals
                  Sample.service (Sample.ty "Person") sample_person
                  has_type_sample_person) []).
Defined.

(** ** The request on the wire *)

Lemma WriteRequest_loop_encoded (fm : FloatModel) (g : Globals)
  (service : Service) (args : list iface) (arguments : list Field) :
  arguments_ok fm g service arguments args ->
  writes (WriteRequest_loop binary.protocol fm g service arguments args)
    (arguments_encode fm g service arguments args).
Proof.
  induction 1 as [|argument arguments (Hpos & Hid & arg & Hnth & Hty) Hrest IH];
    [apply writes_ret|].
  cbn [WriteRequest_loop arguments_encode]. rewrite Hnth.
  assert (Hlt : (Z.to_nat (Field_ID argument - 1) < length args)%nat)
    by (apply nth_error_Some; congruence).
  replace (Field_ID argument >? Z.of_nat (length args)) with false
    by (symmetry; rewrite Z.gtb_ltb; apply Z.ltb_ge; lia).
  destruct (Field_Type argument) as [argType|] eqn:Hfty;
    [|exfalso; exact (has_type_None _ _ _ _ Hty)].
  intros out. unfold bind at 1.
  rewrite (index_slice_in_range args (Field_ID argument - 1) arg out ltac:(lia) Hnth).
  revert out. apply writes_bind; [|exact IH].
  unfold WriteField, WriteField_with. rewrite Hfty.
  rewrite wrap_small by (lia || exact Hid).
  apply writes_bind; [apply writes_WriteFieldBegin|].
  apply (writes_eq _ (encode fm g service (Some argType) arg ++ []));
    [|apply app_nil_r].
  apply writes_bind; [|apply writes_ret].
  apply has_type_encoded. exact Hty.
Qed.

(** X24. The request that is sent. Over the binary protocol, for a method of
    the service whose declared arguments all point at schema-valid values among
    the arguments passed, [send] increments the sequence counter of the struct
    it runs on and appends to the output exactly one CALL message: the strict
    header with the method name and the new sequence id, one field per
    declared argument, in declaration order, holding the encoding of
    [args[ID-1]], and the stop byte. Arguments passed beyond the declared IDs
    are not sent. The input protocol is not touched. *)
Theorem send_writes_request (fm : FloatModel) (g : Globals) (client : Client)
  (method : string) (m : Method) (args : list iface)
  (w : World binary.Buffer) :
  Service_Methods (Service_parser (Client_Service client)) !! method = Some m ->
  wire_length (String.length method) ->
  arguments_ok fm g (Client_Service client) (Method_Arguments m) args ->
  send binary.protocol fm g method args (client, w)
  = (Ok tt,
     (bump client,
      mkWorld (InputProtocol w)
        (OutputProtocol w
         ++ request_encode fm g (Client_Service client) method
              (wrap 32 (Client_SeqId client + 1)) (Method_Arguments m) args))).
Proof.
  intros Hm Hname Hargs.
  rewrite (send_open binary.protocol fm g method args client w eq_refl).
  unfold request_encode.
  unfold bind at 1. unfold on_output at 1. cbn [bump Client_SeqId].
  change (WriteMessageBegin binary.protocol) with binary.WriteMessageBegin.
  rewrite (writes_WriteMessageBegin method CALL _ Hname).
  unfold bind at 1. unfold on_output at 1.
  cbn [bump Client_Service InputProtocol OutputProtocol].
  assert (Wr : writes (WriteRequest binary.protocol fm g (Client_Service client)
                         method args)
                 (arguments_encode fm g (Client_Service client)
                    (Method_Arguments m) args ++ [x00])).
  { unfold WriteRequest. rewrite Hm.
    apply (writes_bind _ _ [] _); [apply writes_ret|].
    apply writes_bind; [apply WriteRequest_loop_encoded; exact Hargs|].
    apply (writes_eq _ ([x00] ++ [])); [|reflexivity].
    apply writes_bind; [apply writes_write|apply writes_ret]. }
  rewrite Wr. unfold bind, on_output.
  cbn [InputProtocol OutputProtocol WriteMessageEnd Flush binary.protocol
       binary.nop ret].
  rewrite <- !app_assoc. reflexivity.
Qed.

(** Witness of [send_writes_request]: [getPerson(7)] on a fresh session, with
    a second argument that the method does not declare. *)
Lemma send_writes_request_witness :
  send binary.protocol Sample.floats Sample.globals "getPerson"
    [VInt Kint64 7; VString "unused"] (NewClient Sample.service, mkWorld [] [])
  = (Ok tt,
     (bump (NewClient Sample.service),
      mkWorld []
        ([x80; x01; x00; x01; x00; x00; x00; x09;
          x67; x65; x74; x50; x65; x72; x73; x6f; x6e;
          x00; x00; x00; x01;
          x0a; x00; x01; x00; x00; x00; x00; x00; x00; x00; x07;
          x00]))).
Proof.
  refine (send_writes_request Sample.floats Sample.globals
            (NewClient Sample.service) "getPerson" Sample.getPerson
            [VInt Kint64 7; VString "unused"] (mkWorld [] []) _ _ _).
  - vm_compute. reflexivity.
  - unfold wire_length. simpl. lia.
  - unfold arguments_ok. cbn [Method_Arguments Sample.getPerson].
    apply List.Forall_cons; [|apply List.Forall_nil].
    cbn [Field_ID Field_Type]. split; [lia|]. split; [unfold in_int; simpl; lia|].
    exists (VInt Kint64 7). split; [reflexivity|].
    unfold Sample.ty. rewrite has_type_I64 by (vm_compute; reflexivity).
    reflexivity.
Defined.

(** ** Unknown fields of a struct payload *)

Section StructPayloadFacts.

Variable fm : FloatModel.
Variable g : Globals.
Variable service : Service.
Hypothesis Hregistry : registry_ok g.

(** A schema-valid value is read back from its encoding. *)
Lemma encode_read_back (parserType : option Type_) (v : iface) :
  has_type fm g service parserType v ->
  exists fuel0 : nat,
    forall fuel : nat,
      (fuel0 <= fuel)%nat ->
      reads (ReadValue binary.protocol g service fuel parserType)
        (encode fm g service parserType v)
        (normalize fm g service parserType v).
Proof.
  intros Hty.
  destruct (has_type_round_trips fm g service Hregistry v parserType Hty)
    as (bytes & fuel0 & Hw & Hr).
  rewrite (writes_unique _ _ _ (has_type_encoded fm g service v parserType Hty) Hw).
  exists fuel0. exact Hr.
Qed.

(** The loop of [ReadStruct] over a well-formed payload: one turn for each
    field and one for the stop byte. *)
Lemma ReadStruct_loop_payload (fields : list Field) (wfs : list wire_field) :
  Forall (wire_field_ok fm g service fields) wfs ->
  exists fuel0 : nat,
    forall (fuel k : nat) (result : list (string * iface)) (rest : binary.Buffer),
      (fuel0 <= fuel)%nat ->
      (length wfs < k)%nat ->
      ReadStruct_loop binary.protocol (ReadValue binary.protocol g service fuel)
        fields k result (struct_payload fm g service wfs ++ rest)
      = (Ok (decoded_fields fm g service wfs result), rest).
Proof.
  induction 1 as [|wf wfs Hwf Hwfs (fl & IH)].
  - exists 0%nat. intros fuel k result rest _ Hk.
    destruct k as [|k]; [simpl in Hk; lia|].
    cbn [struct_payload decoded_fields app].
    apply (ReadStruct_loop_stop binary.protocol _ fields k result _ rest
             ""%string 0).
    apply ReadFieldBegin_stop.
  - destruct wf as [tag field value|tag index payload].
    + destruct Hwf as (Htag & Hid & Hfind & Hty).
      destruct (encode_read_back _ _ Hty) as (fv & Rv).
      exists (Nat.max fv fl). intros fuel k result rest Hfuel Hk.
      destruct k as [|k]; [simpl in Hk; lia|].
      cbn [struct_payload wire_field_bytes decoded_fields length] in *.
      rewrite <- !app_assoc.
      rewrite (ReadStruct_loop_declared binary.protocol
                 (ReadValue binary.protocol g service fuel) fields k result
                 _ (encode fm g service (Field_Type field) value
                    ++ struct_payload fm g service wfs ++ rest)
                 (struct_payload fm g service wfs ++ rest)
                 (struct_payload fm g service wfs ++ rest) ""%string
                 tag (Field_ID field) field
                 (normalize fm g service (Field_Type field) value)).
      * apply IH; lia.
      * apply (reads_ReadFieldBegin _ _ Htag Hid).
      * unfold wire_tag, STOP in *. lia.
      * exact Hfind.
      * apply Rv. lia.
      * reflexivity.
    + destruct Hwf as (Htag & Hid & Hfind & Hskip).
      exists fl. intros fuel k result rest Hfuel Hk.
      destruct k as [|k]; [simpl in Hk; lia|].
      cbn [struct_payload wire_field_bytes decoded_fields length] in *.
      rewrite <- !app_assoc.
      rewrite (ReadStruct_loop_unknown binary.protocol
                 (ReadValue binary.protocol g service fuel) fields k result
                 _ (payload ++ struct_payload fm g service wfs ++ rest)
                 (struct_payload fm g service wfs ++ rest)
                 (struct_payload fm g service wfs ++ rest) ""%string
                 tag index (Ok tt)).
      * apply IH; lia.
      * apply (reads_ReadFieldBegin _ _ Htag Hid).
      * unfold wire_tag, STOP in *. lia.
      * exact Hfind.
      * apply Hskip.
      * left. reflexivity.
      * reflexivity.
Qed.

Lemma decoded_fields_app (pre post : list wire_field)
  (result : list (string * iface)) :
  decoded_fields fm g service (pre ++ post) result
  = decoded_fields fm g service post (decoded_fields fm g service pre result).
Proof.
  revert result. induction pre as [|[tag field value|tag index payload] pre IH];
    intros result; cbn [app decoded_fields]; [reflexivity|apply IH|apply IH].
Qed.

Lemma decoded_fields_keys (wfs : list wire_field) :
  forall (result : list (string * iface)) (k : string),
    In k (map fst (decoded_fields fm g service wfs result)) ->
    In k (map fst result)
    \/ exists tag field value,
         In (Declared tag field value) wfs /\ Field_Name field = k.
Proof.
  induction wfs as [|[tag field value|tag index payload] wfs IH];
    intros result k Hk; cbn [decoded_fields] in Hk.
  - left. exact Hk.
  - destruct (IH _ _ Hk) as [Hin|(tag' & field' & value' & Hin & Hname)].
    + apply map_set_keys in Hin as [->|Hin]; [right|left; exact Hin].
      exists tag, field, value. split; [left; reflexivity|reflexivity].
    + right. exists tag', field', value'. split; [right; exact Hin|exact Hname].
  - destruct (IH _ _ Hk) as [Hin|(tag' & field' & value' & Hin & Hname)].
    + left. exact Hin.
    + right. exists tag', field', value'. split; [right; exact Hin|exact Hname].
Qed.

Lemma decoded_fields_lookup (wfs : list wire_field) (k : string) :
  (forall tag field value,
      In (Declared tag field value) wfs -> Field_Name field <> k) ->
  forall result : list (string * iface),
    map_get k (decoded_fields fm g service wfs result) = map_get k result.
Proof.
  induction wfs as [|[tag field value|tag index payload] wfs IH];
    intros Hother result; cbn [decoded_fields]; [reflexivity| |].
  - rewrite IH by (intros t f v Hin; apply (Hother t f v); right; exact Hin).
    apply map_get_set_ne. intros Heq. symmetry in Heq. revert Heq.
    apply (Hother tag field value). left. reflexivity.
  - apply IH. intros t f v Hin. apply (Hother t f v). right. exact Hin.
Qed.

Lemma decoded_fields_declared (wfs : list wire_field) :
  forall result : list (string * iface),
    decoded_fields fm g service (List.filter is_declared wfs) result
    = decoded_fields fm g service wfs result.
Proof.
  induction wfs as [|[tag field value|tag index payload] wfs IH];
    intros result; cbn [List.filter is_declared decoded_fields];
    [reflexivity|apply IH|apply IH].
Qed.

End StructPayloadFacts.

(** C4. Unknown fields of a struct payload. Over the binary protocol, let a
    payload be a sequence of fields and the stop byte, where a field whose
    index is a declared ID carries a schema-valid value for the declared field,
    and a field whose index matches no declared ID carries one value of the
    wire type of its header. Then [ReadStruct], given enough fuel, completes
    without error and consumes exactly the payload; a field with an undeclared
    index is passed over with the tag of its header and leaves no trace in the
    mapping, which is the one the declared fields alone decode to; every key
    of the mapping is the name of a declared field of the payload; and the
    value of a declared field is decoded with the declared type and stored
    under the declared name (the last one on the wire, when a name comes
    twice). Whatever the input, a mapping that [ReadStruct] returns has
    declared field names for keys. *)
Theorem ReadStruct_skips_unknown_fields (fm : FloatModel) (g : Globals)
  (service : Service) (parserType : Type_) (thriftStruct : Struct)
  (payload : list wire_field) :
  registry_ok g ->
  Service_Structs service !! Type_Name parserType = Some thriftStruct ->
  Forall (wire_field_ok fm g service (Struct_Fields thriftStruct)) payload ->
  (exists fuel0 : nat,
      forall (fuel : nat) (rest : binary.Buffer),
        (fuel0 <= fuel)%nat ->
        ReadStruct binary.protocol g service fuel parserType
          (struct_payload fm g service payload ++ rest)
        = (Ok (VMap (decoded_fields fm g service payload [])), rest))
  /\ decoded_fields fm g service payload []
     = decoded_fields fm g service (List.filter is_declared payload) []
  /\ (forall k : string,
         In k (map fst (decoded_fields fm g service payload [])) ->
         exists tag field value,
           In (Declared tag field value) payload /\ Field_Name field = k)
  /\ (forall (pre post : list wire_field) (tag : TType) (field : Field)
             (value : iface),
         payload = pre ++ Declared tag field value :: post ->
         (forall tag' field' value',
             In (Declared tag' field' value') post ->
             Field_Name field' <> Field_Name field) ->
         map_get (Field_Name field) (decoded_fields fm g service payload [])
         = Some (normalize fm g service (Field_Type field) value))
  /\ (forall (fuel : nat) (q q' : binary.Buffer)
             (decoded : list (string * iface)) (k : string),
         ReadStruct binary.protocol g service fuel parserType q
         = (Ok (VMap decoded), q') ->
         In k (map fst decoded) ->
         exists field,
           In field (Struct_Fields thriftStruct) /\ Field_Name field = k).
Proof.
  intros Hg Hst Hok. split; [|split; [|split; [|split]]].
  - destruct (ReadStruct_loop_payload fm g service Hg (Struct_Fields thriftStruct)
                payload Hok) as (fl & Hloop).
    exists (Nat.max fl (S (length payload))). intros fuel rest Hfuel.
    unfold ReadStruct, ReadStruct_with. rewrite Hst.
    unfold bind at 1, ignore_err.
    change (ReadStructBegin binary.protocol (struct_payload fm g service payload ++ rest))
      with (Ok ""%string, struct_payload fm g service payload ++ rest).
    cbv beta iota. unfold bind at 1.
    rewrite (Hloop fuel fuel [] rest) by lia.
    reflexivity.
  - symmetry. apply decoded_fields_declared.
  - intros k Hk.
    destruct (decoded_fields_keys fm g service payload [] k Hk) as [[]|Hex].
    exact Hex.
  - intros pre post tag field value -> Hlast.
    rewrite decoded_fields_app. cbn [decoded_fields].
    rewrite (decoded_fields_lookup fm g service post (Field_Name field) Hlast).
    apply map_get_set_eq.
  - intros fuel q q' decoded k Hread Hk.
    unfold ReadStruct, ReadStruct_with in Hread. rewrite Hst in Hread.
    unfold bind at 1 in Hread. unfold ignore_err in Hread.
    destruct (ReadStructBegin binary.protocol q) as [[s|e| |] q1]; try discriminate;
      unfold bind at 1 in Hread;
      (destruct (ReadStruct_loop _ _ _ _ _ q1) as [[res| | |] q2] eqn:Hloop;
       try discriminate);
      unfold bind at 1 in Hread;
      (destruct (ReadStructEnd binary.protocol q2) as [[[]| | |] q3];
       try discriminate);
      inversion Hread; subst;
      destruct (ReadStruct_loop_keys binary.protocol _ _ _ _ _ _ _ Hloop k Hk)
        as [[]|Hex];
      exact Hex.
Qed.

(** Witness of [ReadStruct_skips_unknown_fields]: a [Person] payload that
    starts with an undeclared field 9 of type i32, followed by the name. *)
Lemma ReadStruct_skips_unknown_fields_witness :
  exists fuel0 : nat,
    forall (fuel : nat) (rest : binary.Buffer),
      (fuel0 <= fuel)%nat ->
      ReadStruct binary.protocol Sample.globals Sample.service fuel
        (mkType "Person" None None)
        ([x08; x00; x09; x00; x00; x00; x2a;
          x0b; x00; x01; x00; x00; x00; x02; x68; x69; x00] ++ rest)
      = (Ok (VMap [("name"%string, VString "hi")]), rest).
Proof.
  refine (proj1 (ReadStruct_skips_unknown_fields Sample.floats Sample.globals
                   Sample.service (mkType "Person" None None) Sample.Person
                   [Undeclared I32 9 [x00; x00; x00; x2a];
                    Declared STRING (mkField 1 "name" false (Sample.ty "string"))
                      (VString "hi")]
                   registry_ok_Sample _ _)).
  - vm_compute. reflexivity.
  - apply List.Forall_cons; [|apply List.Forall_cons; [|apply List.Forall_nil]].
    + cbn [wire_field_ok].
      split; [unfold wire_tag, I32; lia|].
      split; [unfold in_int; simpl; lia|].
      split; [vm_compute; reflexivity|].
      intros rest. reflexivity.
    + cbn [wire_field_ok Field_ID Field_Type].
      split; [unfold wire_tag, STRING; lia|].
      split; [unfold in_int; simpl; lia|].
      split; [vm_compute; reflexivity|].
      unfold Sample.ty. rewrite has_type_STRING by (vm_compute; reflexivity).
      unfold wire_length. simpl. lia.
Defined.
